(** * Tunes4R download service: job runner, acquisition ladder, enrichment,
      tracklist resolver

    A shallow embedding of [src/api/download_service.py].  Every function of
    the service that talks to the outside world (yt-dlp, ffmpeg, MusicBrainz,
    the cover art archive, the lyric providers, the file system) is embedded
    as a function of the Python arguments and of an explicit record of what
    the outside world answered at each call; the control flow, the
    dictionaries and the messages are those of the source. *)

From Stdlib Require Import ZArith String Ascii List Lia DecimalString.
From Corelib Require Import SpecFloat.
From stdpp Require Import base gmap strings list.

Open Scope string_scope.
Open Scope list_scope.
Open Scope stdpp_scope.
Open Scope nat_scope.

(** ** Python values, strings and exceptions *)

(** The values stored in the song dictionaries: strings, integers (a track
    length taken from a JSON reply) and [None]. *)
Inductive value :=
| VStr (s : string)
| VInt (n : Z)
| VNone.

#[export] Instance value_eq_dec : EqDecision value.
Proof. solve_decision. Defined.

(** A Python [dict] with string keys. *)
Abbreviation pydict := (gmap string value).

(** A computation that either returns or raises; the payload of [Raise] is
    [str(e)]. *)
Inductive result (A : Type) :=
| Ok (a : A)
| Raise (e : string).
Arguments Ok {A} a.
Arguments Raise {A} e.

#[export] Instance result_ret : MRet result := @Ok.

#[export] Instance result_bind : MBind result := λ A B k r,
  match r with
  | Ok a => k a
  | Raise e => Raise e
  end.

(** Truth value of a Python object in a condition. *)
Definition truthy (v : value) : bool :=
  match v with
  | VStr s => negb (String.eqb s EmptyString)
  | VInt n => negb (n =? 0)%Z
  | VNone => false
  end.

(** [d[k]]: raises [KeyError] when the key is absent; [str(KeyError(k))] is
    the key between single quotes. *)
Definition getitem (d : pydict) (k : string) : result value :=
  match d !! k with
  | Some v => Ok v
  | None => Raise ("'" +:+ k +:+ "'")
  end.

(** [d.get(k)]: [None] when the key is absent. *)
Definition dict_get (d : pydict) (k : string) : value :=
  default VNone (d !! k).

(** The string method [attr] called on [v]: an [AttributeError] unless [v] is
    a string; the payload is [str(e)]. *)
Definition as_str (attr : string) (v : value) : result string :=
  match v with
  | VStr s => Ok s
  | VInt _ => Raise ("'int' object has no attribute '" +:+ attr +:+ "'")
  | VNone => Raise ("'NoneType' object has no attribute '" +:+ attr +:+ "'")
  end.

(** [str(v)] inside an f-string. *)
Definition format (v : value) : string :=
  match v with
  | VStr s => s
  | VInt n => NilZero.string_of_int (Z.to_int n)
  | VNone => "None"
  end.

Definition str_of_nat (n : nat) : string :=
  NilZero.string_of_uint (Nat.to_uint n).

Definition str_of_Z (n : Z) : string :=
  NilZero.string_of_int (Z.to_int n).

(** [str.isspace] on the code points below 256 (characters are the code
    points of the Python string, one [ascii] each). *)
Definition isspace (c : ascii) : bool :=
  let n := nat_of_ascii c in
  ((9 <=? n) && (n <=? 13) || (28 <=? n) && (n <=? 32)
   || (n =? 133) || (n =? 160))%nat.

Fixpoint lstrip (s : string) : string :=
  match s with
  | EmptyString => EmptyString
  | String c s' => if isspace c then lstrip s' else s
  end.

Fixpoint rstrip (s : string) : string :=
  match s with
  | EmptyString => EmptyString
  | String c s' =>
      match rstrip s' with
      | EmptyString => if isspace c then EmptyString else String c EmptyString
      | r => String c r
      end
  end.

(** [s.strip()] *)
Definition strip (s : string) : string := rstrip (lstrip s).

(** [needle in hay] *)
Fixpoint contains (needle hay : string) : bool :=
  String.prefix needle hay
  || match hay with
     | EmptyString => false
     | String _ h => contains needle h
     end.

(** [s.replace(old, new)] for a non-empty [old]: occurrences are replaced
    from the left and do not overlap.  [skip] counts the characters of a
    match that was just replaced and are still to be dropped. *)
Fixpoint replace_from (old new : string) (skip : nat) (s : string) : string :=
  match s with
  | EmptyString => EmptyString
  | String c s' =>
      match skip with
      | S k => replace_from old new k s'
      | O =>
          if String.prefix old s
          then new +:+ replace_from old new (String.length old - 1) s'
          else String c (replace_from old new 0 s')
      end
  end.

Definition replace (old new s : string) : string := replace_from old new 0 s.

(** [s.lower()] on the code points below 256. *)
Definition lower_char (c : ascii) : ascii :=
  let n := nat_of_ascii c in
  if ((65 <=? n) && (n <=? 90)
      || (192 <=? n) && (n <=? 222) && negb (n =? 215))%nat
  then ascii_of_nat (n + 32) else c.

Fixpoint lower (s : string) : string :=
  match s with
  | EmptyString => EmptyString
  | String c s' => String (lower_char c) (lower s')
  end.

(** [s[:n]] *)
Definition take_str (n : nat) (s : string) : string := String.substring 0 n s.

(** [sep.join(l)] *)
Fixpoint join (sep : string) (l : list string) : string :=
  match l with
  | [] => EmptyString
  | [x] => x
  | x :: l' => x +:+ sep +:+ join sep l'
  end.

(** ** External replies *)

(** What an HTTP lookup gave: [requests.get] (or the decoding of the body)
    raised, or a reply arrived with a status code and a decoded body.  The
    body is only read when the status is 200. *)
Inductive http (A : Type) :=
| HttpRaised (e : string)
| HttpReply (status_code : Z) (body : A).
Arguments HttpRaised {A} e.
Arguments HttpReply {A} status_code body.

(** An optional JSON string read with [.get(k)] and tested in a condition:
    absent and empty are both false. *)
Definition nonempty (o : option string) : option string :=
  match o with
  | Some s => if String.eqb s EmptyString then None else Some s
  | None => None
  end.

(** ** Cover art: [get_album_cover_art] *)

(** An entry of [images]: the [front] flag and [thumbnails.small] ([None]
    when the key is missing, a [KeyError] in the source). *)
Record image := { img_front : bool; img_small : option string }.

Definition get_album_cover_art (reply : http (list image)) : option string :=
  match reply with
  | HttpRaised _ => None
  | HttpReply code images =>
      if (code =? 200)%Z then
        match images with
        | [] => None
        | first :: _ =>
            match List.find img_front images with
            | Some front_cover => img_small front_cover
            | None => img_small first
            end
        end
      else None
  end.

(** ** Lyrics: [get_song_lyrics] *)

Record lrc_entry := {
  lrc_artistName : option string;
  lrc_trackName : option string;
  lrc_plainLyrics : option string
}.

Record lyrics_env := {
  ovh_reply : http (option string);      (* body: the [lyrics] field *)
  lrclib_reply : http (list lrc_entry)
}.

Definition lrclib_match (artist_clean title_clean : string) (r : lrc_entry)
  : bool :=
  let result_artist := lower (default EmptyString (lrc_artistName r)) in
  let result_title := lower (default EmptyString (lrc_trackName r)) in
  contains (replace "and" EmptyString (replace "&" EmptyString artist_clean))
           (replace "and" EmptyString (replace "&" EmptyString result_artist))
  && (contains title_clean result_title || contains result_title title_clean).

Fixpoint lrclib_pick (artist_clean title_clean : string) (rs : list lrc_entry)
  : option string :=
  match rs with
  | [] => None
  | r :: rs' =>
      if lrclib_match artist_clean title_clean r then
        match lrc_plainLyrics r with
        | Some lyrics =>
            if (20 <? String.length lyrics)%nat then Some lyrics
            else lrclib_pick artist_clean title_clean rs'
        | None => lrclib_pick artist_clean title_clean rs'
        end
      else lrclib_pick artist_clean title_clean rs'
  end.

Definition lyrics_ovh (reply : http (option string)) : option string :=
  match reply with
  | HttpReply code (Some lyrics) =>
      if (code =? 200)%Z && (10 <? String.length lyrics)%nat
      then nonempty (Some (strip lyrics))
      else None
  | _ => None
  end.

Definition lyrics_lrclib (artist_clean title_clean : string)
    (reply : http (list lrc_entry)) : option string :=
  match reply with
  | HttpReply code results =>
      if (code =? 200)%Z then lrclib_pick artist_clean title_clean results
      else None
  | HttpRaised _ => None
  end.

Definition get_song_lyrics (env : lyrics_env) (artist title : string)
  : option string :=
  let artist_clean :=
    strip (replace " feat." EmptyString
             (replace " ft." EmptyString (lower artist))) in
  let title_clean :=
    strip (replace " (live)" EmptyString
             (replace " - live" EmptyString (lower title))) in
  match lyrics_ovh (ovh_reply env) with
  | Some lyrics => Some lyrics
  | None => lyrics_lrclib artist_clean title_clean (lrclib_reply env)
  end.

(** ** Metadata enrichment: [enrich_metadata] *)

(** The parts of a MusicBrainz recording the code reads.  A field that the
    code reads with [.get] is an [option]; [trk_recording] is [None] when the
    track has no (or an empty) [recording], and otherwise holds the
    recording's [id] as [.get('id')] returns it. *)
Record mb_track := {
  trk_recording : option (option string);
  trk_number : option string;
  trk_length : option Z
}.

Record mb_release := {
  rel_title : option string;
  rel_id : option string;
  rel_media : list (list mb_track)      (* [media], each with its [tracks] *)
}.

Inductive mb_credit :=
| CreditDict (name : option string)
| CreditOther (repr : string).

Record mb_tag := { tag_name : option string; tag_count : option Z }.

Record mb_recording := {
  rec_id : option string;
  rec_title : option string;
  rec_artist_credit : list mb_credit;
  rec_releases : list mb_release;
  rec_tags : list mb_tag
}.

Record enrich_env := {
  mb_reply : http (list mb_recording);
  cover_reply : http (list image);
  lyrics_replies : lyrics_env
}.

Definition set_if_some (k : string) (o : option string) (d : pydict)
  : pydict :=
  match o with
  | Some s => <[k := VStr s]> d
  | None => d
  end.

Definition credit_name (c : mb_credit) : option string :=
  match c with
  | CreditDict name => nonempty (Some (default EmptyString name))
  | CreditOther repr => nonempty (Some repr)
  end.

(** [[tag['name'] for tag in tags if tag.get('count', 0) > 0]]: a selected
    tag without a name raises [KeyError]. *)
Fixpoint genre_tags (tags : list mb_tag) : result (list string) :=
  match tags with
  | [] => Ok []
  | tag :: tags' =>
      if (0 <? default 0 (tag_count tag))%Z then
        match tag_name tag with
        | Some n => names ← genre_tags tags'; Ok (n :: names)
        | None => Raise "'name'"
        end
      else genre_tags tags'
  end.

Definition track_matches (rid : option string) (t : mb_track) : bool :=
  match trk_recording t with
  | Some id => bool_decide (id = rid)
  | None => false
  end.

(** The loop over the tracks of one medium: it stops at the first track bound
    to the recording. *)
Definition scan_tracks (rid : option string) (d : pydict)
    (tracks : list mb_track) : pydict :=
  match List.find (track_matches rid) tracks with
  | Some t =>
      let d1 := set_if_some "track_number" (nonempty (trk_number t)) d in
      match trk_length t with
      | Some len => if (len =? 0)%Z then d1 else <["duration_ms" := VInt len]> d1
      | None => d1
      end
  | None => d
  end.

Definition merge_recording (env : enrich_env) (recording : mb_recording)
    (d : pydict) : result pydict :=
  let d := set_if_some "title" (nonempty (rec_title recording)) d in
  let d :=
    match rec_artist_credit recording with
    | artist_credit :: _ => set_if_some "artist" (credit_name artist_credit) d
    | [] => d
    end in
  let d :=
    match rec_releases recording with
    | release :: _ =>
        let d := set_if_some "album" (nonempty (rel_title release)) d in
        match nonempty (rel_id release) with
        | Some _ =>
            set_if_some "cover_url"
              (nonempty (get_album_cover_art (cover_reply env))) d
        | None => d
        end
    | [] => d
    end in
  names ← genre_tags (rec_tags recording);
  let d :=
    match names with
    | [] => d
    | _ => <["genre" := VStr (join ", " (take 3 names))]> d
    end in
  Ok (foldl (scan_tracks (rec_id recording)) d
        (concat (map rel_media (rec_releases recording)))).

(** The body of the [try] block. *)
Definition enrich_body (env : enrich_env) (song : pydict) : result pydict :=
  let enhanced_song := song in
  _ ← getitem song "artist" ≫= as_str "replace";
  _ ← getitem song "title" ≫= as_str "replace";
  match mb_reply env with
  | HttpRaised e => Raise e
  | HttpReply code recordings =>
      enhanced_song ←
        (if (code =? 200)%Z then
           match recordings with
           | recording :: _ => merge_recording env recording enhanced_song
           | [] => Ok enhanced_song
           end
         else Ok enhanced_song);
      artist ← getitem enhanced_song "artist" ≫= as_str "lower";
      title ← getitem enhanced_song "title" ≫= as_str "lower";
      match get_song_lyrics (lyrics_replies env) artist title with
      | Some lyrics => Ok (<["lyrics" := VStr lyrics]> enhanced_song)
      | None => Ok enhanced_song
      end
  end.

(** [except Exception: return song] *)
Definition enrich_metadata (env : enrich_env) (song : pydict) : pydict :=
  match enrich_body env song with
  | Ok enhanced_song => enhanced_song
  | Raise _ => song
  end.

(** ** Tag finalization: [fix_metadata] *)

(** What [subprocess.run(["ffmpeg", "-version"])] did. *)
Inductive ffmpeg_probe :=
| ProbeRan
| ProbeUnavailable            (* FileNotFoundError or TimeoutExpired *)
| ProbeRaised.                (* any other exception *)

(** What the tagging run of ffmpeg did. *)
Inductive ffmpeg_run :=
| FfmpegExit (returncode : Z)
| FfmpegTimeout
| FfmpegRaised.

Record tagging_env := {
  tag_file_exists : bool;     (* [os.path.exists(filepath)] on entry *)
  tag_probe : ffmpeg_probe;
  tag_run : ffmpeg_run;
  tag_replace_ok : bool       (* [os.replace(temp_path, filepath)] succeeds *)
}.

Definition dquote : string := String (ascii_of_nat 34) EmptyString.

Definition clean_tag (s : string) : string :=
  strip (replace "'" EmptyString (replace dquote EmptyString s)).

(** The artist, title and album handed to ffmpeg. *)
Definition metadata_tags (song : pydict) : result (string * string * string) :=
  artist ← getitem song "artist" ≫= as_str "replace";
  title ← getitem song "title" ≫= as_str "replace";
  album ← as_str "replace" (default (VStr "Downloaded Music") (song !! "album"));
  Ok (clean_tag artist, clean_tag title, clean_tag album).

Definition fix_metadata (env : tagging_env) (song : pydict) : bool :=
  if negb (tag_file_exists env) then false
  else
    match tag_probe env with
    | ProbeUnavailable => true      (* file is still valid without the fix *)
    | ProbeRaised => true           (* outer [except Exception] *)
    | ProbeRan =>
        match metadata_tags song with
        | Raise _ => true           (* outer [except Exception] *)
        | Ok _ =>
            match tag_run env with
            | FfmpegExit returncode =>
                if (returncode =? 0)%Z then tag_replace_ok env else false
            | FfmpegTimeout => true
            | FfmpegRaised => true
            end
        end
    end.

(** ** The acquisition ladder: [download_song_async] *)

(** [os.path.join(a, b)] on POSIX. *)
Definition ends_with_slash (a : string) : bool :=
  match String.length a with
  | O => false
  | S n => String.eqb (String.substring n 1 a) "/"
  end.

Definition path_join (a b : string) : string :=
  if String.prefix "/" b then b
  else if String.eqb a EmptyString || ends_with_slash a then a +:+ b
  else a +:+ "/" +:+ b.

(** What one run of yt-dlp did, as the code observes it: the process ended
    with a return code and its captured output, and the output file is then
    absent ([None]) or present with a size; or [subprocess.run] timed out; or
    something else in the [try] block raised. *)
Inductive ytdlp :=
| Exited (returncode : Z) (stdout stderr : string) (file : option Z)
| TimedOut
| Failed (e : string).

Record download_env := {
  dl_unexpected : option string;  (* an exception outside the [try] blocks *)
  dl_attempts : nat → ytdlp;      (* the i-th run of yt-dlp *)
  dl_enrich : enrich_env;
  dl_tagging : tagging_env
}.

(** The visible actions of one call, in order. *)
Inductive effect :=
| Invoke (query : string)         (* yt-dlp ... "ytsearch:{query}" *)
| RemoveOutput                    (* [os.remove(output_path)] *)
| Sleep (seconds : nat).          (* [asyncio.sleep] *)

#[export] Instance effect_eq_dec : EqDecision effect.
Proof. solve_decision. Defined.

(** The list [search_queries] built before the loop. *)
Definition search_queries (song : pydict) : result (list string) :=
  if truthy (dict_get song "query") then
    Ok [format (dict_get song "query")]
  else
    artist ← getitem song "artist" ≫= as_str "strip";
    title ← getitem song "title" ≫= as_str "strip";
    let artist_clean := strip artist in
    let title_clean := strip title in
    Ok [ artist_clean +:+ " " +:+ title_clean +:+ " official";
         artist_clean +:+ " " +:+ title_clean;
         title_clean +:+ " " +:+ artist_clean;
         artist_clean +:+ " " +:+ title_clean +:+ " audio";
         artist_clean +:+ " " +:+ title_clean +:+ " official audio lyrics" ].

(** The error text of a run that did not leave a file. *)
Definition detailed_error (returncode : Z) (stdout stderr : string) : string :=
  let error_msg :=
    if String.eqb stderr EmptyString then "Unknown error" else strip stderr in
  let stdout :=
    if String.eqb stdout EmptyString then "No output" else strip stdout in
  "yt-dlp failed (exit code: " +:+ str_of_Z returncode +:+ "): " +:+ error_msg
  +:+ (if String.eqb stdout EmptyString then EmptyString
       else " | stdout: " +:+ take_str 200 stdout +:+ "...").

Definition forbidden (stderr : string) : bool :=
  let error_msg :=
    if String.eqb stderr EmptyString then "Unknown error" else strip stderr in
  contains "403" error_msg || contains "Forbidden" error_msg.

(** An attempt succeeds when the process exits with 0 and leaves a non-empty
    output file. *)
Definition attempt_succeeds (r : ytdlp) : bool :=
  match r with
  | Exited returncode _ _ (Some file_size) =>
      (returncode =? 0)%Z && (0 <? file_size)%Z
  | _ => false
  end.

Definition log_then {A} (l : list effect) (r : list effect * A)
  : list effect * A :=
  (l ++ r.1, r.2).

(** The loop over [enumerate(search_queries)], from index [i], [n] being
    [len(search_queries)]. *)
Fixpoint try_queries (env : download_env) (song : pydict)
    (output_path : string) (n i : nat) (queries : list string)
    (last_error : string) : list effect * (bool * string) :=
  match queries with
  | [] =>
      ([], (false,
            "No suitable video found after trying " +:+ str_of_nat n
            +:+ " different search queries. Last error: " +:+ last_error))
  | query :: rest =>
      let pause := if (i <? n - 1)%nat then [Sleep 2] else [] in
      match dl_attempts env i with
      | Exited returncode stdout stderr file =>
          match (returncode =? 0)%Z, file with
          | true, Some file_size =>
              if (0 <? file_size)%Z then
                let enhanced_song := enrich_metadata (dl_enrich env) song in
                let metadata_success :=
                  fix_metadata (dl_tagging env) enhanced_song in
                ([Invoke query],
                 (metadata_success,
                  if metadata_success then output_path
                  else "Metadata fix failed"))
              else
                log_then ([Invoke query; RemoveOutput] ++ pause)
                  (try_queries env song output_path n (S i) rest last_error)
          | _, _ =>
              log_then
                ([Invoke query]
                 ++ (if forbidden stderr then [Sleep 5] else [])
                 ++ (if is_Some_dec file then [RemoveOutput] else [])
                 ++ pause)
                (try_queries env song output_path n (S i) rest
                   (detailed_error returncode stdout stderr))
          end
      | TimedOut =>
          log_then ([Invoke query] ++ pause)
            (try_queries env song output_path n (S i) rest
               "Download timeout (10 minutes)")
      | Failed e =>
          log_then ([Invoke query] ++ pause)
            (try_queries env song output_path n (S i) rest e)
      end
  end.

Definition download_song_async (env : download_env) (song : pydict)
    (output_dir : string) : result (list effect * (bool * string)) :=
  artist ← getitem song "artist";
  title ← getitem song "title";
  let filename := format artist +:+ " - " +:+ format title +:+ ".mp3" in
  let output_path := path_join output_dir filename in
  match dl_unexpected env with
  | Some e => Raise e
  | None =>
      search_queries ← search_queries song;
      Ok (try_queries env song output_path (length search_queries) 0
            search_queries "No search queries succeeded")
  end.

(** The queries handed to yt-dlp by a call, in order. *)
Definition invoked (log : list effect) : list string :=
  omap (fun e => match e with Invoke q => Some q | _ => None end) log.

(** ** The tracklist resolver: [get_album_tracks] *)

(** A track of the detailed release: [dt_recording] is [None] when the track
    has no [recording], and otherwise holds the recording's [title] ([None]
    when that key is missing, a [KeyError] in the source). *)
Record dir_track := {
  dt_recording : option (option string);
  dt_number : option string
}.

Record resolver_env := {
  search_reply : http (list (option string));   (* [releases], each its [id] *)
  detail_reply : http (list (list dir_track))   (* [media], each its [tracks] *)
}.

Definition upper_char (c : ascii) : ascii :=
  let n := nat_of_ascii c in
  if ((97 <=? n) && (n <=? 122))%nat then ascii_of_nat (n - 32) else c.

Definition is_letter (c : ascii) : bool :=
  let n := nat_of_ascii c in
  ((65 <=? n) && (n <=? 90) || (97 <=? n) && (n <=? 122))%nat.

(** [s.title()] on ASCII letters. *)
Fixpoint title_from (prev_cased : bool) (s : string) : string :=
  match s with
  | EmptyString => EmptyString
  | String c s' =>
      String (if prev_cased then lower_char c else upper_char c)
             (title_from (is_letter c) s')
  end.

Definition title_case (s : string) : string := title_from false s.

Definition track_info (track_title artist_clean album_clean query : string)
    (number : option value) : pydict :=
  let d : pydict :=
    <["title" := VStr track_title]>
      (<["artist" := VStr artist_clean]>
         (<["album" := VStr album_clean]>
            (<["query" := VStr query]> ∅))) in
  match number with
  | Some v => <["track_number" := v]> d
  | None => d
  end.

(** The tracks of the detailed release, in order. *)
Fixpoint directory_tracks (artist_clean album_clean : string)
    (tracks : list dir_track) : result (list pydict) :=
  match tracks with
  | [] => Ok []
  | track :: rest =>
      match dt_recording track with
      | Some (Some track_title) =>
          others ← directory_tracks artist_clean album_clean rest;
          Ok (track_info track_title artist_clean album_clean
                (artist_clean +:+ " " +:+ dquote +:+ track_title +:+ dquote
                 +:+ " song official audio")
                (Some (from_option VStr VNone (dt_number track)))
              :: others)
      | Some None => Raise "'title'"
      | None => directory_tracks artist_clean album_clean rest
      end
  end.

Definition album_prefixes : list string := ["track"; "song"].
Definition common_suffixes : list string :=
  [EmptyString; " (part 1)"; " (part 2)"].

Definition synthetic_track (artist_clean album_clean : string) (i : nat)
    (prefix suffix : string) : pydict :=
  track_info (title_case prefix +:+ " " +:+ str_of_nat i +:+ suffix)
    artist_clean album_clean
    (artist_clean +:+ " " +:+ dquote +:+ album_clean +:+ dquote +:+ " song "
     +:+ str_of_nat i +:+ " -individual track-")
    None.

(** The innermost loop, which breaks once twelve tracks are collected. *)
Fixpoint suffix_loop (mk : string → pydict) (suffixes : list string)
    (tracks : list pydict) : list pydict :=
  match suffixes with
  | [] => tracks
  | suffix :: rest =>
      let tracks := tracks ++ [mk suffix] in
      if (12 <=? length tracks)%nat then tracks
      else suffix_loop mk rest tracks
  end.

(** The loop over the prefixes has no [break] of its own. *)
Definition prefix_loop (mk : string → string → pydict)
    (tracks : list pydict) : list pydict :=
  foldl (fun tracks prefix => suffix_loop (mk prefix) common_suffixes tracks)
        tracks album_prefixes.

Fixpoint index_loop (mk : nat → string → string → pydict) (indexes : list nat)
    (tracks : list pydict) : list pydict :=
  match indexes with
  | [] => tracks
  | i :: rest =>
      let tracks := prefix_loop (mk i) tracks in
      if (12 <=? length tracks)%nat then tracks
      else index_loop mk rest tracks
  end.

Definition synthetic_tracks (artist_clean album_clean : string)
  : list pydict :=
  take 12 (index_loop (synthetic_track artist_clean album_clean)
             (seq 1 12) []).

(** The body of the [try] block. *)
Definition album_tracks_body (env : resolver_env) (artist album : string)
  : result (list pydict) :=
  let artist_clean := strip artist in
  let album_clean := strip album in
  found ←
    match search_reply env with
    | HttpRaised e => Raise e
    | HttpReply code releases =>
        if (code =? 200)%Z then
          match releases with
          | [] => Ok []
          | None :: _ => Raise "'id'"
          | Some release_id :: _ =>
              match detail_reply env with
              | HttpRaised e => Raise e
              | HttpReply detail_code media =>
                  if (detail_code =? 200)%Z then
                    directory_tracks artist_clean album_clean (concat media)
                  else Ok []
              end
          end
        else Ok []
    end;
  match found with
  | [] => Ok (synthetic_tracks artist_clean album_clean)
  | _ => Ok found
  end.

Definition whole_album (artist album : string) : pydict :=
  track_info album artist album
    (artist +:+ " " +:+ album +:+ " full album official") None.

Definition get_album_tracks (env : resolver_env) (artist album : string)
  : list pydict :=
  match album_tracks_body env artist album with
  | Ok tracks => tracks
  | Raise _ => [whole_album artist album]
  end.

(** The directory gave no tracklist and nothing raised: the reply is not a
    200, or lists no release, or the detailed release is not a 200 or has no
    track with a recording. *)
Definition no_directory_match (env : resolver_env) : Prop :=
  match search_reply env with
  | HttpRaised _ => False
  | HttpReply code releases =>
      code ≠ 200%Z ∨ releases = [] ∨
      ∃ release_id rest, releases = Some release_id :: rest ∧
        match detail_reply env with
        | HttpRaised _ => False
        | HttpReply detail_code media =>
            detail_code ≠ 200%Z ∨
            Forall (fun track => dt_recording track = None) (concat media)
        end
  end.

(** ** The job store: [download_status_db] *)

Inductive job_status :=
| starting
| searching_tracks
| downloading
| completed
| error
| cancelled.

#[export] Instance job_status_eq_dec : EqDecision job_status.
Proof. solve_decision. Defined.

(** The [status] of an entry of the song list of a job. *)
Inductive outcome_status := song_completed | song_failed | song_error.

#[export] Instance outcome_status_eq_dec : EqDecision outcome_status.
Proof. solve_decision. Defined.

(** An entry appended to [downloaded_songs]. *)
Record outcome := {
  out_title : value;
  out_artist : value;
  out_album : value;
  out_filepath : option string;
  out_error : option string;
  out_status : outcome_status
}.

(** The dictionary stored for a job: [status] and the keyword arguments of
    the call that stored it; a key that was not passed is [None].  (The
    [updated_at] time stamp is left out.) *)
Record job := {
  status : job_status;
  total_songs : option nat;
  completed_songs : option nat;
  failed_songs : option nat;
  progress : option Z;
  songs : option (list outcome);
  playlist_path : option string
}.

(** [update_download_status]: the entry is replaced as a whole. *)
Definition update_download_status (download_id : string) (record : job)
    (db : gmap string job) : gmap string job :=
  <[download_id := record]> db.

Definition get_download_status (download_id : string) (db : gmap string job)
  : option job :=
  db !! download_id.

Definition status_only (st : job_status) : job :=
  {| status := st; total_songs := None; completed_songs := None;
     failed_songs := None; progress := None; songs := None;
     playlist_path := None |}.

Definition cancellable (st : job_status) : bool :=
  match st with
  | starting | downloading => true
  | _ => false
  end.

Definition cancel_download_status (download_id : string)
    (db : gmap string job) : gmap string job * bool :=
  match get_download_status download_id db with
  | Some status_data =>
      if cancellable (status status_data)
      then (update_download_status download_id (status_only cancelled) db,
            true)
      else (db, false)
  | None => (db, false)
  end.

(** ** The job runner: [process_song_download] *)

(** [int(((i + 1) / n) * 100)] in binary64 arithmetic. *)
Definition float_of_Z (z : Z) : spec_float :=
  binary_normalize 53 1024 z 0 false.

(** [int(f)]: truncation toward zero (the code never reaches an infinity or
    a NaN, on which [int] raises). *)
Definition int_of_float (f : spec_float) : Z :=
  match f with
  | S754_finite s m e =>
      let magnitude :=
        match e with
        | Zneg k => (Zpos m / 2 ^ Zpos k)%Z
        | _ => (Zpos m * 2 ^ e)%Z
        end in
      if s then (- magnitude)%Z else magnitude
  | _ => 0%Z
  end.

Definition py_progress (i n : nat) : Z :=
  int_of_float
    (SFmul 53 1024
       (SFdiv 53 1024 (float_of_Z (Z.of_nat i + 1)) (float_of_Z (Z.of_nat n)))
       (float_of_Z 100)).

(** The points at which the runner is suspended while a song is processed,
    and at which a cancel request can be served. *)
Inductive suspension :=
| before_download     (* [asyncio.sleep(0.5)], single song *)
| during_download     (* [await download_song_async(...)] *)
| after_download      (* [asyncio.sleep(0.5)], single song, success *)
| between_songs.      (* [asyncio.sleep(2)], several songs *)

Record song_env := {
  cancel_at : suspension → bool;
  download : download_env
}.

Record runner_env := {
  song_envs : nat → song_env;
  playlist_error : option string   (* [create_m3u_playlist] raised *)
}.

(** What happens around one job, in order. *)
Inductive event :=
| Stored (record : job)           (* [download_status_db[download_id] = record] *)
| Acquired (i : nat) (log : list effect)   (* the call for song [i] returned *)
| CancelServed (accepted : bool). (* [cancel_download_status] returned *)

Record world := {
  db : gmap string job;
  trace : list event
}.

Definition store (download_id : string) (record : job) (w : world) : world :=
  {| db := update_download_status download_id record (db w);
     trace := trace w ++ [Stored record] |}.

Definition serve_cancel (download_id : string) (requested : bool)
    (w : world) : world :=
  if requested then
    let '(db', accepted) := cancel_download_status download_id (db w) in
    {| db := db';
       trace := trace w ++ [CancelServed accepted]
                ++ (if accepted then [Stored (status_only cancelled)]
                    else []) |}
  else w.

(** The local variables of the runner. *)
Record locals := {
  n_completed : nat;
  n_failed : nat;
  downloaded_songs : list outcome
}.

Definition in_progress (total n_ok n_ko : nat) (p : Z)
    (l : list outcome) (st : job_status) : job :=
  {| status := st; total_songs := Some total;
     completed_songs := Some n_ok; failed_songs := Some n_ko;
     progress := Some p; songs := Some l; playlist_path := None |}.

(** The outcome dictionary of a song: [song['title']] and [song['artist']]
    raise when missing, [song.get('album')] does not. *)
Definition outcome_of (song : pydict) (filepath error_ : option string)
    (st : outcome_status) : result outcome :=
  title ← getitem song "title";
  artist ← getitem song "artist";
  Ok {| out_title := title; out_artist := artist;
        out_album := dict_get song "album"; out_filepath := filepath;
        out_error := error_; out_status := st |}.

(** The status chosen after a song. *)
Definition status_after (total n_ok n_ko : nat) : job_status :=
  let total_processed := (n_ok + n_ko)%nat in
  if (total_processed <? total)%nat then downloading
  else if (0 <? n_ko)%nat then error
  else completed.

(** How the [try] block of one song ended, with the state reached. *)
Inductive attempt :=
| Passed (l : locals) (w : world)
| Raised (e : string) (l : locals) (w : world).

(** The body of the [try] block for the song of index [i]. *)
Definition process_song (download_id output_dir : string) (total i : nat)
    (env : song_env) (song : pydict) (l : locals) (w : world) : attempt :=
  let single := bool_decide (total = 1%nat) in
  let w :=
    if single then
      let w := store download_id (in_progress 1 0 0 10 [] downloading) w in
      let w := serve_cancel download_id (cancel_at env before_download) w in
      store download_id (in_progress 1 0 0 25 [] downloading) w
    else w in
  match download_song_async (download env) song output_dir with
  | Raise e =>
      Raised e l (serve_cancel download_id (cancel_at env during_download) w)
  | Ok (log, (success, result_msg)) =>
      let w :=
        {| db := db w; trace := trace w ++ [Acquired i log] |} in
      let w := serve_cancel download_id (cancel_at env during_download) w in
      let '(l, w, appended) :=
        if success then
          let w :=
            if single then
              let w :=
                store download_id (in_progress 1 0 0 75 [] downloading) w in
              serve_cancel download_id (cancel_at env after_download) w
            else w in
          ({| n_completed := S (n_completed l); n_failed := n_failed l;
              downloaded_songs := downloaded_songs l |}, w,
           outcome_of song (Some result_msg) None song_completed)
        else
          ({| n_completed := n_completed l; n_failed := S (n_failed l);
              downloaded_songs := downloaded_songs l |}, w,
           outcome_of song None (Some result_msg) song_failed) in
      match appended with
      | Raise e => Raised e l w
      | Ok o =>
          let l :=
            {| n_completed := n_completed l; n_failed := n_failed l;
               downloaded_songs := downloaded_songs l ++ [o] |} in
          let w :=
            store download_id
              (in_progress total (n_completed l) (n_failed l)
                 (py_progress i total) (downloaded_songs l)
                 (status_after total (n_completed l) (n_failed l))) w in
          let w :=
            if single then w
            else serve_cancel download_id (cancel_at env between_songs) w in
          Passed l w
      end
  end.

(** How the background task ended: its local variables, the store and the
    trace, and the exception that escaped it, if any. *)
Record run := {
  run_locals : locals;
  run_world : world;
  run_aborted : option string
}.

Definition count_failure (l : locals) : locals :=
  {| n_completed := n_completed l; n_failed := S (n_failed l);
     downloaded_songs := downloaded_songs l |}.

Definition append_outcome (o : outcome) (l : locals) : locals :=
  {| n_completed := n_completed l; n_failed := n_failed l;
     downloaded_songs := downloaded_songs l ++ [o] |}.

(** The loop [for i, song in enumerate(songs)], from index [i], with its
    [except Exception] handler. *)
Fixpoint run_songs (download_id output_dir : string) (total : nat)
    (envs : nat → song_env) (i : nat) (songs : list pydict) (l : locals)
    (w : world) : run :=
  match songs with
  | [] => {| run_locals := l; run_world := w; run_aborted := None |}
  | song :: rest =>
      match process_song download_id output_dir total i (envs i) song l w with
      | Passed l w =>
          run_songs download_id output_dir total envs (S i) rest l w
      | Raised e l w =>
          let l := count_failure l in
          match outcome_of song None (Some e) song_error with
          | Ok o =>
              run_songs download_id output_dir total envs (S i) rest
                (append_outcome o l) w
          | Raise e' =>
              {| run_locals := l; run_world := w; run_aborted := Some e' |}
          end
      end
  end.

Definition is_song_completed (o : outcome) : bool :=
  bool_decide (out_status o = song_completed).

(** The playlist step after the loop. *)
Definition attach_playlist (env : runner_env)
    (download_id output_dir : string) (total : nat) (l : locals) (w : world)
  : world :=
  if (1 <? total)%nat && (0 <? n_completed l)%nat then
    match List.filter is_song_completed (downloaded_songs l) with
    | [] => w
    | _ :: _ =>
        match playlist_error env with
        | Some _ => w
        | None =>
            store download_id
              {| status := completed; total_songs := None;
                 completed_songs := None; failed_songs := None;
                 progress := None; songs := Some (downloaded_songs l);
                 playlist_path :=
                   Some (path_join output_dir (download_id +:+ ".m3u")) |}
              w
        end
    end
  else w.

Definition process_song_download (env : runner_env)
    (output_dir download_id : string) (songs : list pydict) (w : world)
  : run :=
  let total := length songs in
  let w := store download_id (in_progress total 0 0 0 [] downloading) w in
  let r :=
    run_songs download_id output_dir total (song_envs env) 0 songs
      {| n_completed := 0; n_failed := 0; downloaded_songs := [] |} w in
  match run_aborted r with
  | Some _ => r
  | None =>
      {| run_locals := run_locals r;
         run_world :=
           attach_playlist env download_id output_dir total (run_locals r)
             (run_world r);
         run_aborted := None |}
  end.

(** ** The endpoints that create jobs *)

Record SongRequest := {
  req_title : string;
  req_artist : string;
  req_album : option string
}.

Definition song_dict (song : SongRequest) : pydict :=
  <["title" := VStr (strip (req_title song))]>
    (<["artist" := VStr (strip (req_artist song))]>
       (<["album" :=
            VStr (match nonempty (req_album song) with
                  | Some album => strip album
                  | None => "Unknown Album"
                  end)]>
          (<["query" :=
               VStr (strip (req_artist song) +:+ " " +:+ strip (req_title song)
                     +:+ " official audio lyrics")]> ∅))).

Definition empty_world : world := {| db := ∅; trace := [] |}.

(** [download_song_endpoint] followed by the background task it schedules;
    [cancel_first] says that a cancel request is served in between. *)
Definition download_song_endpoint (env : runner_env) (cancel_first : bool)
    (output_dir download_id : string) (song : SongRequest) (w : world) : run :=
  let w :=
    store download_id
      {| status := starting; total_songs := Some 1%nat;
         completed_songs := Some 0%nat; failed_songs := None;
         progress := None; songs := None; playlist_path := None |} w in
  let w := serve_cancel download_id cancel_first w in
  process_song_download env output_dir download_id [song_dict song] w.

(** [download_album_endpoint]: an HTTP error, or the background task. *)
Definition download_album_endpoint (renv : resolver_env) (env : runner_env)
    (cancel_first : bool) (output_dir download_id artist album : string)
    (w : world) : (Z * world) + run :=
  let w := store download_id (status_only searching_tracks) w in
  let tracks := get_album_tracks renv (strip artist) (strip album) in
  match tracks with
  | [] => inl (404%Z, w)
  | _ :: _ =>
      if (20 <? length tracks)%nat then inl (400%Z, w)
      else
        let w :=
          store download_id
            {| status := starting; total_songs := Some (length tracks);
               completed_songs := Some 0%nat; failed_songs := None;
               progress := None; songs := Some []; playlist_path := None |}
            w in
        let w := serve_cancel download_id cancel_first w in
        inr (process_song_download env output_dir download_id tracks w)
  end.

(** ** Reading a trace *)

(** The successive records stored for the job. *)
Definition snapshots (t : list event) : list job :=
  omap (fun e => match e with Stored record => Some record | _ => None end) t.

(** The indexes of the songs handed to yt-dlp, in order. *)
Definition acquisitions (t : list event) : list nat :=
  omap (fun e => match e with
                 | Acquired i (_ :: _) => Some i
                 | _ => None
                 end) t.

(** The queries handed to yt-dlp for the job, in order. *)
Definition job_queries (t : list event) : list string :=
  concat (omap (fun e => match e with
                         | Acquired _ log => Some (invoked log)
                         | _ => None
                         end) t).

(** The progress values of the successive records that carry one. *)
Definition progress_values (t : list event) : list Z :=
  omap progress (snapshots t).

Definition attempt_world (a : attempt) : world :=
  match a with
  | Passed _ w => w
  | Raised _ _ w => w
  end.

Definition attempt_locals (a : attempt) : locals :=
  match a with
  | Passed l _ => l
  | Raised _ l _ => l
  end.

(** ** Notions used in the statements *)

(** What the call returns once a run of yt-dlp left a non-empty file. *)
Definition metadata_result (env : download_env) (song : pydict)
    (output_path : string) : bool * string :=
  let metadata_success :=
    fix_metadata (dl_tagging env) (enrich_metadata (dl_enrich env) song) in
  (metadata_success,
   if metadata_success then output_path else "Metadata fix failed").

Definition output_path_of (output_dir : string) (artist title : value)
  : string :=
  path_join output_dir (format artist +:+ " - " +:+ format title +:+ ".mp3").

(** [k] queries out of [n] are attempted, the first at attempt index [i]:
    every attempt before the last one failed, and the ladder stops short of
    the end of the list only on a success. *)
Definition stops_at_first_success (env : download_env) (i k n : nat) : Prop :=
  k ≤ n ∧ (0 < n → 0 < k) ∧
  (∀ j, S j < k → attempt_succeeds (dl_attempts env (i + j)) = false) ∧
  (k < n → attempt_succeeds (dl_attempts env (i + k - 1)) = true).


(** The tags were written: ffmpeg was found, it ran on the downloaded file
    with the tags of the song, exited with 0, and the tagged file replaced
    the download. *)
Definition tags_applied (env : tagging_env) (song : pydict) : bool :=
  tag_file_exists env
  && match tag_probe env, metadata_tags song, tag_run env with
     | ProbeRan, Ok _, FfmpegExit returncode =>
         (returncode =? 0)%Z && tag_replace_ok env
     | _, _, _ => false
     end.

(** Tag finalization reports a failure: the file is missing, or ffmpeg ran
    and exited with another code than 0, or the tagged file could not
    replace the download. *)
Definition tagging_reports_failure (env : tagging_env) (song : pydict)
  : Prop :=
  tag_file_exists env = false ∨
  (tag_probe env = ProbeRan ∧ (∃ tags, metadata_tags song = Ok tags) ∧
   ((∃ returncode, tag_run env = FfmpegExit returncode ∧ returncode ≠ 0%Z) ∨
    (tag_run env = FfmpegExit 0 ∧ tag_replace_ok env = false))).

(** Sample replies, used to run the functions on concrete inputs. *)
Definition no_lyrics : lyrics_env :=
  {| ovh_reply := HttpReply 404 None; lrclib_reply := HttpReply 200 [] |}.

Definition no_enrichment : enrich_env :=
  {| mb_reply := HttpReply 503 []; cover_reply := HttpReply 404 [];
     lyrics_replies := no_lyrics |}.

Definition tagging_fine : tagging_env :=
  {| tag_file_exists := true; tag_probe := ProbeRan;
     tag_run := FfmpegExit 0; tag_replace_ok := true |}.

Definition ffmpeg_missing : tagging_env :=
  {| tag_file_exists := true; tag_probe := ProbeUnavailable;
     tag_run := FfmpegExit 0; tag_replace_ok := true |}.

Definition ffmpeg_fails : tagging_env :=
  {| tag_file_exists := true; tag_probe := ProbeRan;
     tag_run := FfmpegExit 1; tag_replace_ok := true |}.

(** yt-dlp leaves a file of 4 MB at every run. *)
Definition download_fine (tagging : tagging_env) : download_env :=
  {| dl_unexpected := None;
     dl_attempts := fun _ => Exited 0 EmptyString EmptyString (Some 4194304%Z);
     dl_enrich := no_enrichment; dl_tagging := tagging |}.

(** yt-dlp finds nothing at every run. *)
Definition download_nothing : download_env :=
  {| dl_unexpected := None;
     dl_attempts := fun _ =>
       Exited 1 EmptyString "ERROR: no video matched the filter" None;
     dl_enrich := no_enrichment; dl_tagging := tagging_fine |}.

(** The first run of yt-dlp leaves an empty file, the second one a file. *)
Definition download_second_try : download_env :=
  {| dl_unexpected := None;
     dl_attempts := fun i =>
       Exited 0 EmptyString EmptyString
         (Some (if Nat.eqb i 0 then 0%Z else 4194304%Z));
     dl_enrich := no_enrichment; dl_tagging := tagging_fine |}.

(** The call raises before it searches. *)
Definition download_raises : download_env :=
  {| dl_unexpected := Some "[Errno 5] Input/output error";
     dl_attempts := fun _ => TimedOut;
     dl_enrich := no_enrichment; dl_tagging := tagging_fine |}.

Definition bad_guy : SongRequest :=
  {| req_title := "bad guy"; req_artist := "Billie Eilish";
     req_album := None |}.

Definition get_lucky : pydict :=
  <["title" := VStr "Get Lucky"]> (<["artist" := VStr "Daft Punk"]> ∅).

(** A provider gave an error or no data. *)
Definition metadata_unavailable (reply : http (list mb_recording)) : Prop :=
  match reply with
  | HttpRaised _ => True
  | HttpReply code recordings => code ≠ 200%Z ∨ recordings = []
  end.

Definition lyrics_unavailable (env : lyrics_env) : Prop :=
  match ovh_reply env with
  | HttpRaised _ => True
  | HttpReply code body => code ≠ 200%Z ∨ body = None
  end ∧
  match lrclib_reply env with
  | HttpRaised _ => True
  | HttpReply code results => code ≠ 200%Z ∨ results = []
  end.

(** The keys that the enrichment may write. *)
Definition enrichment_keys : list string :=
  ["title"; "artist"; "album"; "cover_url"; "genre"; "track_number";
   "duration_ms"; "lyrics"].

(** MusicBrainz knows the recording, its release and its genre. *)
Definition known_recording : mb_recording :=
  {| rec_id := Some "r1"; rec_title := Some "Get Lucky";
     rec_artist_credit := [CreditDict (Some "Daft Punk")];
     rec_releases :=
       [{| rel_title := Some "Random Access Memories"; rel_id := Some "m1";
           rel_media :=
             [[{| trk_recording := Some (Some "r1"); trk_number := Some "8";
                  trk_length := Some 369000%Z |}]] |}];
     rec_tags := [{| tag_name := Some "disco"; tag_count := Some 3%Z |}] |}.

Definition partial_enrichment : enrich_env :=
  {| mb_reply := HttpReply 200 [known_recording];
     cover_reply := HttpRaised "timed out";
     lyrics_replies := no_lyrics |}.

(** The resolver hits an unexpected error: a request raises, the release has
    no [id], or a track of the release has a recording without a title. *)
Definition resolver_raises (env : resolver_env) : Prop :=
  match search_reply env with
  | HttpRaised _ => True
  | HttpReply code releases =>
      code = 200%Z ∧
      match releases with
      | [] => False
      | None :: _ => True
      | Some _ :: _ =>
          match detail_reply env with
          | HttpRaised _ => True
          | HttpReply detail_code media =>
              detail_code = 200%Z ∧
              Exists (fun track => dt_recording track = Some None)
                     (concat media)
          end
      end
  end.

Definition directory_down : resolver_env :=
  {| search_reply := HttpReply 503 []; detail_reply := HttpReply 503 [] |}.

Definition directory_unreachable : resolver_env :=
  {| search_reply := HttpRaised "Connection refused";
     detail_reply := HttpRaised "Connection refused" |}.

(** A song dictionary with the two mandatory keys. *)
Definition has_title_artist (song : pydict) : Prop :=
  is_Some (song !! "title") ∧ is_Some (song !! "artist").

(** The entry [o] of the song list records what the call for [song] did. *)
Definition records (song : pydict)
    (call : result (list effect * (bool * string))) (o : outcome) : Prop :=
  Some (out_title o) = song !! "title" ∧
  Some (out_artist o) = song !! "artist" ∧
  out_album o = dict_get song "album" ∧
  match call with
  | Ok (_, (true, path)) =>
      out_status o = song_completed ∧ out_filepath o = Some path
      ∧ out_error o = None
  | Ok (_, (false, message)) =>
      out_status o = song_failed ∧ out_filepath o = None
      ∧ out_error o = Some message
  | Raise e =>
      out_status o = song_error ∧ out_filepath o = None
      ∧ out_error o = Some e
  end.

Definition count_completed (l : list outcome) : nat :=
  length (List.filter is_song_completed l).

Definition count_not_completed (l : list outcome) : nat :=
  length (List.filter (fun o => negb (is_song_completed o)) l).

Definition quiet (d : download_env) : song_env :=
  {| cancel_at := fun _ => false; download := d |}.

(** Two songs of an album, as the resolver builds them. *)
Definition one_more_time : pydict :=
  track_info "One More Time" "Daft Punk" "Discovery"
    "Daft Punk One More Time song official audio" (Some (VStr "1")).

Definition aerodynamic : pydict :=
  track_info "Aerodynamic" "Daft Punk" "Discovery"
    "Daft Punk Aerodynamic song official audio" (Some (VStr "2")).

(** The call for the first song raises, the second song is downloaded. *)
Definition first_raises : runner_env :=
  {| song_envs := fun i =>
       quiet (if Nat.eqb i 0 then download_raises
              else download_fine tagging_fine);
     playlist_error := None |}.

(** The query that [download_song_endpoint] gives to a single song. *)
Definition single_query (request : SongRequest) : string :=
  strip (req_artist request) +:+ " " +:+ strip (req_title request)
  +:+ " official audio lyrics".

(** ** Progress across the records of a job *)

(** A list of progress values never goes down. *)
Definition nondecreasing (l : list Z) : Prop :=
  ∀ a b pa pb, a < b → l !! a = Some pa → l !! b = Some pb → (pa ≤ pb)%Z.

(** The number of outcomes and the progress of a record that lists at least
    one outcome and carries a progress. *)
Definition report (record : job) : option (nat * Z) :=
  match songs record, progress record with
  | Some (o :: l), Some p => Some (S (length l), p)
  | _, _ => None
  end.

Definition reports (t : list event) : list (nat * Z) :=
  omap report (snapshots t).

(** [py_progress] agrees with the integer quotient on every index of every
    job of at most [limit] songs. *)
Definition progress_exact_upto (limit : nat) : bool :=
  forallb (fun n =>
    forallb (fun i =>
      (py_progress i n =? (Z.of_nat i + 1) * 100 / Z.of_nat n)%Z)
      (seq 0 n))
    (seq 1 limit).

(** ** Timelines of sample jobs *)

(** A trace reduced to the status of each stored record, the songs handed to
    yt-dlp and the cancel requests served. *)
Inductive mark :=
| Status (st : job_status)
| Download (i : nat)
| Cancel (accepted : bool).

Definition mark_of (e : event) : mark :=
  match e with
  | Stored record => Status (status record)
  | Acquired i _ => Download i
  | CancelServed accepted => Cancel accepted
  end.

Definition timeline (t : list event) : list mark := map mark_of t.

(** The directory knows the album and its two tracks. *)
Definition directory_two_tracks : resolver_env :=
  {| search_reply := HttpReply 200 [Some "m1"];
     detail_reply :=
       HttpReply 200
         [[ {| dt_recording := Some (Some "One More Time");
               dt_number := Some "1" |};
            {| dt_recording := Some (Some "Aerodynamic");
               dt_number := Some "2" |} ]] |}.

(** Both songs are downloaded and nobody cancels. *)
Definition both_fine : runner_env :=
  {| song_envs := fun _ => quiet (download_fine tagging_fine);
     playlist_error := None |}.

(** Both songs are downloaded; a cancel request is served during the pause
    that follows the first song. *)
Definition cancel_after_first : runner_env :=
  {| song_envs := fun i =>
       {| cancel_at := fun s =>
            match s with
            | between_songs => Nat.eqb i 0
            | _ => false
            end;
          download := download_fine tagging_fine |};
     playlist_error := None |}.

(** The first song is downloaded, nothing is found for the second. *)
Definition second_fails : runner_env :=
  {| song_envs := fun i =>
       quiet (if Nat.eqb i 0 then download_fine tagging_fine
              else download_nothing);
     playlist_error := None |}.

(** The call for the only song raises. *)
Definition only_song_raises : runner_env :=
  {| song_envs := fun _ => quiet download_raises; playlist_error := None |}.

Definition discovery (env : runner_env) : (Z * world) + run :=
  download_album_endpoint directory_two_tracks env false "downloaded_music"
    "job-1" "Daft Punk" "Discovery" empty_world.

(** The record of the job at the end of a request. *)
Definition final_record (r : (Z * world) + run) : option job :=
  match r with
  | inl (_, w) => get_download_status "job-1" (db w)
  | inr r => get_download_status "job-1" (db (run_world r))
  end.

Definition final_timeline (r : (Z * world) + run) : list mark :=
  match r with
  | inl (_, w) => timeline (trace w)
  | inr r => timeline (trace (run_world r))
  end.

(** ** The endpoints that read and cancel jobs *)

(** What an endpoint answers: the value it returns, or the [HTTPException]
    it raises. *)
Inductive response (A : Type) :=
| Returned (a : A)
| HTTPException (status_code : Z) (detail : string).
Arguments Returned {A} a.
Arguments HTTPException {A} status_code detail.

Definition status_name (st : job_status) : string :=
  match st with
  | starting => "starting"
  | searching_tracks => "searching_tracks"
  | downloading => "downloading"
  | completed => "completed"
  | error => "error"
  | cancelled => "cancelled"
  end.

(** The model [StatusResponse]: the keys of the stored record that are not
    fields of the model are dropped. *)
Record StatusResponse := {
  sr_download_id : string;
  sr_status : string;
  sr_progress : option Z;
  sr_total_songs : option nat;
  sr_completed_songs : option nat;
  sr_songs : option (list outcome);
  sr_error : option string
}.

Definition get_download_status_endpoint (download_id : string)
    (db : gmap string job) : response StatusResponse :=
  match get_download_status download_id db with
  | None => HTTPException 404 "Download not found"
  | Some status_data =>
      Returned
        {| sr_download_id := download_id;
           sr_status := status_name (status status_data);
           sr_progress := progress status_data;
           sr_total_songs := total_songs status_data;
           sr_completed_songs := completed_songs status_data;
           sr_songs := songs status_data;
           sr_error := None |}
  end.

Definition cancel_download_endpoint (download_id : string)
    (db : gmap string job) : gmap string job * response string :=
  let '(db', accepted) := cancel_download_status download_id db in
  if accepted then
    (db', Returned ("Download " +:+ download_id +:+ " cancelled successfully"))
  else
    match get_download_status download_id db' with
    | Some status_data =>
        (db',
         HTTPException 400
           ("Cannot cancel download in status '"
            +:+ status_name (status status_data)
            +:+ "'. Only starting/downloading downloads can be cancelled."))
    | None => (db', HTTPException 404 "Download not found")
    end.

Definition get_playlist_endpoint (download_id : string)
    (db : gmap string job) : response string :=
  match get_download_status download_id db with
  | None => HTTPException 404 "Download not found"
  | Some status_data =>
      if bool_decide (status status_data = completed) then
        if length (default [] (songs status_data)) <=? 1 then
          HTTPException 400
            "No album playlist available (single song download)"
        else Returned ("/static/playlists/" +:+ download_id +:+ ".m3u")
      else HTTPException 400 "Download not completed yet"
  end.

(** A record that carries the three counters agrees with itself: the song
    list is there, the counters count its entries, and the status is the
    one of a job at that point. *)
Definition record_consistent (total : nat) (record : job) : Prop :=
  ∀ t c f,
    total_songs record = Some t →
    completed_songs record = Some c →
    failed_songs record = Some f →
    ∃ l, songs record = Some l ∧
         t = total ∧
         c = count_completed l ∧ f = count_not_completed l ∧
         c + f = length l ∧ c + f ≤ t ∧
         (status record = downloading ↔ c + f < t) ∧
         (status record = completed ↔ c + f = t ∧ f = 0) ∧
         (status record = error ↔ c + f = t ∧ 0 < f).

(** The record stored after a song. *)
Definition record_after (total i : nat) (l : locals) (o : outcome) : job :=
  let n_ok :=
    if is_song_completed o then S (n_completed l) else n_completed l in
  let n_ko := if is_song_completed o then n_failed l else S (n_failed l) in
  in_progress total n_ok n_ko (py_progress i total)
    (downloaded_songs l ++ [o]) (status_after total n_ok n_ko).

(** The local variables after the outcome [o] of a song is counted and
    appended. *)
Definition locals_after (l : locals) (o : outcome) : locals :=
  {| n_completed :=
       (if is_song_completed o then S (n_completed l) else n_completed l);
     n_failed := (if is_song_completed o then n_failed l else S (n_failed l));
     downloaded_songs := downloaded_songs l ++ [o] |}.

(** The record of the job cannot be served as a playlist: it is not
    completed, or it lists at most one song. *)
Definition no_playlist (download_id : string) (w : world) : Prop :=
  ∃ record, db w !! download_id = Some record ∧
            (status record ≠ completed
             ∨ length (default [] (songs record)) ≤ 1).

(** ** Measures of a call of the ladder *)

(** The seconds slept during a call. *)
Definition total_sleep (log : list effect) : nat :=
  foldr (fun e acc => match e with Sleep s => s + acc | _ => acc end) 0 log.

(** The run ended in the error branch with a text that mentions 403 or
    Forbidden. *)
Definition forbidden_failure (r : ytdlp) : bool :=
  match r with
  | Exited returncode _ stderr file =>
      negb ((returncode =? 0)%Z && bool_decide (is_Some file))
      && forbidden stderr
  | _ => false
  end.

(** The error text that a failed run leaves in [last_error]; a run that
    leaves an empty file leaves none. *)
Definition attempt_error (r : ytdlp) : option string :=
  match r with
  | Exited returncode stdout stderr file =>
      if (returncode =? 0)%Z && bool_decide (is_Some file) then None
      else Some (detailed_error returncode stdout stderr)
  | TimedOut => Some "Download timeout (10 minutes)"
  | Failed e => Some e
  end.

(** The message of a single-query call for which yt-dlp found nothing. *)
Definition nothing_found_message : string :=
  "No suitable video found after trying 1 different search queries. Last error: yt-dlp failed (exit code: 1): ERROR: no video matched the filter | stdout: No output...".

(** ** Characters of a string *)

(** The character [c] occurs in [s]. *)
Fixpoint occurs (c : ascii) (s : string) : bool :=
  match s with
  | EmptyString => false
  | String a s' => Ascii.eqb a c || occurs c s'
  end.

Definition squote_char : ascii := ascii_of_nat 39.
Definition dquote_char : ascii := ascii_of_nat 34.

(** [py_progress] grows with the index and reaches 100 at the last index
    only, for every job of at most [limit] songs. *)
Definition progress_steps_upto (limit : nat) : bool :=
  forallb (fun n =>
    forallb (fun i =>
      (0 <? py_progress i n)%Z && (py_progress i n <=? 100)%Z
      && bool_decide (py_progress i n = 100%Z ↔ S i = n)
      && (if S i <? n then (py_progress i n <? py_progress (S i) n)%Z
          else true))
      (seq 0 n))
    (seq 1 limit).

(** ** The playlist emitter: [create_m3u_playlist] *)

Definition newline : string := String (ascii_of_nat 10) EmptyString.

(** The file name that the playlist gives to a song. *)
Definition m3u_filename (song : outcome) : string :=
  format (out_artist song) +:+ " - " +:+ format (out_title song) +:+ ".mp3".

(** The lines written, each followed by a line feed in the file. *)
Definition m3u_lines (songs : list outcome) : list string :=
  ["#EXTM3U"; "#PLAYLIST:Tunes4R Download Service"]
  ++ flat_map (fun song =>
       [ "#EXTINF:240," +:+ format (out_artist song) +:+ " - "
         +:+ format (out_title song);
         m3u_filename song ]) songs.

(** The path returned and the text written. *)
Definition create_m3u_playlist (songs : list outcome)
    (output_dir filename : string) : string * string :=
  (path_join output_dir filename,
   foldr (fun line text => line +:+ newline +:+ text) EmptyString
     (m3u_lines songs)).

(** The playlist that the runner writes after the loop, if it writes one. *)
Definition playlist_written (env : runner_env)
    (download_id output_dir : string) (total : nat) (l : locals)
  : option (string * string) :=
  if (1 <? total) && (0 <? n_completed l) then
    match List.filter is_song_completed (downloaded_songs l) with
    | [] => None
    | successful_songs =>
        match playlist_error env with
        | Some _ => None
        | None =>
            Some (create_m3u_playlist successful_songs output_dir
                    (download_id +:+ ".m3u"))
        end
    end
  else None.

(** ** Video identifiers: [extract_youtube_video_id] *)

(** [[a-zA-Z0-9_-]] *)
Definition is_id_char (c : ascii) : bool :=
  let n := nat_of_ascii c in
  ((97 <=? n) && (n <=? 122) || (65 <=? n) && (n <=? 90)
   || (48 <=? n) && (n <=? 57) || (n =? 95) || (n =? 45))%nat.

(** [s] without its prefix [p], when it has it. *)
Fixpoint strip_prefix (p s : string) : option string :=
  match p with
  | EmptyString => Some s
  | String a p' =>
      match s with
      | String b s' => if Ascii.eqb a b then strip_prefix p' s' else None
      | EmptyString => None
      end
  end.

(** [([a-zA-Z0-9_-]{n})] matched at the head of [s]: the group. *)
Fixpoint take_id (n : nat) (s : string) : option string :=
  match n with
  | O => Some EmptyString
  | S n' =>
      match s with
      | String c s' =>
          if is_id_char c then String c <$> take_id n' s' else None
      | EmptyString => None
      end
  end.

(** A pattern of the source: optional groups, each a choice of literals in
    the order in which the regular expression tries them, then a literal,
    then the group of eleven characters. *)
Record url_pattern := {
  optional_groups : list (list string);
  literal : string
}.

#[global] Instance url_pattern_eq_dec : EqDecision url_pattern.
Proof. solve_decision. Defined.

Definition first_some {A B} (f : A → option B) (l : list A) : option B :=
  foldr (fun a rest => match f a with Some b => Some b | None => rest end)
        None l.

(** The pattern matched at the head of [s]: an optional group is tried
    before it is skipped. *)
Fixpoint match_here (groups : list (list string)) (lit : string) (s : string)
  : option string :=
  match groups with
  | [] => strip_prefix lit s ≫= take_id 11
  | alternatives :: more =>
      match first_some (fun alt => strip_prefix alt s ≫= match_here more lit)
              alternatives with
      | Some video_id => Some video_id
      | None => match_here more lit s
      end
  end.

(** [re.search]: the match that starts leftmost. *)
Fixpoint re_search (m : string → option string) (s : string) : option string :=
  match m s with
  | Some r => Some r
  | None =>
      match s with
      | EmptyString => None
      | String _ s' => re_search m s'
      end
  end.

Definition scheme : list string := ["https://"; "http://"].

Definition patterns : list url_pattern :=
  [ {| optional_groups := [scheme; ["www."]];
       literal := "youtube.com/watch?v=" |};
    {| optional_groups := [scheme]; literal := "youtu.be/" |};
    {| optional_groups := [scheme; ["www."]];
       literal := "youtube.com/embed/" |};
    {| optional_groups := [scheme; ["www."]];
       literal := "youtube.com/v/" |} ].

Definition extract_youtube_video_id (url : string) : option string :=
  first_some (fun pattern =>
                re_search (match_here (optional_groups pattern)
                             (literal pattern)) (strip url))
             patterns.

(** Every character of [s] satisfies [P]. *)
Fixpoint all_chars (P : ascii → bool) (s : string) : bool :=
  match s with
  | EmptyString => true
  | String c s' => P c && all_chars P s'
  end.

(** ** Song search: [search_youtube_songs], [search_songs_endpoint] *)

(** What the run of yt-dlp for a search did: it ended with a return code and
    its captured output, it timed out, the program was not found, or
    [subprocess.run] raised something else (which the function does not
    catch). *)
Inductive search_run :=
| SearchExited (returncode : Z) (stdout stderr : string)
| SearchTimedOut
| SearchNotFound
| SearchRaised (e : string).

(** [run_search] answers the command line; [json_loads] is [json.loads] on a
    line that starts with a brace: the decoded object ([None] stands for
    [JSONDecodeError]), whose fields are read as strings, integers or
    [null]. *)
Record search_env := {
  run_search : list string → search_run;
  json_loads : string → option pydict
}.

(** [s.split('\n')] *)
Fixpoint split_lines (s : string) : list string :=
  match s with
  | EmptyString => [EmptyString]
  | String c s' =>
      if Ascii.eqb c (ascii_of_nat 10) then EmptyString :: split_lines s'
      else match split_lines s' with
           | line :: lines => String c line :: lines
           | [] => [String c EmptyString]
           end
  end.

(** [s.split(sep, 1)] when [sep] occurs in [s]: the text before and after
    its first occurrence. *)
Fixpoint split_once (sep s : string) : option (string * string) :=
  if String.prefix sep s
  then Some (EmptyString,
             String.substring (String.length sep)
               (String.length s - String.length sep) s)
  else match s with
       | EmptyString => None
       | String c s' =>
           match split_once sep s' with
           | Some (before, after) => Some (String c before, after)
           | None => None
           end
       end.

(** [l[:k]] *)
Definition slice_to {A} (k : Z) (l : list A) : list A :=
  if (0 <=? k)%Z then take (Z.to_nat k) l
  else take (length l - Z.to_nat (- k)) l.

(** [data.get(k, d)] *)
Definition get_default (data : pydict) (k : string) (d : value) : value :=
  default d (data !! k).

Definition search_command (video_id : option string) (query : string)
    (max_results : Z) : list string :=
  match video_id with
  | Some video_id =>
      [ "yt-dlp"; "--print-json"; "--no-download"; "--skip-download";
        "https://www.youtube.com/watch?v=" +:+ video_id;
        "--match-filter"; "!is_live & duration < 1800" ]
  | None =>
      [ "yt-dlp"; "--flat-playlist"; "--print-json"; "--no-download";
        "--skip-download";
        "ytsearch" +:+ str_of_Z max_results +:+ ":" +:+ query
          +:+ " official audio";
        "--match-filter"; "!is_live & duration < 1800" ]
  end.

Definition title_keywords : list string :=
  ["official"; "audio"; "music video"; "lyrics"].

(** The artist and the title read from a video title "artist - title", when
    the part before the dash names none of the keywords. *)
Definition parse_title (title : string) : option (string * string) :=
  match split_once " - " title with
  | Some (before, after) =>
      let potential_artist := strip before in
      let song_title := strip after in
      if existsb (fun keyword => contains keyword (lower potential_artist))
           title_keywords
      then None
      else Some (potential_artist, song_title)
  | None => None
  end.

(** [f"{seconds:02d}"] for a number between 0 and 59 *)
Definition two_digits (n : Z) : string :=
  if (n <? 10)%Z then "0" +:+ str_of_Z n else str_of_Z n.

(** The entry built from one decoded line.  [' - ' in title] and
    [duration_seconds // 60] raise a [TypeError] on a value of the wrong
    type. *)
Definition result_info (data : pydict) : result pydict :=
  let video := get_default data "id" (VStr EmptyString) in
  let info : pydict :=
    <["title" := get_default data "title" (VStr "Unknown")]>
    (<["artist" := VStr "Unknown Artist"]>
    (<["duration" := VStr "0:00"]>
    (<["video_id" := video]>
    (<["thumbnail_url" :=
         VStr ("https://img.youtube.com/vi/" +:+ format video
               +:+ "/default.jpg")]>
    (<["uploader" := get_default data "uploader" (VStr "Unknown")]>
    (<["view_count" := get_default data "view_count" (VInt 0)]>
    (<["upload_date" := get_default data "upload_date" (VStr EmptyString)]>
    (<["duration_seconds" := get_default data "duration" (VInt 0)]> ∅))))))))
  in
  info ←
    match get_default data "title" (VStr "Unknown") with
    | VStr title =>
        match parse_title title with
        | Some (artist, song_title) =>
            Ok (<["title" := VStr song_title]>
                (<["artist" := VStr artist]> info))
        | None => Ok info
        end
    | VInt _ => Raise "argument of type 'int' is not iterable"
    | VNone => Raise "argument of type 'NoneType' is not iterable"
    end;
  let duration_seconds := get_default data "duration" (VInt 0) in
  if truthy duration_seconds then
    match duration_seconds with
    | VInt d =>
        Ok (<["duration" :=
                VStr (str_of_Z (d / 60) +:+ ":" +:+ two_digits (d mod 60))]>
            info)
    | _ => Raise "unsupported operand type(s) for //: 'str' and 'int'"
    end
  else Ok info.

(** The loop over the lines of the output. *)
Fixpoint parse_lines (env : search_env) (lines : list string)
  : result (list pydict) :=
  match lines with
  | [] => Ok []
  | line :: rest =>
      let line := strip line in
      if negb (String.eqb line EmptyString) && String.prefix "{" line then
        match json_loads env line with
        | Some data =>
            info ← result_info data;
            results ← parse_lines env rest;
            Ok (info :: results)
        | None => parse_lines env rest
        end
      else parse_lines env rest
  end.

Definition search_youtube_songs (env : search_env) (query : string)
    (max_results : Z) : result (list pydict) :=
  let video_id := extract_youtube_video_id query in
  match run_search env (search_command video_id query max_results) with
  | SearchExited returncode stdout stderr =>
      if (returncode =? 0)%Z then
        results ← parse_lines env (split_lines (strip stdout));
        match video_id with
        | Some _ => Ok (slice_to 1 results)
        | None => Ok (slice_to max_results results)
        end
      else Ok []
  | SearchTimedOut => Ok []
  | SearchNotFound => Ok []
  | SearchRaised e => Raise e
  end.

Record SearchResponse := {
  search_query : string;
  search_results : list pydict
}.

Definition search_songs_endpoint (env : search_env) (q : string) (limit : Z)
  : result (response SearchResponse) :=
  if String.eqb q EmptyString || (String.length (strip q) =? 0) then
    Ok (HTTPException 400 "Query parameter is required")
  else
    results ← search_youtube_songs env (strip q) (Z.min limit 20);
    Ok (Returned {| search_query := strip q; search_results := results |}).

(** A search whose output has three lines: an entry, a line that is not
    JSON and an entry without a dash in its title. *)
Definition three_lines : search_env :=
  {| run_search := fun _ =>
       SearchExited 0
         ("{1}" +:+ newline +:+ "WARNING: slow" +:+ newline +:+ "{2}"
          +:+ newline) EmptyString;
     json_loads := fun line =>
       if String.eqb line "{1}"
       then Some (<["title" := VStr "Daft Punk - Get Lucky (Official Audio)"]>
                  (<["id" := VStr "5NV6Rdv1a3I"]>
                  (<["duration" := VInt 248]> ∅)))
       else if String.eqb line "{2}"
       then Some (<["title" := VStr "Get Lucky"]> ∅)
       else None |}.

(** The fields of an entry of the song search. *)
Definition result_fields : gset string :=
  {[ "title"; "artist"; "duration"; "video_id"; "thumbnail_url"; "uploader";
     "view_count"; "upload_date"; "duration_seconds" ]}.

(** ** Album search: [search_musicbrainz_albums],
       [get_album_tracks_from_release], [search_albums_endpoint] *)

(** A release of the search reply, as the code reads it: the names of its
    artist credits, and the fields read with [.get]. *)
Record found_release := {
  fr_artist_credit : list (option string);
  fr_title : option string;
  fr_date : option string;
  fr_track_count : option Z;
  fr_country : option string;
  fr_id : option string
}.

(** A track of the detailed reply: [None] when it has no (or an empty)
    [recording], and otherwise the recording's [title] ([None] when the key
    is missing, a [KeyError] in the source). *)
Record detail_track := { rt_recording : option (option string) }.

(** An artist credit of the detailed reply: its [name] and the [name] of its
    [artist] object. *)
Record detail_credit := {
  dc_name : option string;
  dc_artist_name : option string
}.

Record release_detail := {
  rd_media : list (list detail_track);
  rd_artist_credit : list detail_credit;
  rd_title : option string
}.

Record album_env := {
  mb_search : string → Z → http (list found_release);
  mb_detail : string → http release_detail;
  mb_cover : string → http (list image)
}.

Record track_entry := {
  te_title : string;
  te_artist : string;
  te_album : string
}.

(** The artist that every track of a release is given. *)
Definition release_artist (data : release_detail) : string :=
  match rd_artist_credit data with
  | credit :: _ =>
      default (default "Unknown Artist" (dc_artist_name credit))
              (dc_name credit)
  | [] => "Unknown Artist"
  end.

(** The loop over the tracks of the media, in order. *)
Fixpoint release_tracks (data : release_detail) (tracks : list detail_track)
  : result (list track_entry) :=
  match tracks with
  | [] => Ok []
  | track :: rest =>
      match rt_recording track with
      | Some recording =>
          match recording with
          | Some title =>
              let track_info :=
                {| te_title := title;
                   te_artist := release_artist data;
                   te_album := default "Unknown Album" (rd_title data) |} in
              more ← release_tracks data rest;
              Ok (track_info :: more)
          | None => Raise "'title'"
          end
      | None => release_tracks data rest
      end
  end.

Definition get_album_tracks_from_release (env : album_env)
    (release_id : string) : list track_entry :=
  match mb_detail env release_id with
  | HttpRaised _ => []
  | HttpReply code data =>
      if (code =? 200)%Z then
        match release_tracks data (concat (rd_media data)) with
        | Ok tracks => tracks
        | Raise _ => []
        end
      else []
  end.

(** The dictionary [album_info]; [ai_tracks] is [None] while the key
    [tracks] is absent. *)
Record album_info := {
  ai_artist : string;
  ai_album : string;
  ai_release_year : option string;
  ai_track_count : Z;
  ai_country : option string;
  ai_release_id : string;
  ai_tracks : option (list track_entry);
  ai_cover_url : option string
}.

Definition album_info_of (env : album_env) (release : found_release)
  : album_info :=
  let artist :=
    match fr_artist_credit release with
    | credit :: _ => default "Unknown Artist" credit
    | [] => "Unknown Artist"
    end in
  let album := default "Unknown Album" (fr_title release) in
  let release_year := take_str 4 <$> nonempty (fr_date release) in
  let release_id := default EmptyString (fr_id release) in
  if String.eqb release_id EmptyString then
    {| ai_artist := artist; ai_album := album;
       ai_release_year := release_year;
       ai_track_count := default 0%Z (fr_track_count release);
       ai_country := fr_country release;
       ai_release_id := release_id;
       ai_tracks := None; ai_cover_url := None |}
  else
    let tracks := get_album_tracks_from_release env release_id in
    {| ai_artist := artist; ai_album := album;
       ai_release_year := release_year;
       ai_track_count := Z.of_nat (length tracks);
       ai_country := fr_country release;
       ai_release_id := release_id;
       ai_tracks := Some tracks;
       ai_cover_url := get_album_cover_art (mb_cover env release_id) |}.

Definition search_musicbrainz_albums (env : album_env) (query : string)
    (max_results : Z) : list album_info :=
  match mb_search env query max_results with
  | HttpRaised _ => []
  | HttpReply code releases =>
      if (code =? 200)%Z then map (album_info_of env) releases else []
  end.

Record AlbumSearchResponse := {
  asr_query : string;
  asr_artist : string;
  asr_album : string;
  asr_track_count : Z;
  asr_tracks : list track_entry;
  asr_release_year : option string;
  asr_cover_url : option string
}.

(** The loop that builds the response: [album['tracks']] raises a
    [KeyError] when the key is absent. *)
Fixpoint album_responses (query : string) (albums : list album_info)
  : result (list AlbumSearchResponse) :=
  match albums with
  | [] => Ok []
  | album :: rest =>
      match ai_tracks album with
      | Some tracks =>
          more ← album_responses query rest;
          Ok ({| asr_query := query;
                 asr_artist := ai_artist album;
                 asr_album := ai_album album;
                 asr_track_count := ai_track_count album;
                 asr_tracks := tracks;
                 asr_release_year := ai_release_year album;
                 asr_cover_url := ai_cover_url album |} :: more)
      | None => Raise "'tracks'"
      end
  end.

Definition search_albums_endpoint (env : album_env) (q : string) (limit : Z)
  : result (response (list AlbumSearchResponse)) :=
  if String.eqb q EmptyString || (String.length (strip q) =? 0) then
    Ok (HTTPException 400 "Query parameter is required")
  else
    response ← album_responses (strip q)
                 (search_musicbrainz_albums env (strip q) (Z.min limit 10));
    Ok (Returned response).

(** The release has an identifier that is not empty. *)
Definition has_id (release : found_release) : bool :=
  negb (String.eqb (default EmptyString (fr_id release)) EmptyString).

(** All the tracks carry the same artist and album. *)
Definition same_credits (tracks : list track_entry) : Prop :=
  ∀ t u, t ∈ tracks → u ∈ tracks →
         te_artist t = te_artist u ∧ te_album t = te_album u.

(** A directory with one release, "Discovery", of two tracks; a second
    release comes without an identifier in [nameless]. *)
Definition discovery_release : found_release :=
  {| fr_artist_credit := [Some "Daft Punk"]; fr_title := Some "Discovery";
     fr_date := Some "2001-03-12"; fr_track_count := Some 14%Z;
     fr_country := Some "FR"; fr_id := Some "rel-1" |}.

Definition discovery_detail : release_detail :=
  {| rd_media := [[ {| rt_recording := Some (Some "One More Time") |};
                    {| rt_recording := None |};
                    {| rt_recording := Some (Some "Aerodynamic") |} ]];
     rd_artist_credit := [{| dc_name := Some "Daft Punk";
                             dc_artist_name := Some "Daft Punk" |}];
     rd_title := Some "Discovery" |}.

Definition one_album : album_env :=
  {| mb_search := fun _ _ => HttpReply 200 [discovery_release];
     mb_detail := fun _ => HttpReply 200 discovery_detail;
     mb_cover := fun _ => HttpReply 404 [] |}.

Definition nameless : album_env :=
  {| mb_search := fun _ _ =>
       HttpReply 200
         [discovery_release;
          {| fr_artist_credit := []; fr_title := Some "Untitled";
             fr_date := None; fr_track_count := None; fr_country := None;
             fr_id := None |}];
     mb_detail := fun _ => HttpReply 200 discovery_detail;
     mb_cover := fun _ => HttpReply 404 [] |}.

(** * The test script [src/download_songs.py] *)

Module Script.

(** An entry of the list [songs]: a dictionary with the keys [title],
    [artist] and [query]. *)
Record song := { title : string; artist : string; query : string }.

(** The list of the module. *)
Definition songs : list song :=
  [ {| title := "bad guy"; artist := "Billie Eilish";
       query := "Billie Eilish bad guy official audio" |};
    {| title := "Get Lucky"; artist := "Daft Punk";
       query := "Daft Punk Get Lucky official audio" |};
    {| title := "The Less I Know The Better"; artist := "Tame Impala";
       query := "Tame Impala The Less I Know The Better official audio" |};
    {| title := "SICKO MODE"; artist := "Travis Scott";
       query := "Travis Scott SICKO MODE official audio" |};
    {| title := "Thunder"; artist := "Imagine Dragons";
       query := "Imagine Dragons Thunder official audio" |} ].

(** What [subprocess.run] did. *)
Inductive run :=
| Exit (returncode : Z)
| Timeout
| Raised.

#[global] Instance run_eq_dec : EqDecision run.
Proof. solve_decision. Defined.

(** What the outside world answers while one song is handled. *)
Record answers := {
  download : run;          (* the run of yt-dlp *)
  file_exists : bool;      (* [os.path.exists(filepath)] in [fix_metadata] *)
  tagging : run            (* the run of ffmpeg *)
}.

(** The visible actions of the script, in order. *)
Inductive action :=
| MakeDirs (path : string)
| RunYtdlp (output_path search : string)
| RunFfmpeg (filepath artist_tag title_tag album_tag : string)
| Replace (src dst : string)
| Pause (seconds : nat)
| WriteFile (path text : string).

Definition filename (s : song) : string :=
  artist s +:+ " - " +:+ title s +:+ ".mp3".

(** [getattr(song, 'album', 'Test Music')] is the default: a dictionary has
    no such attribute. *)
Definition fix_metadata (filepath : string) (s : song) (w : answers)
  : list action :=
  if file_exists w then
    RunFfmpeg filepath (artist s) (title s) "Test Music"
    :: match tagging w with
       | Exit returncode =>
           if (returncode =? 0)%Z
           then [Replace (filepath +:+ ".tmp.mp3") filepath]
           else []
       | Timeout => []
       | Raised => []
       end
  else [].

Definition download_song (s : song) (output_dir : string) (w : answers)
  : bool * list action :=
  let output_path := path_join output_dir (filename s) in
  let started := RunYtdlp output_path ("ytsearch:" +:+ query s) in
  match download w with
  | Exit returncode =>
      if (returncode =? 0)%Z
      then (true, started :: fix_metadata output_path s w)
      else (false, [started])
  | Timeout => (false, [started])
  | Raised => (false, [started])
  end.

Definition m3u_lines (songs : list song) : list string :=
  "#EXTM3U"
  :: flat_map (fun s =>
       [ "#EXTINF:240," +:+ artist s +:+ " - " +:+ title s; filename s ])
       songs.

(** The path returned and the text written. *)
Definition create_m3u_playlist (songs : list song)
    (output_dir playlist_name : string) : string * string :=
  (path_join output_dir playlist_name,
   foldr (fun line text => line +:+ newline +:+ text) EmptyString
     (m3u_lines songs)).

(** The loop of [main] from the song of index [i] on: the number of
    downloads that succeeded and the actions. *)
Fixpoint download_loop (env : nat → answers) (i : nat) (songs : list song)
  : nat * list action :=
  match songs with
  | [] => (0, [])
  | s :: rest =>
      let '(ok, actions) := download_song s "test_music" (env i) in
      let '(count, more) := download_loop env (S i) rest in
      ((if ok then 1 else 0) + count, actions ++ Pause 2 :: more)
  end.

(** [main], on the list [songs] of the module. *)
Definition main (env : nat → answers) (songs : list song) : list action :=
  let output_dir := "test_music" in
  let '(downloaded_count, actions) := download_loop env 0 songs in
  MakeDirs output_dir :: actions
  ++ (if 0 <? downloaded_count then
        let '(path, text) :=
          create_m3u_playlist songs output_dir "downloaded_music.m3u" in
        [WriteFile path text]
      else []).

Definition is_write (a : action) : bool :=
  match a with WriteFile _ _ => true | _ => false end.

(** Only the second download succeeds. *)
Definition second_only (i : nat) : answers :=
  {| download := if i =? 1 then Exit 0 else Exit 1;
     file_exists := true; tagging := Raised |}.

End Script.

(** ** More sample jobs *)

(** Nothing is found for the first song and the call for the second song
    raises. *)
Definition second_raises : runner_env :=
  {| song_envs := fun i =>
       quiet (if Nat.eqb i 0 then download_nothing else download_raises);
     playlist_error := None |}.

(** The records stored for the job during a request, in order. *)
Definition stored_records (r : (Z * world) + run) : list job :=
  match r with
  | inl (_, w) => snapshots (trace w)
  | inr r => snapshots (trace (run_world r))
  end.

(** What the status endpoint answers at the end of a request. *)
Definition final_answer (r : (Z * world) + run) : response StatusResponse :=
  match r with
  | inl (_, w) => get_download_status_endpoint "job-1" (db w)
  | inr r => get_download_status_endpoint "job-1" (db (run_world r))
  end.

(** A song whose artist is a number, without a query of its own. *)
Definition numbered_artist : pydict :=
  <["title" := VStr "1999"]> (<["artist" := VInt 1999]> ∅).

(** * Properties *)

(** ** String methods on sample inputs *)

Example strip_example : strip "  Billie Eilish 	" = "Billie Eilish".
Proof. reflexivity. Qed.

Example replace_example :
  replace " ft." EmptyString "A ft. B ft.C" = "A BC".
Proof. reflexivity. Qed.

Example contains_example : contains "403" "HTTP Error 403: Forbidden" = true.
Proof. reflexivity. Qed.

(** ** The acquisition ladder *)

Lemma invoked_app (l1 l2 : list effect) :
  invoked (l1 ++ l2) = invoked l1 ++ invoked l2.
Proof. unfold invoked. apply omap_app. Qed.

Lemma invoked_pause (b : bool) : invoked (if b then [Sleep 2] else []) = [].
Proof. by destruct b. Qed.

Lemma try_queries_success env song path n i q rest last_error :
  attempt_succeeds (dl_attempts env i) = true →
  try_queries env song path n i (q :: rest) last_error
  = ([Invoke q], metadata_result env song path).
Proof.
  intros H. simpl. destruct (dl_attempts env i) as [rc out err [size|]| |];
    simpl in H; try discriminate.
  apply andb_prop in H as [-> ->]. reflexivity.
Qed.

Lemma try_queries_failure env song path n i q rest last_error :
  attempt_succeeds (dl_attempts env i) = false →
  ∃ l last_error',
    invoked l = [] ∧
    try_queries env song path n i (q :: rest) last_error
    = log_then (Invoke q :: l)
        (try_queries env song path n (S i) rest last_error').
Proof.
  intros H. simpl.
  destruct (dl_attempts env i) as [rc out err file| |]; simpl in H.
  - destruct (rc =? 0)%Z eqn:Hrc; [destruct file as [size|]|].
    + simpl in H. rewrite H. eexists _, _. split; [|reflexivity].
      simpl. apply invoked_pause.
    + eexists _, _. split; [|reflexivity].
      rewrite !invoked_app, invoked_pause. by destruct (forbidden err).
    + eexists _, _. split; [|reflexivity].
      rewrite !invoked_app, invoked_pause.
      by destruct (forbidden err), (is_Some_dec file).
  - eexists _, _. split; [|reflexivity]. apply invoked_pause.
  - eexists _, _. split; [|reflexivity]. apply invoked_pause.
Qed.

Lemma try_queries_ladder env song path n queries : ∀ i last_error,
  ∃ k,
    invoked (try_queries env song path n i queries last_error).1
    = take k queries ∧
    stops_at_first_success env i k (length queries).
Proof.
  induction queries as [|q rest IH]; intros i last_error.
  - exists 0. split; [done|]. repeat split; simpl; intros; lia.
  - destruct (attempt_succeeds (dl_attempts env i)) eqn:Hs.
    + rewrite try_queries_success by done. exists 1. split; [done|].
      repeat split; simpl; intros; try lia.
      by replace (i + 1 - 1) with i by lia.
    + destruct (try_queries_failure env song path n i q rest last_error Hs)
        as (l & last_error' & Hl & ->).
      destruct (IH (S i) last_error') as (k & Hk & Hle & Hpos & Hfail & Hstop).
      exists (S k). split.
      { unfold log_then. cbn [fst]. change (Invoke q :: l) with ([Invoke q] ++ l).
        rewrite !invoked_app, Hl, Hk. done. }
      repeat split; simpl; intros; try lia.
      * destruct j as [|j]; [by rewrite Nat.add_0_r|].
        replace (i + S j) with (S i + j) by lia. apply Hfail. lia.
      * replace (i + S k - 1) with (S i + k - 1) by lia. apply Hstop. lia.
Qed.

Lemma search_queries_override (song : pydict) (q : string) :
  song !! "query" = Some (VStr q) → q ≠ EmptyString →
  search_queries song = Ok [q].
Proof.
  intros Hq Hne. unfold search_queries, dict_get. rewrite Hq. simpl.
  destruct (String.eqb_spec q EmptyString); [done|reflexivity].
Qed.

Lemma search_queries_default (song : pydict) (artist title : string) :
  song !! "artist" = Some (VStr artist) →
  song !! "title" = Some (VStr title) →
  truthy (dict_get song "query") = false →
  search_queries song
  = Ok [ strip artist +:+ " " +:+ strip title +:+ " official";
         strip artist +:+ " " +:+ strip title;
         strip title +:+ " " +:+ strip artist;
         strip artist +:+ " " +:+ strip title +:+ " audio";
         strip artist +:+ " " +:+ strip title +:+ " official audio lyrics" ].
Proof.
  intros Ha Ht Hq. unfold search_queries, getitem. rewrite Hq, Ha, Ht.
  reflexivity.
Qed.

Lemma search_queries_total (song : pydict) (artist title : string) :
  song !! "artist" = Some (VStr artist) →
  song !! "title" = Some (VStr title) →
  ∃ queries, search_queries song = Ok queries.
Proof.
  intros Ha Ht. destruct (truthy (dict_get song "query")) eqn:Hq.
  - unfold search_queries. rewrite Hq. eauto.
  - erewrite search_queries_default by done. eauto.
Qed.

Lemma download_song_async_runs env song output_dir artist title queries :
  song !! "artist" = Some artist →
  song !! "title" = Some title →
  dl_unexpected env = None →
  search_queries song = Ok queries →
  download_song_async env song output_dir
  = Ok (try_queries env song (output_path_of output_dir artist title)
          (length queries) 0 queries "No search queries succeeded").
Proof.
  intros Ha Ht Hu Hq. unfold download_song_async, getitem.
  rewrite Ha, Ht. cbn [mbind result_bind]. rewrite Hu, Hq. reflexivity.
Qed.

(** C5. Whatever yt-dlp answers, the call for a song with a string artist and
    title hands the queries of [search_queries] to yt-dlp in the order of
    that list and stops at the first run that leaves a non-empty file.  A
    (non-empty) query override is the only query and is attempted exactly
    once; without an override the list is the five documented phrasings, in
    the documented order, built from the trimmed artist and title. *)
Theorem acquisition_ladder_order (env : download_env) (song : pydict)
    (output_dir artist title : string) :
  song !! "artist" = Some (VStr artist) →
  song !! "title" = Some (VStr title) →
  dl_unexpected env = None →
  ∃ queries log outcome k,
    search_queries song = Ok queries ∧
    download_song_async env song output_dir = Ok (log, outcome) ∧
    invoked log = take k queries ∧
    stops_at_first_success env 0 k (length queries) ∧
    (∀ q, song !! "query" = Some (VStr q) → q ≠ EmptyString →
          queries = [q] ∧ invoked log = [q]) ∧
    (song !! "query" = None →
     queries
     = [ strip artist +:+ " " +:+ strip title +:+ " official";
         strip artist +:+ " " +:+ strip title;
         strip title +:+ " " +:+ strip artist;
         strip artist +:+ " " +:+ strip title +:+ " audio";
         strip artist +:+ " " +:+ strip title +:+ " official audio lyrics" ]).
Proof.
  intros Ha Ht Hu.
  destruct (search_queries_total song artist title Ha Ht) as [queries Hq].
  set (path := output_path_of output_dir (VStr artist) (VStr title)).
  destruct (try_queries_ladder env song path (length queries) queries 0
              "No search queries succeeded") as (k & Hk & Hstop).
  destruct (try_queries env song path (length queries) 0 queries
              "No search queries succeeded") as [log outcome] eqn:Hrun.
  exists queries, log, outcome, k. split; [done|]. split.
  { rewrite (download_song_async_runs _ _ _ _ _ _ Ha Ht Hu Hq).
    fold path. by rewrite Hrun. }
  split; [done|]. split; [done|]. split.
  - intros q Hsome Hne.
    rewrite (search_queries_override song q Hsome Hne) in Hq.
    injection Hq as <-. split; [done|].
    simpl in Hk. destruct Hstop as (Hle & Hpos & _). simpl in Hle, Hpos.
    destruct k as [|[|k]]; [lia|done|lia].
  - intros Hnone.
    rewrite (search_queries_default song artist title Ha Ht) in Hq.
    + by injection Hq as <-.
    + unfold dict_get. by rewrite Hnone.
Qed.

(** ** Traces *)

Lemma job_queries_app (t1 t2 : list event) :
  job_queries (t1 ++ t2) = job_queries t1 ++ job_queries t2.
Proof. unfold job_queries. by rewrite omap_app, concat_app. Qed.

Lemma snapshots_app (t1 t2 : list event) :
  snapshots (t1 ++ t2) = snapshots t1 ++ snapshots t2.
Proof. apply omap_app. Qed.

Lemma progress_values_app (t1 t2 : list event) :
  progress_values (t1 ++ t2) = progress_values t1 ++ progress_values t2.
Proof. unfold progress_values. by rewrite snapshots_app, omap_app. Qed.

Lemma job_queries_store id record w :
  job_queries (trace (store id record w)) = job_queries (trace w).
Proof. simpl. rewrite job_queries_app. apply app_nil_r. Qed.

Lemma job_queries_serve_cancel id requested w :
  job_queries (trace (serve_cancel id requested w)) = job_queries (trace w).
Proof.
  unfold serve_cancel. destruct requested; [|done].
  destruct (cancel_download_status id (db w)) as [db' [|]]; simpl;
    rewrite job_queries_app; apply app_nil_r.
Qed.

Lemma progress_values_serve_cancel id requested w :
  progress_values (trace (serve_cancel id requested w))
  = progress_values (trace w).
Proof.
  unfold serve_cancel. destruct requested; [|done].
  destruct (cancel_download_status id (db w)) as [db' [|]]; simpl;
    rewrite progress_values_app; apply app_nil_r.
Qed.

Lemma progress_values_store id record w :
  progress_values (trace (store id record w))
  = progress_values (trace w) ++ option_list (progress record).
Proof.
  simpl. rewrite progress_values_app. by f_equal.
Qed.

(** The queries of a job grow by those of the call for the song. *)
Lemma process_song_queries id dir total i env song l w :
  job_queries (trace (attempt_world (process_song id dir total i env song l w)))
  = job_queries (trace w)
    ++ match download_song_async (download env) song dir with
       | Ok (log, _) => invoked log
       | Raise _ => []
       end.
Proof.
  unfold process_song.
  set (w1 := if bool_decide (total = 1) then _ else w).
  assert (Hw1 : job_queries (trace w1) = job_queries (trace w)).
  { subst w1. destruct (bool_decide (total = 1)); [|done].
    by rewrite job_queries_store, job_queries_serve_cancel, job_queries_store. }
  clearbody w1.
  destruct (download_song_async (download env) song dir)
    as [[log [success result_msg]]|e]; cbn [attempt_world].
  2: { by rewrite job_queries_serve_cancel, Hw1, app_nil_r. }
  set (w2 := serve_cancel id (cancel_at env during_download) _).
  assert (Hw2 : job_queries (trace w2) = job_queries (trace w) ++ invoked log).
  { subst w2. rewrite job_queries_serve_cancel. cbn [trace].
    rewrite job_queries_app, Hw1. f_equal. apply app_nil_r. }
  clearbody w2.
  destruct success.
  - set (w3 := if bool_decide (total = 1) then _ else w2).
    assert (Hw3 : job_queries (trace w3) = job_queries (trace w2)).
    { subst w3. destruct (bool_decide (total = 1)); [|done].
      by rewrite job_queries_serve_cancel, job_queries_store. }
    clearbody w3.
    destruct (outcome_of song (Some result_msg) None song_completed); cbn [attempt_world].
    + destruct (bool_decide (total = 1)); cbn [attempt_world];
        rewrite ?job_queries_serve_cancel, job_queries_store; congruence.
    + congruence.
  - destruct (outcome_of song None (Some result_msg) song_failed); cbn [attempt_world].
    + destruct (bool_decide (total = 1)); cbn [attempt_world];
        rewrite ?job_queries_serve_cancel, job_queries_store; congruence.
    + congruence.
Qed.

(** ** Single-song requests *)

Lemma append_nonempty (s t : string) : t ≠ EmptyString → s +:+ t ≠ EmptyString.
Proof. destruct s; simpl; [done|discriminate]. Qed.

Lemma single_query_nonempty request : single_query request ≠ EmptyString.
Proof.
  unfold single_query. apply append_nonempty, append_nonempty, append_nonempty.
  discriminate.
Qed.

Lemma song_dict_artist request :
  song_dict request !! "artist" = Some (VStr (strip (req_artist request))).
Proof. reflexivity. Qed.

Lemma song_dict_title request :
  song_dict request !! "title" = Some (VStr (strip (req_title request))).
Proof. reflexivity. Qed.

Lemma song_dict_query request :
  song_dict request !! "query" = Some (VStr (single_query request)).
Proof. reflexivity. Qed.

Lemma override_attempted_once env song dir q artist title :
  song !! "artist" = Some artist →
  song !! "title" = Some title →
  song !! "query" = Some (VStr q) → q ≠ EmptyString →
  match download_song_async env song dir with
  | Ok (log, _) => dl_unexpected env = None ∧ invoked log = [q]
  | Raise _ => is_Some (dl_unexpected env)
  end.
Proof.
  intros Ha Ht Hq Hne.
  destruct (dl_unexpected env) as [e|] eqn:Hu.
  - unfold download_song_async, getitem. rewrite Ha, Ht.
    cbn [mbind result_bind]. rewrite Hu. eauto.
  - rewrite (download_song_async_runs env song dir artist title [q]) by
      auto using search_queries_override.
    destruct (try_queries_ladder env song (output_path_of dir artist title)
                1 [q] 0 "No search queries succeeded")
      as (k & Hk & Hle & Hpos & _).
    simpl length. destruct (try_queries _ _ _ _ _ _ _) as [log res].
    split; [done|]. simpl in *. destruct k as [|[|k]]; [lia|done|lia].
Qed.

Lemma single_song_run_world env dir id song w :
  run_world (process_song_download env dir id [song] w)
  = attempt_world
      (process_song id dir 1 0 (song_envs env 0) song
         {| n_completed := 0; n_failed := 0; downloaded_songs := [] |}
         (store id (in_progress 1 0 0 0 [] downloading) w)).
Proof.
  unfold process_song_download. cbn [length run_songs].
  destruct (process_song _ _ _ _ _ _ _ _) as [l' w'|e l' w'].
  - reflexivity.
  - cbn [attempt_world].
    destruct (outcome_of song None (Some e) song_error); reflexivity.
Qed.

(** C10. The song dictionary that [download_song_endpoint] hands to the
    runner always carries the query
    "{artist} {title} official audio lyrics" (artist and title trimmed), the
    list of search queries of that song is this single query, and the whole
    job hands exactly this one query to yt-dlp (none at all when the call
    raises before the search): the five phrasings are never used. *)
Theorem single_song_one_query (env : runner_env) (cancel_first : bool)
    (output_dir download_id : string) (request : SongRequest) (w : world) :
  let query :=
    strip (req_artist request) +:+ " " +:+ strip (req_title request)
    +:+ " official audio lyrics" in
  let r :=
    download_song_endpoint env cancel_first output_dir download_id request w in
  song_dict request !! "query" = Some (VStr query) ∧
  search_queries (song_dict request) = Ok [query] ∧
  job_queries (trace (run_world r))
  = job_queries (trace w)
    ++ match dl_unexpected (download (song_envs env 0)) with
       | Some _ => []
       | None => [query]
       end.
Proof.
  intros query r. split; [reflexivity|]. split.
  { apply search_queries_override; [reflexivity|].
    apply single_query_nonempty. }
  subst r. unfold download_song_endpoint.
  rewrite single_song_run_world, process_song_queries.
  rewrite job_queries_store, job_queries_serve_cancel, job_queries_store.
  f_equal.
  pose proof (override_attempted_once (download (song_envs env 0))
                (song_dict request) output_dir (single_query request) _ _
                (song_dict_artist request) (song_dict_title request)
                (song_dict_query request) (single_query_nonempty request))
    as H.
  destruct (download_song_async _ _ _) as [[log res]|e].
  - destruct H as [-> ->]. reflexivity.
  - destruct H as [e' ->]. reflexivity.
Qed.

(** ** The criterion of success of an attempt *)

Lemma fix_metadata_false (env : tagging_env) (song : pydict) :
  fix_metadata env song = false ↔ tagging_reports_failure env song.
Proof.
  unfold fix_metadata, tagging_reports_failure.
  destruct (tag_file_exists env); simpl; [|by intuition].
  destruct (tag_probe env); try (split; [done|]; intros [|(? & _)]; done).
  destruct (metadata_tags song) as [tags|e].
  2: { split; [done|]. intros [|(_ & [tags' ?] & _)]; done. }
  destruct (tag_run env) as [rc| |].
  - destruct (Z.eqb_spec rc 0) as [->|Hrc].
    + split.
      * intros Hr. right. split; [done|]. split; [by eexists|]. by right.
      * intros [|(_ & _ & [(rc & Hrc & Hne)|[_ Hr]])]; try done.
        by injection Hrc as <-.
    + split; [|done]. intros _. right. split; [done|].
      split; [by eexists|]. left. by exists rc.
  - split; [done|]. intros [|(_ & _ & [(rc & ? & _)|[? _]])]; done.
  - split; [done|]. intros [|(_ & _ & [(rc & ? & _)|[? _]])]; done.
Qed.

Lemma attempt_succeeds_iff (r : ytdlp) :
  attempt_succeeds r = true ↔
  ∃ stdout stderr file_size,
    r = Exited 0 stdout stderr (Some file_size) ∧ (0 < file_size)%Z.
Proof.
  split.
  - destruct r as [rc out err [size|]| |]; simpl; try done.
    intros [Hrc Hsize]%andb_prop. apply Z.eqb_eq in Hrc as ->.
    apply Z.ltb_lt in Hsize. eauto.
  - intros (out & err & size & -> & Hsize). simpl. by apply Z.ltb_lt.
Qed.

Lemma try_queries_stops_iff env song path n i q rest last_error :
  try_queries env song path n i (q :: rest) last_error
  = ([Invoke q], metadata_result env song path)
  ↔ attempt_succeeds (dl_attempts env i) = true.
Proof.
  split; [|apply try_queries_success].
  destruct (attempt_succeeds (dl_attempts env i)) eqn:Hs; [done|].
  destruct (try_queries_failure env song path n i q rest last_error Hs)
    as (l & last_error' & Hl & ->).
  unfold log_then. intros Heq. exfalso. destruct rest as [|q' rest].
  - simpl in Heq. unfold metadata_result in Heq.
    destruct (fix_metadata _ _); simplify_eq.
  - apply (f_equal (fun r => length (invoked r.1))) in Heq.
    cbn [fst] in Heq. change (Invoke q :: l) with ([Invoke q] ++ l) in Heq.
    destruct (try_queries_ladder env song path n (q' :: rest) (S i)
                last_error') as (k & Hk & _ & Hpos & _).
    rewrite !invoked_app, Hl, Hk in Heq.
    simpl in Hpos. destruct k; [lia|]. simpl in Heq. lia.
Qed.

(** C9 (amended). An attempt counts as a success, that is, the ladder stops
    at it and the call returns the result of the metadata step, if and only
    if yt-dlp exited with 0 and the output file exists with a size above 0;
    any other attempt is a failure and the call goes on with the remaining
    queries.  A file of zero bytes is a failure and the file is removed.
    After a successful download, the result is the failure
    "Metadata fix failed" exactly when tag finalization reports a failure
    (the file is missing, ffmpeg exits with another code than 0, or the
    tagged file cannot replace the download); when ffmpeg is unavailable,
    times out or raises, the download is still reported as a success with
    the path of the file. *)
Theorem attempt_success_criterion (env : download_env) (song : pydict)
    (path : string) (n i : nat) (q : string) (rest : list string)
    (last_error : string) :
  let enhanced_song := enrich_metadata (dl_enrich env) song in
  (try_queries env song path n i (q :: rest) last_error
   = ([Invoke q], metadata_result env song path)
   ↔ ∃ stdout stderr file_size,
       dl_attempts env i = Exited 0 stdout stderr (Some file_size)
       ∧ (0 < file_size)%Z) ∧
  ((¬ ∃ stdout stderr file_size,
        dl_attempts env i = Exited 0 stdout stderr (Some file_size)
        ∧ (0 < file_size)%Z) →
   ∃ l last_error',
     invoked l = [] ∧
     try_queries env song path n i (q :: rest) last_error
     = log_then (Invoke q :: l)
         (try_queries env song path n (S i) rest last_error')) ∧
  (∀ stdout stderr file_size,
     dl_attempts env i = Exited 0 stdout stderr (Some file_size) →
     (file_size ≤ 0)%Z →
     try_queries env song path n i (q :: rest) last_error
     = log_then
         ([Invoke q; RemoveOutput] ++ (if i <? n - 1 then [Sleep 2] else []))
         (try_queries env song path n (S i) rest last_error)) ∧
  (tagging_reports_failure (dl_tagging env) enhanced_song →
   metadata_result env song path = (false, "Metadata fix failed")) ∧
  (¬ tagging_reports_failure (dl_tagging env) enhanced_song →
   metadata_result env song path = (true, path)).
Proof.
  intros enhanced_song. split; [|split; [|split; [|split]]].
  - rewrite try_queries_stops_iff. apply attempt_succeeds_iff.
  - intros Hno. apply try_queries_failure.
    destruct (attempt_succeeds (dl_attempts env i)) eqn:Hs; [|done].
    by apply attempt_succeeds_iff in Hs.
  - intros out err size Hrun Hsize. simpl. rewrite Hrun. simpl.
    by destruct (Z.ltb_spec 0 size); [lia|].
  - intros Hfail%fix_metadata_false. unfold metadata_result.
    fold enhanced_song. by rewrite Hfail.
  - intros Hfine. unfold metadata_result. fold enhanced_song.
    destruct (fix_metadata (dl_tagging env) enhanced_song) eqn:Hfix; [done|].
    by apply fix_metadata_false in Hfix.
Qed.

Lemma attempt_success_criterion_witness :
  dl_attempts download_second_try 0
  = Exited 0 EmptyString EmptyString (Some 0%Z) ∧
  (0 ≤ 0)%Z ∧
  try_queries download_second_try get_lucky "Daft Punk - Get Lucky.mp3" 2 0
    ["Daft Punk Get Lucky official"; "Daft Punk Get Lucky"]
    "No search queries succeeded"
  = log_then
      ([Invoke "Daft Punk Get Lucky official"; RemoveOutput] ++ [Sleep 2])
      (try_queries download_second_try get_lucky "Daft Punk - Get Lucky.mp3"
         2 1 ["Daft Punk Get Lucky"] "No search queries succeeded").
Proof.
  split; [reflexivity|]. split; [lia|].
  apply (attempt_success_criterion download_second_try get_lucky
           "Daft Punk - Get Lucky.mp3" 2 0 "Daft Punk Get Lucky official"
           ["Daft Punk Get Lucky"] "No search queries succeeded")
    with (stdout := EmptyString) (stderr := EmptyString) (file_size := 0%Z);
    [reflexivity|lia].
Defined.

(** C9, as stated, fails when ffmpeg is not installed: the download left a
    file, no tag was written, and the call still reports a success with the
    path of the file. *)
Lemma skipped_tagging_reported_as_success :
  attempt_succeeds (dl_attempts (download_fine ffmpeg_missing) 0) = true ∧
  tags_applied ffmpeg_missing
    (enrich_metadata no_enrichment (song_dict bad_guy)) = false ∧
  download_song_async (download_fine ffmpeg_missing) (song_dict bad_guy)
    "downloaded_music"
  = Ok ([Invoke "Billie Eilish bad guy official audio lyrics"],
        (true, "downloaded_music/Billie Eilish - bad guy.mp3")).
Proof. repeat split; vm_compute; reflexivity. Qed.

Lemma acquisition_ladder_order_witness :
  get_lucky !! "artist" = Some (VStr "Daft Punk") ∧
  get_lucky !! "title" = Some (VStr "Get Lucky") ∧
  dl_unexpected download_second_try = None ∧
  ∃ queries log outcome k,
    search_queries get_lucky = Ok queries ∧
    download_song_async download_second_try get_lucky "downloaded_music"
    = Ok (log, outcome) ∧
    invoked log = take k queries ∧
    stops_at_first_success download_second_try 0 k (length queries).
Proof.
  assert (Ha : get_lucky !! "artist" = Some (VStr "Daft Punk")) by reflexivity.
  assert (Ht : get_lucky !! "title" = Some (VStr "Get Lucky")) by reflexivity.
  assert (Hu : dl_unexpected download_second_try = None) by reflexivity.
  split; [exact Ha|]. split; [exact Ht|]. split; [exact Hu|].
  destruct (acquisition_ladder_order download_second_try get_lucky
              "downloaded_music" "Daft Punk" "Get Lucky" Ha Ht Hu)
    as (queries & log & outcome & k & H1 & H2 & H3 & H4 & _).
  exists queries, log, outcome, k. auto.
Defined.

(** ** Metadata enrichment *)

Lemma set_if_some_dom k o (d : pydict) : dom d ⊆ dom (set_if_some k o d).
Proof. destruct o; simpl; [|done]. rewrite dom_insert_L. set_solver. Qed.

Lemma set_if_some_other k o (d : pydict) k' :
  k' ≠ k → set_if_some k o d !! k' = d !! k'.
Proof. intros Hne. destruct o; simpl; [|done]. by rewrite lookup_insert_ne. Qed.

Lemma scan_tracks_dom rid (d : pydict) tracks :
  dom d ⊆ dom (scan_tracks rid d tracks).
Proof.
  unfold scan_tracks. destruct (List.find _ tracks) as [t|]; [|done].
  pose proof (set_if_some_dom "track_number" (nonempty (trk_number t)) d).
  destruct (trk_length t) as [len|]; [|done].
  destruct (len =? 0)%Z; [done|]. rewrite dom_insert_L. set_solver.
Qed.

Lemma scan_tracks_other rid (d : pydict) tracks k :
  k ∉ enrichment_keys → scan_tracks rid d tracks !! k = d !! k.
Proof.
  intros Hk. unfold scan_tracks.
  assert (k ≠ "track_number" ∧ k ≠ "duration_ms") as [H1 H2].
  { split; intros ->; apply Hk; unfold enrichment_keys; set_solver. }
  destruct (List.find _ tracks) as [t|]; [|done].
  destruct (trk_length t) as [len|]; [destruct (len =? 0)%Z|];
    rewrite ?lookup_insert_ne by done; by apply set_if_some_other.
Qed.

Lemma foldl_scan_tracks_dom rid media : ∀ d : pydict,
  dom d ⊆ dom (foldl (scan_tracks rid) d media).
Proof.
  induction media as [|tracks media IH]; intros d; simpl; [done|].
  etrans; [apply (scan_tracks_dom rid d tracks)|apply IH].
Qed.

Lemma foldl_scan_tracks_other rid media k : ∀ d : pydict,
  k ∉ enrichment_keys → foldl (scan_tracks rid) d media !! k = d !! k.
Proof.
  induction media as [|tracks media IH]; intros d Hk; simpl; [done|].
  rewrite IH by done. by apply scan_tracks_other.
Qed.

Lemma merge_recording_dom env recording (d d' : pydict) :
  merge_recording env recording d = Ok d' → dom d ⊆ dom d'.
Proof.
  unfold merge_recording.
  set (d1 := set_if_some "title" _ d).
  set (d2 := match rec_artist_credit recording with [] => d1 | _ => _ end).
  set (d3 := match rec_releases recording with [] => d2 | _ => _ end).
  assert (dom d ⊆ dom d3) as Hd3.
  { assert (dom d ⊆ dom d1) as H1 by apply set_if_some_dom.
    assert (dom d1 ⊆ dom d2) as H2.
    { subst d2. destruct (rec_artist_credit recording); [done|].
      apply set_if_some_dom. }
    assert (dom d2 ⊆ dom d3) as H3.
    { subst d3. destruct (rec_releases recording) as [|release ?]; [done|].
      etrans; [apply (set_if_some_dom "album")|].
      destruct (nonempty (rel_id release)); [|done]. apply set_if_some_dom. }
    set_solver. }
  destruct (genre_tags (rec_tags recording)) as [names|e];
    cbn [mbind result_bind]; [|done].
  intros [= <-]. etrans; [|apply foldl_scan_tracks_dom].
  destruct names; [done|]. rewrite dom_insert_L. set_solver.
Qed.

Lemma merge_recording_other env recording (d d' : pydict) k :
  k ∉ enrichment_keys →
  merge_recording env recording d = Ok d' → d' !! k = d !! k.
Proof.
  intros Hk. unfold merge_recording.
  assert (∀ k', k' ∈ enrichment_keys → k ≠ k') as Hne by (by intros k' ? ->).
  assert (k ≠ "title" ∧ k ≠ "artist" ∧ k ≠ "album" ∧ k ≠ "cover_url"
          ∧ k ≠ "genre") as (? & ? & ? & ? & ?).
  { repeat split; apply Hne; unfold enrichment_keys; set_solver. }
  destruct (genre_tags (rec_tags recording)) as [names|e];
    cbn [mbind result_bind]; [|done].
  intros [= <-]. rewrite foldl_scan_tracks_other by done.
  destruct names; rewrite ?lookup_insert_ne by done;
    destruct (rec_releases recording) as [|release ?],
             (rec_artist_credit recording);
    try destruct (nonempty (rel_id release));
    by rewrite ?set_if_some_other by done.
Qed.

(** Whether a string method can be called does not depend on the method. *)
Lemma getitem_as_str_attr (d : pydict) (k attr attr' s : string) :
  getitem d k ≫= as_str attr = Ok s → getitem d k ≫= as_str attr' = Ok s.
Proof.
  unfold getitem. destruct (d !! k) as [[?| |]|]; cbn [mbind result_bind as_str];
    done.
Qed.

Lemma enrich_body_dom env (song d' : pydict) :
  enrich_body env song = Ok d' → dom song ⊆ dom d'.
Proof.
  unfold enrich_body.
  destruct (getitem song "artist" ≫= as_str _); cbn [mbind result_bind]; [|done].
  destruct (getitem song "title" ≫= as_str _); cbn [mbind result_bind]; [|done].
  destruct (mb_reply env) as [e|code recordings]; [done|].
  set (merged := if (code =? 200)%Z then _ else _).
  assert (∀ d, merged = Ok d → dom song ⊆ dom d) as Hmerged.
  { subst merged. intros d. destruct (code =? 200)%Z; [|by intros [= <-]].
    destruct recordings as [|recording ?]; [by intros [= <-]|].
    apply merge_recording_dom. }
  destruct merged as [d|e]; cbn [mbind result_bind]; [|done].
  specialize (Hmerged d eq_refl).
  destruct (getitem d "artist" ≫= as_str _); cbn [mbind result_bind]; [|done].
  destruct (getitem d "title" ≫= as_str _); cbn [mbind result_bind]; [|done].
  destruct (get_song_lyrics _ _ _); intros [= <-]; [|done].
  rewrite dom_insert_L. set_solver.
Qed.

Lemma enrich_body_other env (song d' : pydict) k :
  k ∉ enrichment_keys → enrich_body env song = Ok d' → d' !! k = song !! k.
Proof.
  intros Hk. unfold enrich_body.
  destruct (getitem song "artist" ≫= as_str _); cbn [mbind result_bind]; [|done].
  destruct (getitem song "title" ≫= as_str _); cbn [mbind result_bind]; [|done].
  destruct (mb_reply env) as [e|code recordings]; [done|].
  set (merged := if (code =? 200)%Z then _ else _).
  assert (∀ d, merged = Ok d → d !! k = song !! k) as Hmerged.
  { subst merged. intros d. destruct (code =? 200)%Z; [|by intros [= <-]].
    destruct recordings as [|recording ?]; [by intros [= <-]|].
    by apply merge_recording_other. }
  destruct merged as [d|e]; cbn [mbind result_bind]; [|done].
  specialize (Hmerged d eq_refl).
  destruct (getitem d "artist" ≫= as_str _); cbn [mbind result_bind]; [|done].
  destruct (getitem d "title" ≫= as_str _); cbn [mbind result_bind]; [|done].
  destruct (get_song_lyrics _ _ _); intros [= <-]; [|done].
  rewrite lookup_insert_ne; [done|].
  intros <-. apply Hk. unfold enrichment_keys. set_solver.
Qed.

Lemma no_lyrics_found env artist title :
  lyrics_unavailable env → get_song_lyrics env artist title = None.
Proof.
  intros [Hovh Hlrc]. unfold get_song_lyrics.
  assert (lyrics_ovh (ovh_reply env) = None) as ->.
  { destruct (ovh_reply env) as [e|code body]; [done|]. simpl.
    destruct body as [lyrics|]; [|done].
    destruct Hovh as [Hcode|]; [|done].
    by destruct (Z.eqb_spec code 200). }
  destruct (lrclib_reply env) as [e|code results]; [done|]. simpl.
  destruct Hlrc as [Hcode| ->].
  - by destruct (Z.eqb_spec code 200).
  - by destruct (code =? 200)%Z.
Qed.

Lemma enrich_body_no_data env (song : pydict) :
  metadata_unavailable (mb_reply env) →
  lyrics_unavailable (lyrics_replies env) →
  enrich_body env song = Ok song ∨ ∃ e, enrich_body env song = Raise e.
Proof.
  intros Hmb Hly. unfold enrich_body.
  destruct (getitem song "artist" ≫= as_str _) as [a|] eqn:Ha;
    cbn [mbind result_bind]; [|eauto].
  destruct (getitem song "title" ≫= as_str _) as [t|] eqn:Ht;
    cbn [mbind result_bind]; [|eauto].
  destruct (mb_reply env) as [e|code recordings]; [eauto|].
  assert ((if (code =? 200)%Z
           then match recordings with
                | [] => Ok song
                | recording :: _ => merge_recording env recording song
                end
           else Ok song) = Ok song) as ->.
  { destruct Hmb as [Hcode| ->].
    - by destruct (Z.eqb_spec code 200).
    - by destruct (code =? 200)%Z. }
  cbn [mbind result_bind].
  rewrite (getitem_as_str_attr _ _ _ "lower" _ Ha),
          (getitem_as_str_attr _ _ _ "lower" _ Ht).
  cbn [mbind result_bind].
  rewrite no_lyrics_found by done. by left.
Qed.

(** C7. Enrichment never narrows a song: every key of the input is a key of
    the output, the keys that are not enrichment fields keep their value,
    the input comes back unchanged when the metadata lookup raises, and it
    comes back unchanged when the metadata directory and both lyric
    providers give an error or no data. *)
Theorem enrich_never_narrows (env : enrich_env) (song : pydict) :
  dom song ⊆ dom (enrich_metadata env song) ∧
  (∀ k, k ∉ enrichment_keys → enrich_metadata env song !! k = song !! k) ∧
  (∀ e, mb_reply env = HttpRaised e → enrich_metadata env song = song) ∧
  (metadata_unavailable (mb_reply env) →
   lyrics_unavailable (lyrics_replies env) →
   enrich_metadata env song = song).
Proof.
  unfold enrich_metadata. split; [|split; [|split]].
  - destruct (enrich_body env song) eqn:Hbody; [|done].
    by eapply enrich_body_dom.
  - intros k Hk. destruct (enrich_body env song) eqn:Hbody; [|done].
    by eapply enrich_body_other.
  - intros e He. unfold enrich_body. rewrite He.
    destruct (getitem song "artist" ≫= as_str _); cbn [mbind result_bind];
      [|done].
    by destruct (getitem song "title" ≫= as_str _).
  - intros Hmb Hly.
    by destruct (enrich_body_no_data env song Hmb Hly) as [->|[e ->]].
Qed.

Lemma enrich_never_narrows_witness :
  metadata_unavailable (mb_reply no_enrichment) ∧
  lyrics_unavailable (lyrics_replies no_enrichment) ∧
  enrich_metadata no_enrichment (song_dict bad_guy) = song_dict bad_guy.
Proof.
  assert (Hmb : metadata_unavailable (mb_reply no_enrichment))
    by (left; discriminate).
  assert (Hly : lyrics_unavailable (lyrics_replies no_enrichment))
    by (split; [left; discriminate|by right]).
  split; [exact Hmb|]. split; [exact Hly|].
  exact (proj2 (proj2 (proj2
           (enrich_never_narrows no_enrichment (song_dict bad_guy))))
           Hmb Hly).
Defined.

Example enrich_partial_data :
  enrich_metadata partial_enrichment (song_dict bad_guy)
  = <["title" := VStr "Get Lucky"]>
      (<["artist" := VStr "Daft Punk"]>
         (<["album" := VStr "Random Access Memories"]>
            (<["genre" := VStr "disco"]>
               (<["track_number" := VStr "8"]>
                  (<["duration_ms" := VInt 369000]> (song_dict bad_guy)))))).
Proof. by vm_compute. Qed.

(** ** The tracklist resolver *)

Lemma synthetic_tracks_length artist_clean album_clean :
  length (synthetic_tracks artist_clean album_clean) = 12.
Proof. reflexivity. Qed.

Lemma synthetic_tracks_titles artist_clean album_clean :
  map (fun track : pydict => track !! "title")
      (synthetic_tracks artist_clean album_clean)
  = map (fun title => Some (VStr title))
      [ "Track 1"; "Track 1 (part 1)"; "Track 1 (part 2)";
        "Song 1"; "Song 1 (part 1)"; "Song 1 (part 2)";
        "Track 2"; "Track 2 (part 1)"; "Track 2 (part 2)";
        "Song 2"; "Song 2 (part 1)"; "Song 2 (part 2)" ].
Proof. reflexivity. Qed.

Lemma directory_tracks_none artist_clean album_clean tracks :
  Forall (fun track => dt_recording track = None) tracks →
  directory_tracks artist_clean album_clean tracks = Ok [].
Proof.
  induction 1 as [|track tracks Htrack _ IH]; simpl; [done|].
  by rewrite Htrack.
Qed.

Lemma directory_tracks_raises artist_clean album_clean tracks :
  Exists (fun track => dt_recording track = Some None) tracks →
  ∃ e, directory_tracks artist_clean album_clean tracks = Raise e.
Proof.
  induction 1 as [track tracks Htrack|track tracks _ [e IH]]; simpl.
  - rewrite Htrack. eauto.
  - destruct (dt_recording track) as [[title|]|]; rewrite ?IH; simpl; eauto.
Qed.

Lemma album_tracks_body_nonempty env artist album tracks :
  album_tracks_body env artist album = Ok tracks → 1 ≤ length tracks.
Proof.
  unfold album_tracks_body.
  destruct (match search_reply env with HttpRaised e => _ | _ => _ end)
    as [found|e]; cbn [mbind result_bind]; [|done].
  destruct found; intros [= <-]; [|simpl; lia].
  rewrite synthetic_tracks_length. lia.
Qed.

Lemma no_match_synthetic env artist album :
  no_directory_match env →
  album_tracks_body env artist album
  = Ok (synthetic_tracks (strip artist) (strip album)).
Proof.
  unfold no_directory_match, album_tracks_body.
  destruct (search_reply env) as [e|code releases]; [done|].
  intros [Hcode|[->|(release_id & rest & -> & Hdetail)]].
  - by destruct (Z.eqb_spec code 200).
  - by destruct (code =? 200)%Z.
  - destruct (code =? 200)%Z; [|done].
    destruct (detail_reply env) as [e|detail_code media]; [done|].
    destruct Hdetail as [Hcode|Hnone].
    + by destruct (Z.eqb_spec detail_code 200).
    + destruct (detail_code =? 200)%Z; [|done].
      by rewrite directory_tracks_none.
Qed.

Lemma resolver_raises_body env artist album :
  resolver_raises env → ∃ e, album_tracks_body env artist album = Raise e.
Proof.
  unfold resolver_raises, album_tracks_body.
  destruct (search_reply env) as [e|code releases]; [eauto|].
  intros [-> Hreleases]. simpl.
  destruct releases as [|[release_id|] rest]; [done| |eauto].
  destruct (detail_reply env) as [e|detail_code media]; [eauto|].
  destruct Hreleases as [-> Hexists]. simpl.
  destruct (directory_tracks_raises (strip artist) (strip album) _ Hexists)
    as [e ->]. eauto.
Qed.

(** C6. When the directory has no match for the release, the resolver
    returns twelve synthetic records, never none: "Track 1", "Track 1 (part
    1)", ..., "Song 2 (part 2)", each with the trimmed artist and album and
    the query [{artist} "{album}" song {i} -individual track-], and with no
    other key.  When it hits an unexpected error, it returns exactly one
    record, whose title and album are the album as given, with the artist as
    given and the query [{artist} {album} full album official].  It returns
    at least one record in every case. *)
Theorem tracklist_never_empty (env : resolver_env) (artist album : string) :
  (no_directory_match env →
   Forall2
     (fun (track : pydict) '(title, i) =>
        track !! "title" = Some (VStr title) ∧
        track !! "artist" = Some (VStr (strip artist)) ∧
        track !! "album" = Some (VStr (strip album)) ∧
        track !! "query"
        = Some (VStr (strip artist +:+ " " +:+ dquote +:+ strip album
                      +:+ dquote +:+ " song " +:+ i
                      +:+ " -individual track-")) ∧
        dom track = {[ "title"; "artist"; "album"; "query" ]})
     (get_album_tracks env artist album)
     [ ("Track 1", "1"); ("Track 1 (part 1)", "1"); ("Track 1 (part 2)", "1");
       ("Song 1", "1"); ("Song 1 (part 1)", "1"); ("Song 1 (part 2)", "1");
       ("Track 2", "2"); ("Track 2 (part 1)", "2"); ("Track 2 (part 2)", "2");
       ("Song 2", "2"); ("Song 2 (part 1)", "2"); ("Song 2 (part 2)", "2") ]
   ∧ 1 ≤ length (get_album_tracks env artist album) ≤ 12) ∧
  (resolver_raises env →
   ∃ track,
     get_album_tracks env artist album = [track] ∧
     track !! "title" = Some (VStr album) ∧
     track !! "artist" = Some (VStr artist) ∧
     track !! "album" = Some (VStr album) ∧
     track !! "query"
     = Some (VStr (artist +:+ " " +:+ album +:+ " full album official")) ∧
     dom track = {[ "title"; "artist"; "album"; "query" ]}) ∧
  1 ≤ length (get_album_tracks env artist album).
Proof.
  unfold get_album_tracks. split; [|split].
  - intros Hno. rewrite (no_match_synthetic env artist album Hno).
    rewrite synthetic_tracks_length. split; [|lia].
    assert (Hdom : ∀ t a al q : value,
              dom (<["title" := t]> (<["artist" := a]> (<["album" := al]>
                     (<["query" := q]> (∅ : pydict)))))
              = ({[ "title"; "artist"; "album"; "query" ]} : gset string)).
    { intros t a al q. rewrite !dom_insert_L, dom_empty_L.
      by rewrite (right_id_L ∅ (∪)), !(assoc_L (∪)). }
    repeat (constructor;
            [split; [reflexivity|]; split; [reflexivity|];
             split; [reflexivity|]; split; [reflexivity|]; apply Hdom|]).
    constructor.
  - intros Hraises.
    destruct (resolver_raises_body env artist album Hraises) as [e ->].
    eexists. split; [reflexivity|].
    split; [reflexivity|]. split; [reflexivity|]. split; [reflexivity|].
    split; [reflexivity|].
    unfold whole_album, track_info. rewrite !dom_insert_L, dom_empty_L.
    by rewrite (right_id_L ∅ (∪)), !(assoc_L (∪)).
  - destruct (album_tracks_body env artist album) eqn:Hbody; [|simpl; lia].
    by eapply album_tracks_body_nonempty.
Qed.

Lemma tracklist_never_empty_witness :
  no_directory_match directory_down ∧
  resolver_raises directory_unreachable ∧
  1 ≤ length (get_album_tracks directory_down "Daft Punk" "Discovery") ≤ 12 ∧
  ∃ track,
    get_album_tracks directory_unreachable "Daft Punk" "Discovery" = [track] ∧
    track !! "title" = Some (VStr "Discovery").
Proof.
  assert (Hno : no_directory_match directory_down) by (left; discriminate).
  assert (Hraises : resolver_raises directory_unreachable) by exact I.
  split; [exact Hno|]. split; [exact Hraises|]. split.
  - exact (proj2 (proj1 (tracklist_never_empty directory_down
                           "Daft Punk" "Discovery") Hno)).
  - destruct (proj1 (proj2 (tracklist_never_empty directory_unreachable
                              "Daft Punk" "Discovery")) Hraises)
      as (track & Htracks & Htitle & _).
    exists track. split; [exact Htracks|exact Htitle].
Defined.

(** ** The job runner: exceptions *)

Lemma outcome_of_ok (song : pydict) filepath error_ st :
  has_title_artist song →
  ∃ o, outcome_of song filepath error_ st = Ok o ∧
       Some (out_title o) = song !! "title" ∧
       Some (out_artist o) = song !! "artist" ∧
       out_album o = dict_get song "album" ∧
       out_filepath o = filepath ∧ out_error o = error_ ∧ out_status o = st.
Proof.
  intros [[title Ht] [artist Ha]]. unfold outcome_of, getitem.
  rewrite Ht, Ha. cbn [mbind result_bind]. eexists. split; [done|].
  by repeat split.
Qed.

(** What one turn of the loop, handler included, does to the local
    variables. *)
Lemma run_songs_step id dir total envs i song rest l w :
  has_title_artist song →
  ∃ o w',
    records song (download_song_async (download (envs i)) song dir) o ∧
    run_songs id dir total envs i (song :: rest) l w
    = run_songs id dir total envs (S i) rest
        {| n_completed :=
             (if is_song_completed o then S (n_completed l)
              else n_completed l);
           n_failed :=
             (if is_song_completed o then n_failed l else S (n_failed l));
           downloaded_songs := downloaded_songs l ++ [o] |} w'.
Proof.
  intros Hsong. cbn [run_songs]. unfold process_song, records.
  set (w1 := if bool_decide (total = 1) then _ else w). clearbody w1.
  destruct (download_song_async (download (envs i)) song dir)
    as [[log [[|] result_msg]]|e].
  - destruct (outcome_of_ok song (Some result_msg) None song_completed Hsong)
      as (o & -> & Ht & Ha & Hal & Hf & He & Hs).
    eexists o, _. split; [done|]. unfold is_song_completed. rewrite Hs.
    reflexivity.
  - destruct (outcome_of_ok song None (Some result_msg) song_failed Hsong)
      as (o & -> & Ht & Ha & Hal & Hf & He & Hs).
    eexists o, _. split; [done|]. unfold is_song_completed. rewrite Hs.
    reflexivity.
  - destruct (outcome_of_ok song None (Some e) song_error Hsong)
      as (o & -> & Ht & Ha & Hal & Hf & He & Hs).
    eexists o, _. split; [done|]. unfold is_song_completed. rewrite Hs.
    reflexivity.
Qed.

Lemma count_completed_snoc l o :
  count_completed (l ++ [o])
  = if is_song_completed o then S (count_completed l) else count_completed l.
Proof.
  unfold count_completed. rewrite List.filter_app, length_app. simpl.
  destruct (is_song_completed o); simpl; lia.
Qed.

Lemma count_not_completed_snoc l o :
  count_not_completed (l ++ [o])
  = if is_song_completed o then count_not_completed l
    else S (count_not_completed l).
Proof.
  unfold count_not_completed. rewrite List.filter_app, length_app. simpl.
  destruct (is_song_completed o); simpl; lia.
Qed.

Lemma run_songs_outcomes id dir total envs songs : ∀ i l w,
  Forall has_title_artist songs →
  n_completed l = count_completed (downloaded_songs l) →
  n_failed l = count_not_completed (downloaded_songs l) →
  let r := run_songs id dir total envs i songs l w in
  run_aborted r = None ∧
  n_completed (run_locals r) = count_completed (downloaded_songs (run_locals r)) ∧
  n_failed (run_locals r)
  = count_not_completed (downloaded_songs (run_locals r)) ∧
  ∃ new,
    downloaded_songs (run_locals r) = downloaded_songs l ++ new ∧
    length new = length songs ∧
    ∀ k song, songs !! k = Some song →
      ∃ o, new !! k = Some o ∧
           records song
             (download_song_async (download (envs (i + k))) song dir) o.
Proof.
  induction songs as [|song rest IH]; intros i l w Hsongs Hc Hf.
  - simpl. split; [done|]. split; [done|]. split; [done|].
    exists []. rewrite app_nil_r. split; [done|]. split; [done|].
    intros k song Hk. by destruct k.
  - apply Forall_cons in Hsongs as [Hsong Hrest].
    destruct (run_songs_step id dir total envs i song rest l w Hsong)
      as (o & w' & Ho & ->).
    set (l' := {| n_completed := _; n_failed := _; downloaded_songs := _ |}).
    destruct (IH (S i) l' w' Hrest) as (Hab & Hc' & Hf' & new & Hnew & Hlen & Hk).
    { subst l'. cbn [n_completed downloaded_songs].
      rewrite count_completed_snoc, Hc. by destruct (is_song_completed o). }
    { subst l'. cbn [n_failed downloaded_songs].
      rewrite count_not_completed_snoc, Hf. by destruct (is_song_completed o). }
    split; [done|]. split; [done|]. split; [done|].
    exists (o :: new). split; [|split].
    + rewrite Hnew. subst l'. cbn [downloaded_songs].
      by rewrite <- app_assoc.
    + simpl. by rewrite Hlen.
    + intros [|k] song' Hsong'.
      * injection Hsong' as <-. exists o. split; [done|].
        by rewrite Nat.add_0_r.
      * destruct (Hk k song' Hsong') as (o' & Ho' & Hrec). exists o'.
        split; [done|]. by replace (i + S k) with (S i + k) by lia.
Qed.

(** For a job whose songs carry a title and an artist, no exception of a
    song aborts the runner: it ends with one outcome per song in its local
    list, in the order of the songs; the outcome of a song whose call raised
    is an entry with the text of the exception as its error, counted as a
    failure; and the outcome of every other song, later ones included, is
    that of its own call.  This is about the list that the runner keeps,
    not about the record that it stores. *)
Lemma exception_recorded_job_continues (env : runner_env)
    (output_dir download_id : string) (songs : list pydict) (w : world) :
  Forall has_title_artist songs →
  let r := process_song_download env output_dir download_id songs w in
  let outcomes := downloaded_songs (run_locals r) in
  run_aborted r = None ∧
  length outcomes = length songs ∧
  (∀ k song, songs !! k = Some song →
     ∃ o, outcomes !! k = Some o ∧
          records song
            (download_song_async (download (song_envs env k)) song output_dir)
            o) ∧
  n_completed (run_locals r) = count_completed outcomes ∧
  n_failed (run_locals r) = count_not_completed outcomes.
Proof.
  intros Hsongs r outcomes. subst outcomes r. unfold process_song_download.
  set (w0 := store download_id _ w).
  destruct (run_songs_outcomes download_id output_dir (length songs)
              (song_envs env) songs 0
              {| n_completed := 0; n_failed := 0; downloaded_songs := [] |}
              w0 Hsongs eq_refl eq_refl)
    as (Hab & Hc & Hf & new & Hnew & Hlen & Hk).
  rewrite Hab. cbn [run_aborted run_locals].
  simpl in Hnew. rewrite Hnew in *.
  split; [done|]. split; [done|]. split; [done|]. by split.
Qed.

Lemma exception_recorded_job_continues_witness :
  Forall has_title_artist [one_more_time; aerodynamic] ∧
  let r :=
    process_song_download first_raises "downloaded_music" "job-1"
      [one_more_time; aerodynamic] empty_world in
  run_aborted r = None ∧
  length (downloaded_songs (run_locals r)) = 2.
Proof.
  assert (H : Forall has_title_artist [one_more_time; aerodynamic]).
  { repeat constructor; by eexists. }
  split; [exact H|].
  destruct (exception_recorded_job_continues first_raises "downloaded_music"
              "job-1" [one_more_time; aerodynamic] empty_world H)
    as (Hab & Hlen & _).
  split; [exact Hab|exact Hlen].
Defined.

Example first_raises_outcomes :
  map (fun o => (out_title o, out_status o, out_error o))
    (downloaded_songs
       (run_locals
          (process_song_download first_raises "downloaded_music" "job-1"
             [one_more_time; aerodynamic] empty_world)))
  = [ (VStr "One More Time", song_error,
       Some "[Errno 5] Input/output error");
      (VStr "Aerodynamic", song_completed, None) ].
Proof. by vm_compute. Qed.

(** ** The job runner: progress *)

Lemma py_progress_floor (n i : nat) :
  1 ≤ n ≤ 20 → i < n →
  py_progress i n = ((Z.of_nat i + 1) * 100 / Z.of_nat n)%Z.
Proof.
  intros Hn Hi.
  assert (progress_exact_upto 20 = true) as H by (vm_compute; reflexivity).
  unfold progress_exact_upto in H. rewrite forallb_forall in H.
  specialize (H n). rewrite in_seq in H.
  assert (Hn' : 1 ≤ n < 1 + 20) by lia. specialize (H Hn').
  rewrite forallb_forall in H. specialize (H i). rewrite in_seq in H.
  assert (Hi' : 0 ≤ i < 0 + n) by lia. specialize (H Hi').
  by apply Z.eqb_eq in H.
Qed.

(** Beyond twenty songs the two differ: 29 songs out of 50. *)
Example py_progress_not_floor :
  py_progress 28 50 = 57%Z ∧ ((28 + 1) * 100 / 50 = 58)%Z.
Proof. split; vm_compute; reflexivity. Qed.

Lemma nondecreasing_nil : nondecreasing [].
Proof. intros a b pa pb _ Ha. by rewrite lookup_nil in Ha. Qed.

Lemma nondecreasing_cons (x : Z) (l : list Z) :
  Forall (fun p => (x ≤ p)%Z) l → nondecreasing l → nondecreasing (x :: l).
Proof.
  intros Hx Hl [|a] [|b] pa pb Hab Ha Hb; simpl in *; try lia.
  - injection Ha as <-. rewrite Forall_lookup in Hx. by eapply Hx.
  - eapply (Hl a b); [lia|done..].
Qed.

Lemma reports_app (t1 t2 : list event) :
  reports (t1 ++ t2) = reports t1 ++ reports t2.
Proof. unfold reports. by rewrite snapshots_app, omap_app. Qed.

Lemma reports_store id record w :
  reports (trace (store id record w))
  = reports (trace w) ++ option_list (report record).
Proof. simpl. rewrite reports_app. by f_equal. Qed.

Lemma reports_serve_cancel id requested w :
  reports (trace (serve_cancel id requested w)) = reports (trace w).
Proof.
  unfold serve_cancel. destruct requested; [|done].
  destruct (cancel_download_status id (db w)) as [db' [|]]; simpl;
    rewrite reports_app; apply app_nil_r.
Qed.

Lemma progress_values_acquired (w : world) i log :
  progress_values (trace w ++ [Acquired i log]) = progress_values (trace w).
Proof. rewrite progress_values_app. apply app_nil_r. Qed.

Lemma reports_acquired (w : world) i log :
  reports (trace w ++ [Acquired i log]) = reports (trace w).
Proof. rewrite reports_app. apply app_nil_r. Qed.

Lemma report_in_progress total n_ok n_ko p l o st :
  report (in_progress total n_ok n_ko p (l ++ [o]) st)
  = Some (S (length l), p).
Proof.
  unfold report. simpl. destruct l as [|o' l]; simpl; [done|].
  by rewrite length_app, Nat.add_1_r.
Qed.

(** One turn of the loop of a job of several songs: the local list grows by
    one outcome, and a record is stored, with the progress of the index,
    unless the call raised. *)
Lemma run_songs_step_multi id dir total envs i song rest l w :
  total ≠ 1 → has_title_artist song →
  ∃ l' w',
    run_songs id dir total envs i (song :: rest) l w
    = run_songs id dir total envs (S i) rest l' w' ∧
    length (downloaded_songs l') = S (length (downloaded_songs l)) ∧
    match download_song_async (download (envs i)) song dir with
    | Ok _ =>
        progress_values (trace w')
        = progress_values (trace w) ++ [py_progress i total] ∧
        reports (trace w')
        = reports (trace w)
          ++ [(S (length (downloaded_songs l)), py_progress i total)]
    | Raise _ =>
        progress_values (trace w') = progress_values (trace w) ∧
        reports (trace w') = reports (trace w)
    end.
Proof.
  intros Htotal Hsong. cbn [run_songs]. unfold process_song.
  rewrite (bool_decide_eq_false_2 _ Htotal).
  destruct (download_song_async (download (envs i)) song dir)
    as [[log [[|] result_msg]]|e].
  - destruct (outcome_of_ok song (Some result_msg) None song_completed Hsong)
      as (o & -> & _).
    eexists _, _. split; [reflexivity|]. cbn [downloaded_songs].
    split; [by rewrite length_app, Nat.add_1_r|].
    rewrite progress_values_serve_cancel, reports_serve_cancel.
    rewrite progress_values_store, reports_store.
    rewrite progress_values_serve_cancel, reports_serve_cancel.
    cbn [trace]. rewrite progress_values_acquired, reports_acquired.
    by rewrite report_in_progress.
  - destruct (outcome_of_ok song None (Some result_msg) song_failed Hsong)
      as (o & -> & _).
    eexists _, _. split; [reflexivity|]. cbn [downloaded_songs].
    split; [by rewrite length_app, Nat.add_1_r|].
    rewrite progress_values_serve_cancel, reports_serve_cancel.
    rewrite progress_values_store, reports_store.
    rewrite progress_values_serve_cancel, reports_serve_cancel.
    cbn [trace]. rewrite progress_values_acquired, reports_acquired.
    by rewrite report_in_progress.
  - destruct (outcome_of_ok song None (Some e) song_error Hsong)
      as (o & -> & _).
    eexists _, _. split; [reflexivity|].
    cbn [append_outcome count_failure downloaded_songs].
    split; [by rewrite length_app, Nat.add_1_r|].
    by rewrite progress_values_serve_cancel, reports_serve_cancel.
Qed.

Lemma floor_progress_mono (total i : nat) :
  (Z.of_nat i * 100 / Z.of_nat total
   ≤ (Z.of_nat i + 1) * 100 / Z.of_nat total)%Z.
Proof.
  destruct total as [|total].
  - simpl. by rewrite !Z.div_0_r.
  - apply Z.div_le_mono; lia.
Qed.

Lemma run_songs_progress id dir total envs songs : ∀ i l w,
  total ≠ 1 → 1 ≤ total ≤ 20 →
  Forall has_title_artist songs →
  length (downloaded_songs l) = i →
  i + length songs = total →
  let r := run_songs id dir total envs i songs l w in
  ∃ vals reps,
    progress_values (trace (run_world r))
    = progress_values (trace w) ++ vals ∧
    reports (trace (run_world r)) = reports (trace w) ++ reps ∧
    nondecreasing vals ∧
    Forall (fun p => (Z.of_nat i * 100 / Z.of_nat total ≤ p)%Z) vals ∧
    (∀ k p, (k, p) ∈ reps → p = (Z.of_nat k * 100 / Z.of_nat total)%Z) ∧
    (∀ k song, songs !! k = Some song →
       (∃ res, download_song_async (download (envs (i + k))) song dir
               = Ok res) →
       (S (i + k),
        ((Z.of_nat (i + k) + 1) * 100 / Z.of_nat total)%Z) ∈ reps).
Proof.
  induction songs as [|song rest IH]; intros i l w Hne Htotal Hsongs Hl Hlen.
  - exists [], []. simpl. rewrite !app_nil_r.
    split; [done|]. split; [done|]. split; [apply nondecreasing_nil|].
    split; [done|]. split; [by intros k p ?%elem_of_nil|].
    intros k song Hk. by destruct k.
  - apply Forall_cons in Hsongs as [Hsong Hrest]. simpl in Hlen.
    destruct (run_songs_step_multi id dir total envs i song rest l w Hne Hsong)
      as (l' & w' & -> & Hl' & Hstep).
    destruct (IH (S i) l' w' Hne Htotal Hrest) as
      (vals & reps & Hvals & Hreps & Hnd & Hlow & Hrep & Hex);
      [lia..|].
    assert (py_progress i total
            = ((Z.of_nat i + 1) * 100 / Z.of_nat total)%Z) as Hpy
      by (apply py_progress_floor; lia).
    assert (Hlow' : Forall (fun p =>
              ((Z.of_nat i + 1) * 100 / Z.of_nat total ≤ p)%Z) vals).
    { eapply Forall_impl; [exact Hlow|]. intros p Hp. simpl in Hp.
      by replace (Z.of_nat i + 1)%Z with (Z.of_nat (S i)) by lia. }
    destruct (download_song_async (download (envs i)) song dir) as [res|e]
      eqn:Hcall; destruct Hstep as [Hpv Hrp].
    + exists (py_progress i total :: vals),
             ((S i, py_progress i total) :: reps).
      rewrite Hvals, Hreps, Hpv, Hrp, Hl, <- !app_assoc. simpl.
      split; [done|]. split; [done|].
      split; [rewrite Hpy; by apply nondecreasing_cons|].
      split.
      { constructor; [rewrite Hpy; apply floor_progress_mono|].
        eapply Forall_impl; [exact Hlow'|]. intros p Hp. simpl in Hp.
        pose proof (floor_progress_mono total i). lia. }
      split.
      { intros k p [[= -> ->]|Hin]%elem_of_cons; [|by apply Hrep].
        rewrite Hpy. f_equal. lia. }
      intros [|k] song' Hsong' Hok.
      * rewrite Nat.add_0_r, Hpy. apply elem_of_cons. by left.
      * apply elem_of_cons. right.
        replace (i + S k) with (S i + k) by lia. apply (Hex k song'); [done|].
        by replace (S i + k) with (i + S k) by lia.
    + exists vals, reps. rewrite Hvals, Hreps, Hpv, Hrp.
      split; [done|]. split; [done|]. split; [done|].
      split.
      { eapply Forall_impl; [exact Hlow'|]. intros p Hp. simpl in Hp.
        pose proof (floor_progress_mono total i). lia. }
      split; [done|].
      intros [|k] song' Hsong' [res Hok].
      * rewrite Nat.add_0_r in Hok. simpl in Hsong'.
        injection Hsong' as <-. congruence.
      * replace (i + S k) with (S i + k) by lia. apply (Hex k song'); [done|].
        exists res. by replace (S i + k) with (i + S k) by lia.
Qed.

Lemma attach_playlist_progress env id dir total l w :
  progress_values (trace (attach_playlist env id dir total l w))
  = progress_values (trace w) ∧
  reports (trace (attach_playlist env id dir total l w)) = reports (trace w).
Proof.
  unfold attach_playlist.
  destruct ((1 <? total) && (0 <? n_completed l)); [|done].
  destruct (List.filter is_song_completed (downloaded_songs l)); [done|].
  destruct (playlist_error env); [done|].
  rewrite progress_values_store, reports_store. simpl.
  rewrite !app_nil_r. split; [done|].
  unfold report. simpl. destruct (downloaded_songs l); by rewrite app_nil_r.
Qed.

(** The records of the only song of a single-song job. *)
Lemma process_song_single id dir env song l w :
  has_title_artist song →
  let a := process_song id dir 1 0 env song l w in
  match download_song_async (download env) song dir with
  | Ok (_, (success, _)) =>
      progress_values (trace (attempt_world a))
      = progress_values (trace w)
        ++ [10; 25]%Z ++ (if success then [75%Z] else []) ++ [100%Z] ∧
      reports (trace (attempt_world a))
      = reports (trace w) ++ [(S (length (downloaded_songs l)), 100%Z)]
  | Raise _ =>
      progress_values (trace (attempt_world a))
      = progress_values (trace w) ++ [10; 25]%Z ∧
      reports (trace (attempt_world a)) = reports (trace w)
  end.
Proof.
  intros Hsong a. subst a. unfold process_song.
  rewrite bool_decide_eq_true_2 by done.
  assert (py_progress 0 1 = 100%Z) as Hpy by (vm_compute; reflexivity).
  destruct (download_song_async (download env) song dir)
    as [[log [[|] result_msg]]|e].
  - destruct (outcome_of_ok song (Some result_msg) None song_completed Hsong)
      as (o & -> & _).
    cbn [attempt_world downloaded_songs n_completed n_failed].
    rewrite progress_values_store, reports_store, report_in_progress.
    rewrite progress_values_serve_cancel, reports_serve_cancel.
    rewrite progress_values_store, reports_store.
    rewrite progress_values_serve_cancel, reports_serve_cancel.
    cbn [trace]. rewrite progress_values_acquired, reports_acquired.
    rewrite progress_values_store, reports_store.
    rewrite progress_values_serve_cancel, reports_serve_cancel.
    rewrite progress_values_store, reports_store.
    rewrite Hpy. simpl. rewrite !app_nil_r, <- !app_assoc. done.
  - destruct (outcome_of_ok song None (Some result_msg) song_failed Hsong)
      as (o & -> & _).
    cbn [attempt_world downloaded_songs n_completed n_failed].
    rewrite progress_values_store, reports_store, report_in_progress.
    rewrite progress_values_serve_cancel, reports_serve_cancel.
    cbn [trace]. rewrite progress_values_acquired, reports_acquired.
    rewrite progress_values_store, reports_store.
    rewrite progress_values_serve_cancel, reports_serve_cancel.
    rewrite progress_values_store, reports_store.
    rewrite Hpy. simpl. rewrite !app_nil_r, <- !app_assoc. done.
  - cbn [attempt_world].
    rewrite progress_values_serve_cancel, reports_serve_cancel.
    rewrite progress_values_store, reports_store.
    rewrite progress_values_serve_cancel, reports_serve_cancel.
    rewrite progress_values_store, reports_store.
    simpl. rewrite !app_nil_r, <- !app_assoc. done.
Qed.

Ltac solve_nondecreasing :=
  repeat (apply nondecreasing_cons; [repeat constructor; lia|]);
  apply nondecreasing_nil.

(** For a job of one to twenty songs that carry a title and an artist,
    the progress values of the successive records that carry one never go
    down, and every record that lists [k] outcomes and carries a progress
    carries [floor(k * 100 / n)]; such a record is stored after each song
    whose call returns.  Nothing is said here of the records without a
    progress, nor of the songs whose call raises. *)
Lemma progress_monotone_floor (env : runner_env)
    (output_dir download_id : string) (songs : list pydict) (w : world) :
  1 ≤ length songs ≤ 20 →
  Forall has_title_artist songs →
  let r := process_song_download env output_dir download_id songs w in
  let n := Z.of_nat (length songs) in
  ∃ vals reps,
    progress_values (trace (run_world r)) = progress_values (trace w) ++ vals ∧
    nondecreasing vals ∧
    reports (trace (run_world r)) = reports (trace w) ++ reps ∧
    (∀ k p, (k, p) ∈ reps → p = (Z.of_nat k * 100 / n)%Z) ∧
    (∀ i song, songs !! i = Some song →
       (∃ res, download_song_async (download (song_envs env i)) song
                 output_dir = Ok res) →
       (S i, ((Z.of_nat i + 1) * 100 / n)%Z) ∈ reps).
Proof.
  intros Hlen Hsongs r n.
  destruct (decide (length songs = 1)) as [Hone|Hmany].
  - destruct songs as [|song [|? ?]]; try done. subst r n.
    apply Forall_cons in Hsongs as [Hsong _].
    rewrite single_song_run_world.
    pose proof (process_song_single download_id output_dir (song_envs env 0)
                  song
                  {| n_completed := 0; n_failed := 0; downloaded_songs := [] |}
                  (store download_id (in_progress 1 0 0 0 [] downloading) w)
                  Hsong) as Hstep.
    cbv zeta in Hstep.
    rewrite progress_values_store, reports_store in Hstep.
    simpl in Hstep. rewrite app_nil_r in Hstep.
    destruct (download_song_async (download (song_envs env 0)) song output_dir)
      as [[log [success result_msg]]|e] eqn:Hcall;
      destruct Hstep as [Hpv Hrp]; rewrite Hpv, Hrp, <- !app_assoc.
    + eexists _, [(1, 100%Z)]. split; [reflexivity|].
      split; [destruct success; simpl; solve_nondecreasing|].
      split; [done|]. split.
      * by intros k p [= -> ->]%list_elem_of_singleton.
      * intros [|i] song' Hsong' _; [|done]. apply list_elem_of_singleton.
        done.
    + eexists _, []. split; [reflexivity|].
      split; [simpl; solve_nondecreasing|].
      split; [by rewrite app_nil_r|]. split; [by intros k p ?%elem_of_nil|].
      intros [|i] song' Hsong' [res Hres]; [|done].
      injection Hsong' as <-. congruence.
  - subst r. unfold process_song_download.
    set (w0 := store download_id _ w).
    set (l0 := {| n_completed := 0; n_failed := 0; downloaded_songs := [] |}).
    destruct (run_songs_outcomes download_id output_dir (length songs)
                (song_envs env) songs 0 l0 w0 Hsongs eq_refl eq_refl)
      as (Hab & _).
    rewrite Hab. cbn [run_world].
    destruct (attach_playlist_progress env download_id output_dir
                (length songs)
                (run_locals (run_songs download_id output_dir (length songs)
                               (song_envs env) 0 songs l0 w0))
                (run_world (run_songs download_id output_dir (length songs)
                              (song_envs env) 0 songs l0 w0)))
      as [-> ->].
    destruct (run_songs_progress download_id output_dir (length songs)
                (song_envs env) songs 0 l0 w0 Hmany Hlen Hsongs eq_refl
                eq_refl)
      as (vals & reps & Hvals & Hreps & Hnd & Hlow & Hrep & Hex).
    exists (0%Z :: vals), reps. subst w0.
    rewrite Hvals, Hreps, progress_values_store, reports_store.
    simpl. rewrite app_nil_r, <- app_assoc.
    split; [done|]. split; [by apply nondecreasing_cons|].
    split; [done|]. split; [done|]. exact Hex.
Qed.

Lemma progress_monotone_floor_witness :
  1 ≤ length [one_more_time; aerodynamic] ≤ 20 ∧
  Forall has_title_artist [one_more_time; aerodynamic] ∧
  ∃ vals reps,
    progress_values
      (trace (run_world
                (process_song_download first_raises "downloaded_music"
                   "job-1" [one_more_time; aerodynamic] empty_world)))
    = progress_values (trace empty_world) ++ vals ∧
    nondecreasing vals ∧
    reports
      (trace (run_world
                (process_song_download first_raises "downloaded_music"
                   "job-1" [one_more_time; aerodynamic] empty_world)))
    = reports (trace empty_world) ++ reps.
Proof.
  assert (Hlen : 1 ≤ length [one_more_time; aerodynamic] ≤ 20)
    by (simpl; lia).
  assert (Hsongs : Forall has_title_artist [one_more_time; aerodynamic]).
  { repeat constructor; by eexists. }
  split; [exact Hlen|]. split; [exact Hsongs|].
  destruct (progress_monotone_floor first_raises "downloaded_music" "job-1"
              [one_more_time; aerodynamic] empty_world Hlen Hsongs)
    as (vals & reps & H1 & H2 & H3 & _).
  exists vals, reps. auto.
Defined.

Example album_progress :
  progress_values
    (trace (run_world
              (process_song_download both_fine "downloaded_music" "job-1"
                 [one_more_time; aerodynamic] empty_world)))
  = [0; 50; 100]%Z.
Proof. by vm_compute. Qed.

Example single_song_progress :
  progress_values
    (trace (run_world
              (download_song_endpoint both_fine false "downloaded_music"
                 "job-1" bad_guy empty_world)))
  = [0; 10; 25; 75; 100]%Z.
Proof. by vm_compute. Qed.

(** ** Jobs created by the endpoints *)

Lemma track_info_has_title_artist title artist album query number :
  has_title_artist (track_info title artist album query number).
Proof. destruct number; split; by eexists. Qed.

Lemma directory_tracks_well_formed artist_clean album_clean tracks :
  ∀ found, directory_tracks artist_clean album_clean tracks = Ok found →
           Forall has_title_artist found.
Proof.
  induction tracks as [|track tracks IH]; intros found; simpl.
  - by intros [= <-].
  - destruct (dt_recording track) as [[title|]|]; [|done|by apply IH].
    destruct (directory_tracks artist_clean album_clean tracks) as [others|];
      cbn [mbind result_bind]; [|done].
    intros [= <-]. constructor; [split; by eexists|]. by apply IH.
Qed.

Lemma synthetic_tracks_well_formed artist_clean album_clean :
  Forall has_title_artist (synthetic_tracks artist_clean album_clean).
Proof. repeat constructor; by eexists. Qed.

(** Every song that an endpoint hands to the runner carries a title and an
    artist, and a job has between one and twenty songs. *)
Lemma song_dict_well_formed request : has_title_artist (song_dict request).
Proof. split; by eexists. Qed.

Lemma get_album_tracks_well_formed env artist album :
  Forall has_title_artist (get_album_tracks env artist album).
Proof.
  unfold get_album_tracks.
  destruct (album_tracks_body env artist album) as [tracks|e] eqn:Hbody.
  2: { repeat constructor; by eexists. }
  unfold album_tracks_body in Hbody.
  destruct (match search_reply env with HttpRaised e => _ | _ => _ end)
    as [found|e] eqn:Hfound; cbn [mbind result_bind] in Hbody; [|done].
  destruct found as [|track found]; injection Hbody as <-.
  { apply synthetic_tracks_well_formed. }
  destruct (search_reply env) as [e|code releases]; [done|].
  destruct (code =? 200)%Z; [|done].
  destruct releases as [|[release_id|] ?]; try done.
  destruct (detail_reply env) as [e|detail_code media]; [done|].
  destruct (detail_code =? 200)%Z; [|done].
  by eapply directory_tracks_well_formed.
Qed.

(** ** Sample jobs on which the runner departs from the specification *)

(** C1. A job of two songs whose cancellation is accepted during the pause
    after the first song: the runner still hands the second song to yt-dlp
    and overwrites the cancelled record, which ends as completed. *)
Theorem cancelled_job_keeps_running :
  final_timeline (discovery cancel_after_first)
  = [ Status searching_tracks; Status starting; Status downloading;
      Download 0; Status downloading;
      Cancel true; Status cancelled;
      Download 1; Status completed; Status completed ] ∧
  status <$> final_record (discovery cancel_after_first) = Some completed.
Proof. split; by vm_compute. Qed.

(** The record stored by an accepted cancellation holds the status only: the
    outcomes stored before are gone from the record. *)
Example cancellation_drops_outcomes (download_id : string)
    (db : gmap string job) (record : job) :
  db !! download_id = Some record → status record = downloading →
  (cancel_download_status download_id db).1 !! download_id
  = Some (status_only cancelled).
Proof.
  intros Hrecord Hstatus. unfold cancel_download_status, get_download_status.
  rewrite Hrecord, Hstatus. simpl. apply lookup_insert_eq.
Qed.

(** C2. A job of two songs, the first downloaded and the second not: the
    loop ends with one failure and the status error, and the playlist step
    then stores the status completed. *)
Theorem partial_album_ends_completed :
  final_timeline (discovery second_fails)
  = [ Status searching_tracks; Status starting; Status downloading;
      Download 0; Status downloading;
      Download 1; Status error; Status completed ] ∧
  match discovery second_fails with
  | inr r =>
      n_completed (run_locals r) = 1 ∧ n_failed (run_locals r) = 1 ∧
      status <$> get_download_status "job-1" (db (run_world r))
      = Some completed ∧
      playlist_path <$> get_download_status "job-1" (db (run_world r))
      = Some (Some "downloaded_music/job-1.m3u")
  | inl _ => False
  end.
Proof. split; by vm_compute. Qed.

(** A job whose only song raises is never given a final status. *)
Example raising_song_stays_downloading :
  let r :=
    download_song_endpoint only_song_raises false "downloaded_music" "job-1"
      bad_guy empty_world in
  n_failed (run_locals r) = 1 ∧
  (fun record => (status record, progress record, songs record))
  <$> get_download_status "job-1" (db (run_world r))
  = Some (downloading, Some 25%Z, Some []).
Proof. split; by vm_compute. Qed.

(** C3. The record stored last for an album, by the playlist step, has the
    status completed and the song list, and none of the counters; it has the
    status completed even when the song list holds a failed song. *)
Theorem completed_album_loses_counters :
  (fun record =>
     (status record, map out_status <$> songs record, total_songs record,
      completed_songs record, failed_songs record, progress record))
  <$> final_record (discovery both_fine)
  = Some (completed, Some [song_completed; song_completed],
          None, None, None, None) ∧
  (fun record =>
     (status record, map out_status <$> songs record, total_songs record,
      completed_songs record, failed_songs record, progress record))
  <$> final_record (discovery second_fails)
  = Some (completed, Some [song_completed; song_failed],
          None, None, None, None).
Proof. split; by vm_compute. Qed.

(** C4. The progress of a job does not stay where the loop left it.  For an
    album of two songs that are both downloaded, the successive records
    carry no progress, no progress, 0, 50, 100 and then, stored by the
    playlist step, no progress again: the status endpoint answers 100 and
    then nothing.  For a single song whose call raises, the handler stores
    nothing: the last record carries 25 although the only song has been
    processed, not [floor(1 / 1 * 100) = 100]; and in an album whose first
    song raises, no record carries the 50 of that song. *)
Theorem progress_lost_after_completion :
  map (fun record => (status record, progress record))
    (stored_records (discovery both_fine))
  = [ (searching_tracks, None); (starting, None); (downloading, Some 0%Z);
      (downloading, Some 50%Z); (completed, Some 100%Z); (completed, None) ] ∧
  (let r :=
     download_song_endpoint only_song_raises false "downloaded_music" "job-1"
       bad_guy empty_world in
   run_aborted r = None ∧
   length (downloaded_songs (run_locals r)) = 1 ∧
   map (fun record => (status record, progress record))
     (snapshots (trace (run_world r)))
   = [ (starting, None); (downloading, Some 0%Z); (downloading, Some 10%Z);
       (downloading, Some 25%Z) ]) ∧
  map (fun record => (status record, progress record))
    (stored_records (discovery first_raises))
  = [ (searching_tracks, None); (starting, None); (downloading, Some 0%Z);
      (error, Some 100%Z); (completed, None) ].
Proof. split; [|split]; by vm_compute. Qed.

(** C8. An exception raised by the call for a song is caught and the loop
    goes on, but the handler only appends the failure to the runner's own
    list and never stores it.  In an album of two songs where nothing is
    found for the first and the call for the second raises, the runner ends
    with two failures in its list, the second with the text of the
    exception; the record of the job lists the first song only, counts one
    failure and keeps the status downloading with progress 50, and this is
    what the status endpoint answers from then on.  A job whose only song
    raises keeps an empty song list and the progress 25. *)
Theorem raised_exception_never_stored :
  match discovery second_raises with
  | inr r =>
      run_aborted r = None ∧
      n_completed (run_locals r) = 0 ∧ n_failed (run_locals r) = 2 ∧
      map (fun o => (out_title o, out_status o))
        (downloaded_songs (run_locals r))
      = [ (VStr "One More Time", song_failed);
          (VStr "Aerodynamic", song_error) ] ∧
      out_error <$> downloaded_songs (run_locals r) !! 1
      = Some (Some "[Errno 5] Input/output error")
  | inl _ => False
  end ∧
  (∃ answer,
     final_answer (discovery second_raises) = Returned answer ∧
     sr_status answer = "downloading" ∧
     sr_progress answer = Some 50%Z ∧
     sr_total_songs answer = Some 2 ∧
     sr_completed_songs answer = Some 0 ∧
     (map (fun o => (out_title o, out_status o)) <$> sr_songs answer)
     = Some [ (VStr "One More Time", song_failed) ]) ∧
  (fun record => failed_songs record) <$> final_record (discovery second_raises)
  = Some (Some 1) ∧
  (let r :=
     download_song_endpoint only_song_raises false "downloaded_music" "job-1"
       bad_guy empty_world in
   map (fun o => (out_status o, out_error o)) (downloaded_songs (run_locals r))
   = [ (song_error, Some "[Errno 5] Input/output error") ] ∧
   ∃ answer,
     get_download_status_endpoint "job-1" (db (run_world r)) = Returned answer ∧
     sr_status answer = "downloading" ∧
     sr_progress answer = Some 25%Z ∧
     sr_songs answer = Some []).
Proof.
  split; [by vm_compute|]. split.
  { eexists. split; [by vm_compute|]. by vm_compute. }
  split; [by vm_compute|]. split; [by vm_compute|].
  eexists. split; [by vm_compute|]. by vm_compute.
Qed.

(** The text of the exception is that of Python: a song whose artist is a
    number, and which has no query of its own, fails on [.strip()]. *)
Example numbered_artist_error :
  download_song_async (download_fine tagging_fine) numbered_artist
    "downloaded_music"
  = Raise "'int' object has no attribute 'strip'".
Proof. by vm_compute. Qed.

(** * Further properties of the service *)

(** ** The job store and its endpoints *)

(** X1. A cancellation is accepted exactly for a stored job whose status is
    starting or downloading.  An accepted one leaves the status cancelled
    and nothing else in the record, a refused one leaves the store as it
    was; no other job is touched, and a cancellation asked again is
    refused. *)
Theorem cancel_only_in_progress (download_id : string) (db : gmap string job) :
  let db' := (cancel_download_status download_id db).1 in
  let accepted := (cancel_download_status download_id db).2 in
  (accepted = true ↔
   ∃ record, db !! download_id = Some record ∧
             (status record = starting ∨ status record = downloading)) ∧
  (accepted = true → db' !! download_id = Some (status_only cancelled)) ∧
  (accepted = false → db' = db) ∧
  (∀ other, other ≠ download_id → db' !! other = db !! other) ∧
  cancel_download_status download_id db' = (db', false).
Proof.
  unfold cancel_download_status, get_download_status, update_download_status.
  destruct (db !! download_id) as [record|] eqn:Hrecord; simpl.
  - destruct (cancellable (status record)) eqn:Hc; simpl.
    + split; [|split; [|split; [|split]]].
      * split; [|done]. intros _. exists record. split; [done|].
        destruct (status record); simpl in Hc; try done; auto.
      * intros _. apply lookup_insert_eq.
      * done.
      * intros other Hother. by rewrite lookup_insert_ne.
      * by rewrite lookup_insert_eq.
    + split; [|split; [|split; [|split]]]; try done.
      * split; [done|]. intros (record' & [= <-] & [Hs|Hs]);
          rewrite Hs in Hc; done.
      * by rewrite Hrecord, Hc.
  - split; [|split; [|split; [|split]]]; try done.
    + split; [done|]. by intros (record & ? & _).
    + by rewrite Hrecord.
Qed.

Lemma cancel_only_in_progress_witness :
  (∃ record,
     (<["job-1" := status_only downloading]> ∅ : gmap string job) !! "job-1"
     = Some record ∧
     (status record = starting ∨ status record = downloading)) ∧
  (cancel_download_status "job-1"
     (<["job-1" := status_only downloading]> ∅)).2 = true.
Proof.
  assert (H : ∃ record,
     (<["job-1" := status_only downloading]> ∅ : gmap string job) !! "job-1"
     = Some record ∧
     (status record = starting ∨ status record = downloading)).
  { exists (status_only downloading). split; [reflexivity|by right]. }
  split; [exact H|].
  exact (proj2 (proj1 (cancel_only_in_progress "job-1"
                         (<["job-1" := status_only downloading]> ∅))) H).
Defined.

(** X2. The cancel endpoint answers with the message of success exactly when
    the cancellation is accepted; otherwise it raises 404 for an unknown
    job and 400, naming the current status, for a job in any other status,
    and it leaves the store unchanged. *)
Theorem cancel_endpoint_answers (download_id : string) (db : gmap string job) :
  match db !! download_id with
  | None =>
      cancel_download_endpoint download_id db
      = (db, HTTPException 404 "Download not found")
  | Some record =>
      if cancellable (status record) then
        cancel_download_endpoint download_id db
        = (<[download_id := status_only cancelled]> db,
           Returned ("Download " +:+ download_id
                     +:+ " cancelled successfully"))
      else
        cancel_download_endpoint download_id db
        = (db,
           HTTPException 400
             ("Cannot cancel download in status '"
              +:+ status_name (status record)
              +:+ "'. Only starting/downloading downloads can be cancelled."))
  end.
Proof.
  unfold cancel_download_endpoint, cancel_download_status,
    get_download_status, update_download_status.
  destruct (db !! download_id) as [record|] eqn:Hrecord.
  - destruct (cancellable (status record)); [done|]. by rewrite Hrecord.
  - by rewrite Hrecord.
Qed.


(** ** The records stored by the runner *)

Lemma snapshots_store id record w :
  snapshots (trace (store id record w)) = snapshots (trace w) ++ [record].
Proof. simpl. by rewrite snapshots_app. Qed.

Lemma Forall_snapshots_store (Q : job → Prop) id record w :
  Q record → Forall Q (snapshots (trace w)) →
  Forall Q (snapshots (trace (store id record w))).
Proof.
  intros Hrecord Hw. rewrite snapshots_store. apply Forall_app. by split; [|constructor].
Qed.

Lemma Forall_snapshots_serve_cancel (Q : job → Prop) id requested w :
  Q (status_only cancelled) → Forall Q (snapshots (trace w)) →
  Forall Q (snapshots (trace (serve_cancel id requested w))).
Proof.
  intros Hc Hw. unfold serve_cancel. destruct requested; [|done].
  destruct (cancel_download_status id (db w)) as [db' [|]]; simpl;
    rewrite snapshots_app; apply Forall_app; (split; [done|]);
    by repeat constructor.
Qed.

Lemma Forall_snapshots_acquired (Q : job → Prop) (w : world) i log :
  Forall Q (snapshots (trace w)) →
  Forall Q (snapshots (trace w ++ [Acquired i log])).
Proof. intros Hw. rewrite snapshots_app. simpl. by rewrite app_nil_r. Qed.

Lemma outcome_of_status song filepath error_ st o :
  outcome_of song filepath error_ st = Ok o → out_status o = st.
Proof.
  unfold outcome_of, getitem.
  destruct (song !! "title"); cbn [mbind result_bind]; [|done].
  destruct (song !! "artist"); cbn [mbind result_bind]; [|done].
  by intros [= <-].
Qed.


(** One turn of the loop keeps a property of the stored records, provided
    the records that it may store have it. *)
Lemma process_song_keeps (Q : job → Prop) id dir total i env song l w :
  Q (status_only cancelled) →
  (total = 1 →
   Q (in_progress 1 0 0 10 [] downloading) ∧
   Q (in_progress 1 0 0 25 [] downloading) ∧
   Q (in_progress 1 0 0 75 [] downloading)) →
  (∀ o, out_status o ≠ song_error → Q (record_after total i l o)) →
  Forall Q (snapshots (trace w)) →
  Forall Q
    (snapshots (trace (attempt_world (process_song id dir total i env song l w)))).
Proof.
  intros Hc Hsingle Hafter Hw. unfold process_song.
  set (single := bool_decide (total = 1)).
  set (w1 := if single then _ else w).
  assert (Hw1 : Forall Q (snapshots (trace w1))).
  { subst w1 single. case_bool_decide as Ht; [|done].
    destruct (Hsingle Ht) as (H10 & H25 & _).
    by apply Forall_snapshots_store, Forall_snapshots_serve_cancel,
      Forall_snapshots_store. }
  clearbody w1.
  destruct (download_song_async (download env) song dir)
    as [[log [success result_msg]]|e]; cbn [attempt_world].
  2: { by apply Forall_snapshots_serve_cancel. }
  set (w2 := serve_cancel id (cancel_at env during_download) _).
  assert (Hw2 : Forall Q (snapshots (trace w2))).
  { subst w2. apply Forall_snapshots_serve_cancel; [done|]. cbn [trace].
    by apply Forall_snapshots_acquired. }
  clearbody w2.
  destruct success.
  - set (w3 := if single then _ else w2).
    assert (Hw3 : Forall Q (snapshots (trace w3))).
    { subst w3 single. case_bool_decide as Ht; [|done].
      destruct (Hsingle Ht) as (_ & _ & H75).
      by apply Forall_snapshots_serve_cancel, Forall_snapshots_store. }
    clearbody w3.
    destruct (outcome_of song (Some result_msg) None song_completed)
      as [o|e] eqn:Ho; cbn [attempt_world]; [|done].
    apply outcome_of_status in Ho.
    assert (Hw4 : Forall Q (snapshots (trace (store id
              (record_after total i l o) w3)))).
    { apply Forall_snapshots_store; [|done]. apply Hafter. by rewrite Ho. }
    unfold record_after, is_song_completed in Hw4. rewrite Ho in Hw4.
    rewrite bool_decide_eq_true_2 in Hw4 by done.
    destruct single; [done|]. by apply Forall_snapshots_serve_cancel.
  - destruct (outcome_of song None (Some result_msg) song_failed)
      as [o|e] eqn:Ho; cbn [attempt_world]; [|done].
    apply outcome_of_status in Ho.
    assert (Hw4 : Forall Q (snapshots (trace (store id
              (record_after total i l o) w2)))).
    { apply Forall_snapshots_store; [|done]. apply Hafter. by rewrite Ho. }
    unfold record_after, is_song_completed in Hw4. rewrite Ho in Hw4.
    rewrite bool_decide_eq_false_2 in Hw4 by done.
    destruct single; [done|]. by apply Forall_snapshots_serve_cancel.
Qed.

(** One turn of the loop, handler included, with the world that it leaves. *)
Lemma run_songs_unfold id dir total envs i song rest l w :
  has_title_artist song →
  ∃ o,
    records song (download_song_async (download (envs i)) song dir) o ∧
    run_songs id dir total envs i (song :: rest) l w
    = run_songs id dir total envs (S i) rest (locals_after l o)
        (attempt_world (process_song id dir total i (envs i) song l w)).
Proof.
  intros Hsong. cbn [run_songs]. unfold process_song, records, locals_after.
  set (w1 := if bool_decide (total = 1) then _ else w). clearbody w1.
  destruct (download_song_async (download (envs i)) song dir)
    as [[log [[|] result_msg]]|e].
  - destruct (outcome_of_ok song (Some result_msg) None song_completed Hsong)
      as (o & -> & Ht & Ha & Hal & Hf & He & Hs).
    exists o. split; [done|]. unfold is_song_completed. rewrite Hs.
    reflexivity.
  - destruct (outcome_of_ok song None (Some result_msg) song_failed Hsong)
      as (o & -> & Ht & Ha & Hal & Hf & He & Hs).
    exists o. split; [done|]. unfold is_song_completed. rewrite Hs.
    reflexivity.
  - destruct (outcome_of_ok song None (Some e) song_error Hsong)
      as (o & -> & Ht & Ha & Hal & Hf & He & Hs).
    exists o. split; [done|]. unfold is_song_completed. rewrite Hs.
    reflexivity.
Qed.

Lemma status_after_spec total n_ok n_ko :
  (status_after total n_ok n_ko = downloading ↔ n_ok + n_ko < total) ∧
  (n_ok + n_ko ≤ total →
   (status_after total n_ok n_ko = completed ↔
    n_ok + n_ko = total ∧ n_ko = 0) ∧
   (status_after total n_ok n_ko = error ↔ n_ok + n_ko = total ∧ 0 < n_ko)).
Proof.
  unfold status_after.
  destruct (Nat.ltb_spec (n_ok + n_ko) total);
    destruct (Nat.ltb_spec 0 n_ko); repeat split; intros; try done; lia.
Qed.

Lemma in_progress_consistent total n_ok n_ko p l :
  0 < total →
  n_ok = count_completed l → n_ko = count_not_completed l →
  n_ok + n_ko = length l → length l ≤ total →
  record_consistent total
    (in_progress total n_ok n_ko p l (status_after total n_ok n_ko)).
Proof.
  intros Htotal Hok Hko Hsum Hlen t c f [= <-] [= <-] [= <-].
  exists l. cbn [songs status in_progress].
  destruct (status_after_spec total n_ok n_ko) as [Hd Hrest].
  destruct Hrest as [Hc He]; [lia|].
  split; [done|]. split; [done|]. split; [done|]. split; [done|].
  split; [done|]. split; [lia|]. split; [exact Hd|]. by split.
Qed.

Lemma starting_record_consistent total p :
  0 < total →
  record_consistent total (in_progress total 0 0 p [] downloading).
Proof.
  intros Htotal.
  pose proof (in_progress_consistent total 0 0 p [] Htotal eq_refl eq_refl
                eq_refl) as H.
  replace (status_after total 0 0) with downloading in H; [apply H; simpl; lia|].
  unfold status_after. simpl. destruct (Nat.ltb_spec 0 total); [done|lia].
Qed.

Lemma run_songs_keeps (Q : job → Prop) id dir total envs songs : ∀ i l w,
  Forall has_title_artist songs →
  Q (status_only cancelled) →
  (total = 1 →
   Q (in_progress 1 0 0 10 [] downloading) ∧
   Q (in_progress 1 0 0 25 [] downloading) ∧
   Q (in_progress 1 0 0 75 [] downloading)) →
  (∀ p l, n_completed l = count_completed (downloaded_songs l) →
          n_failed l = count_not_completed (downloaded_songs l) →
          length (downloaded_songs l) ≤ total →
          Q (in_progress total (n_completed l) (n_failed l) p
               (downloaded_songs l)
               (status_after total (n_completed l) (n_failed l)))) →
  n_completed l = count_completed (downloaded_songs l) →
  n_failed l = count_not_completed (downloaded_songs l) →
  length (downloaded_songs l) = i →
  i + length songs = total →
  Forall Q (snapshots (trace w)) →
  Forall Q
    (snapshots (trace (run_world (run_songs id dir total envs i songs l w)))).
Proof.
  induction songs as [|song rest IH];
    intros i l w Hsongs Hc Hsingle Hloop Hok Hko Hl Hlen Hw; [done|].
  apply Forall_cons in Hsongs as [Hsong Hrest]. simpl in Hlen.
  destruct (run_songs_unfold id dir total envs i song rest l w Hsong)
    as (o & _ & ->).
  assert (Hok' : n_completed (locals_after l o)
                 = count_completed (downloaded_songs (locals_after l o))).
  { cbn [locals_after n_completed downloaded_songs].
    rewrite count_completed_snoc, Hok. by destruct (is_song_completed o). }
  assert (Hko' : n_failed (locals_after l o)
                 = count_not_completed (downloaded_songs (locals_after l o))).
  { cbn [locals_after n_failed downloaded_songs].
    rewrite count_not_completed_snoc, Hko. by destruct (is_song_completed o). }
  assert (Hl' : length (downloaded_songs (locals_after l o)) = S i).
  { cbn [locals_after downloaded_songs]. rewrite length_app. simpl. lia. }
  apply IH; try done; [lia|].
  apply process_song_keeps; try done.
  intros o' _. apply (Hloop (py_progress i total) (locals_after l o')).
  - cbn [locals_after n_completed downloaded_songs].
    rewrite count_completed_snoc, Hok. by destruct (is_song_completed o').
  - cbn [locals_after n_failed downloaded_songs].
    rewrite count_not_completed_snoc, Hko. by destruct (is_song_completed o').
  - cbn [locals_after downloaded_songs]. rewrite length_app. simpl. lia.
Qed.

Lemma Forall_snapshots_attach_playlist (Q : job → Prop) env id dir total l w :
  (∀ record, total_songs record = None → Q record) →
  Forall Q (snapshots (trace w)) →
  Forall Q (snapshots (trace (attach_playlist env id dir total l w))).
Proof.
  intros Hq Hw. unfold attach_playlist.
  destruct ((1 <? total) && (0 <? n_completed l)); [|done].
  destruct (List.filter is_song_completed (downloaded_songs l)); [done|].
  destruct (playlist_error env); [done|].
  apply Forall_snapshots_store; [|done]. by apply Hq.
Qed.

(** X4. Every record that the runner stores for a job of songs with a title
    and an artist, and that carries the three counters, agrees with itself:
    the total is the number of songs, the completed and failed counts count
    the entries of the song list of the record, their sum never exceeds the
    total, and the status is downloading below the total, completed at the
    total without a failure and error at the total with one. *)
Theorem stored_records_consistent (env : runner_env)
    (output_dir download_id : string) (songs : list pydict) (w : world) :
  songs ≠ [] →
  Forall has_title_artist songs →
  ∀ record,
    record ∈ snapshots
      (trace (run_world
                (process_song_download env output_dir download_id songs w))) →
    record ∈ snapshots (trace w) ∨ record_consistent (length songs) record.
Proof.
  intros Hne Hsongs.
  set (total := length songs).
  assert (Htotal : 0 < total) by (subst total; destruct songs; simpl; [done|lia]).
  set (Q := fun record =>
              record ∈ snapshots (trace w) ∨ record_consistent total record).
  assert (Hvac : ∀ record, total_songs record = None → Q record).
  { intros record Hnone. right. intros t c f Ht. congruence. }
  enough (Forall Q (snapshots (trace (run_world
            (process_song_download env output_dir download_id songs w)))))
    as H by (by rewrite Forall_forall in H).
  unfold process_song_download. fold total.
  set (w0 := store download_id _ w).
  set (l0 := {| n_completed := 0; n_failed := 0; downloaded_songs := [] |}).
  destruct (run_songs_outcomes download_id output_dir total
              (song_envs env) songs 0 l0 w0 Hsongs eq_refl eq_refl)
    as (-> & _).
  cbn [run_world]. apply Forall_snapshots_attach_playlist; [done|].
  apply run_songs_keeps; try done.
  - by apply Hvac.
  - intros Hone. rewrite <- Hone.
    repeat split; right; by apply starting_record_consistent.
  - intros p l Hok Hko Hlen. right.
    apply in_progress_consistent; try done.
    rewrite Hok, Hko. unfold count_completed, count_not_completed.
    clear. induction (downloaded_songs l) as [|o l' IH]; simpl; [done|].
    destruct (is_song_completed o); simpl; lia.
  - subst w0. apply Forall_snapshots_store.
    + right. by apply starting_record_consistent.
    + apply Forall_forall. intros record Hin. by left.
Qed.

Lemma stored_records_consistent_witness :
  [one_more_time; aerodynamic] ≠ [] ∧
  Forall has_title_artist [one_more_time; aerodynamic] ∧
  ∀ record,
    record ∈ snapshots
      (trace (run_world
                (process_song_download second_fails "downloaded_music"
                   "job-1" [one_more_time; aerodynamic] empty_world))) →
    record ∈ snapshots (trace empty_world) ∨ record_consistent 2 record.
Proof.
  assert (Hne : [one_more_time; aerodynamic] ≠ []) by discriminate.
  assert (Hsongs : Forall has_title_artist [one_more_time; aerodynamic]).
  { repeat constructor; by eexists. }
  split; [exact Hne|]. split; [exact Hsongs|].
  exact (stored_records_consistent second_fails "downloaded_music" "job-1"
           [one_more_time; aerodynamic] empty_world Hne Hsongs).
Defined.

(** ** Playlists and album requests *)

Lemma no_playlist_store id record w :
  status record ≠ completed ∨ length (default [] (songs record)) ≤ 1 →
  no_playlist id (store id record w).
Proof. intros H. exists record. split; [apply lookup_insert_eq|done]. Qed.

Lemma no_playlist_serve_cancel id requested w :
  no_playlist id w → no_playlist id (serve_cancel id requested w).
Proof.
  intros Hw. unfold serve_cancel. destruct requested; [|done].
  unfold cancel_download_status, get_download_status.
  destruct (db w !! id) as [record|] eqn:Hrecord; [|done].
  destruct (cancellable (status record)); [|done].
  exists (status_only cancelled). split; [apply lookup_insert_eq|by left].
Qed.

Lemma no_playlist_answer id w :
  no_playlist id w →
  ∃ detail, get_playlist_endpoint id (db w) = HTTPException 400 detail.
Proof.
  intros (record & Hrecord & Hwhy).
  unfold get_playlist_endpoint, get_download_status. rewrite Hrecord.
  case_bool_decide as Hs; [|eauto].
  destruct Hwhy as [|Hlen]; [done|].
  destruct (Nat.leb_spec (length (default [] (songs record))) 1); [eauto|lia].
Qed.

(** X5. However the download of a single song goes, and whenever it is
    cancelled, the playlist endpoint answers the job with a 400. *)
Theorem single_song_has_no_playlist (env : runner_env) (cancel_first : bool)
    (output_dir download_id : string) (request : SongRequest) (w : world) :
  ∃ detail,
    get_playlist_endpoint download_id
      (db (run_world
             (download_song_endpoint env cancel_first output_dir download_id
                request w)))
    = HTTPException 400 detail.
Proof.
  apply no_playlist_answer. unfold download_song_endpoint.
  rewrite single_song_run_world. unfold process_song.
  rewrite bool_decide_eq_true_2 by done.
  set (w1 := store download_id (in_progress 1 0 0 25 [] downloading) _).
  assert (Hw1 : no_playlist download_id w1)
    by (apply no_playlist_store; by left).
  clearbody w1.
  destruct (download_song_async _ _ _) as [[log [[|] result_msg]]|e];
    cbn [attempt_world].
  - destruct (outcome_of_ok (song_dict request) (Some result_msg) None
                song_completed (song_dict_well_formed request))
      as (o & -> & _).
    cbn [attempt_world]. apply no_playlist_store. right. simpl. lia.
  - destruct (outcome_of_ok (song_dict request) None (Some result_msg)
                song_failed (song_dict_well_formed request))
      as (o & -> & _).
    cbn [attempt_world]. apply no_playlist_store. right. simpl. lia.
  - by apply no_playlist_serve_cancel.
Qed.

(** X6. An album request is never answered with a 404: it is refused, with a
    400, exactly when the resolver returns more than twenty tracks, and the
    record of the job then stays at searching_tracks; otherwise the job runs
    on the resolved tracks, between one and twenty of them. *)
Theorem album_request_outcome (renv : resolver_env) (env : runner_env)
    (cancel_first : bool) (output_dir download_id artist album : string)
    (w : world) :
  let tracks := get_album_tracks renv (strip artist) (strip album) in
  match download_album_endpoint renv env cancel_first output_dir download_id
          artist album w with
  | inl (code, w') =>
      code = 400%Z ∧ 20 < length tracks ∧
      db w' !! download_id = Some (status_only searching_tracks)
  | inr r =>
      1 ≤ length tracks ≤ 20 ∧
      r = process_song_download env output_dir download_id tracks
            (serve_cancel download_id cancel_first
               (store download_id
                  {| status := starting; total_songs := Some (length tracks);
                     completed_songs := Some 0; failed_songs := None;
                     progress := None; songs := Some [];
                     playlist_path := None |}
                  (store download_id (status_only searching_tracks) w)))
  end.
Proof.
  intros tracks. unfold download_album_endpoint. fold tracks.
  pose proof (album_tracks_body_nonempty renv (strip artist) (strip album))
    as Hbody.
  assert (1 ≤ length tracks) as Hlen.
  { subst tracks. unfold get_album_tracks.
    destruct (album_tracks_body renv (strip artist) (strip album));
      [by eapply Hbody|simpl; lia]. }
  destruct tracks as [|track tracks'] eqn:Htracks; [simpl in Hlen; lia|].
  destruct (Nat.ltb_spec 20 (length (track :: tracks'))).
  - split; [done|]. split; [done|]. apply lookup_insert_eq.
  - split; [lia|done].
Qed.

(** ** The acquisition ladder: pauses, bounds and messages *)

Lemma total_sleep_app l1 l2 :
  total_sleep (l1 ++ l2) = total_sleep l1 + total_sleep l2.
Proof.
  induction l1 as [|e l1 IH]; simpl; [done|]. destruct e; simpl; lia.
Qed.

Lemma download_song_async_inv env song dir log res :
  download_song_async env song dir = Ok (log, res) →
  ∃ artist title queries,
    song !! "artist" = Some artist ∧ song !! "title" = Some title ∧
    search_queries song = Ok queries ∧
    (length queries = 1 ∨ length queries = 5) ∧
    (log, res)
    = try_queries env song (output_path_of dir artist title) (length queries)
        0 queries "No search queries succeeded".
Proof.
  unfold download_song_async, getitem.
  destruct (song !! "artist") as [artist|] eqn:Ha; [|done].
  destruct (song !! "title") as [title|] eqn:Ht; [|done].
  cbn [mbind result_bind]. destruct (dl_unexpected env); [done|].
  destruct (search_queries song) as [queries|] eqn:Hq; [|done].
  cbn [mbind result_bind]. intros [= Hrun].
  exists artist, title, queries. repeat split; try done.
  unfold search_queries in Hq.
  destruct (truthy (dict_get song "query")); [injection Hq as <-; by left|].
  unfold getitem in Hq. rewrite Ha, Ht in Hq. cbn [mbind result_bind] in Hq.
  destruct (as_str _ artist); cbn [mbind result_bind] in Hq; [|done].
  destruct (as_str _ title); cbn [mbind result_bind] in Hq; [|done].
  injection Hq as <-. by right.
Qed.

(** The pauses of the loop from the attempt of index [i], when the list
    ends at index [n]. *)
Lemma try_queries_sleep env song path n queries : ∀ i last_error,
  n = i + length queries →
  let r := try_queries env song path n i queries last_error in
  let k := length (invoked r.1) in
  total_sleep r.1 + 2
  = 2 * (if decide (queries = []) then 1 else k)
    + 5 * length (List.filter forbidden_failure
                    (map (dl_attempts env) (seq i k))).
Proof.
  induction queries as [|q rest IH]; intros i last_error Hn; [done|].
  cbv zeta. rewrite decide_False by done.
  specialize (IH (S i)). simpl in Hn.
  assert (Hpause : (if i <? n - 1 then [Sleep 2] else [])
                   = if decide (rest = []) then [] else [Sleep 2]).
  { destruct rest; simpl in Hn.
    - destruct (Nat.ltb_spec i (n - 1)); [lia|done].
    - destruct (Nat.ltb_spec i (n - 1)); [done|lia]. }
  cbn [try_queries]. rewrite Hpause.
  assert (Hstep : ∀ (l : list effect) last_error',
    invoked l = [] →
    total_sleep l = (if forbidden_failure (dl_attempts env i) then 5 else 0) →
    attempt_succeeds (dl_attempts env i) = false →
    let r := log_then (Invoke q :: l ++ if decide (rest = []) then []
                                        else [Sleep 2])
               (try_queries env song path n (S i) rest last_error') in
    total_sleep r.1 + 2
    = 2 * length (invoked r.1)
      + 5 * length (List.filter forbidden_failure
                      (map (dl_attempts env) (seq i (length (invoked r.1)))))).
  { intros l last_error' Hl Hsl Hfail. cbv zeta.
    specialize (IH last_error' ltac:(lia)). cbv zeta in IH.
    unfold log_then. cbn [fst].
    set (rest_log := (try_queries env song path n (S i) rest last_error').1)
      in *.
    change (Invoke q :: l ++ _) with ([Invoke q] ++ l ++
      (if decide (rest = []) then [] else [Sleep 2])).
    rewrite !invoked_app, Hl, !total_sleep_app, Hsl.
    assert (invoked (if decide (rest = []) then [] else [Sleep 2]) = [])
      as -> by (by destruct (decide (rest = []))).
    destruct (decide (rest = [])) as [->|Hne]; subst rest_log;
      destruct (forbidden_failure (dl_attempts env i)) eqn:Hff;
      simpl in *; rewrite ?Hff; simpl; lia. }
  destruct (dl_attempts env i) as [rc out err file| |] eqn:Hrun.
  - destruct (Z.eqb_spec rc 0) as [->|Hrc]; [destruct file as [size|]|].
    + destruct (0 <? size)%Z eqn:Hsize.
      * simpl. by rewrite ?Hrun.
      * apply (Hstep [RemoveOutput] last_error); try done;
          simpl; by rewrite Hsize.
    + pose proof (Hstep ((if forbidden err then [Sleep 5] else []) ++ [])
                    (detailed_error 0 out err)) as H.
      rewrite <- !app_assoc in H. simpl app in H. simpl app.
      apply H; try done; simpl; by destruct (forbidden err).
    + apply Z.eqb_neq in Hrc.
      pose proof (Hstep ((if forbidden err then [Sleep 5] else [])
                         ++ if is_Some_dec file then [RemoveOutput] else [])
                    (detailed_error rc out err)) as H.
      rewrite <- !app_assoc in H. apply H.
      * rewrite invoked_app. by destruct (forbidden err), (is_Some_dec file).
      * rewrite total_sleep_app. simpl. rewrite ?Hrc. simpl.
        by destruct (forbidden err), (is_Some_dec file).
      * simpl. rewrite ?Hrc. by destruct file.
  - by apply (Hstep [] "Download timeout (10 minutes)").
  - by apply (Hstep [] e).
Qed.

(** X7. A call of the ladder that returns has run yt-dlp between one and
    five times; it has slept two seconds between two consecutive runs and
    not after the last one, and five more seconds after each run that
    failed with a 403 or Forbidden text: at most 33 seconds in all. *)
Theorem ladder_pauses (env : download_env) (song : pydict) (output_dir : string)
    (log : list effect) (res : bool * string) :
  download_song_async env song output_dir = Ok (log, res) →
  let k := length (invoked log) in
  1 ≤ k ≤ 5 ∧
  total_sleep log
  = 2 * (k - 1)
    + 5 * length (List.filter forbidden_failure
                    (map (dl_attempts env) (seq 0 k))) ∧
  total_sleep log ≤ 33.
Proof.
  intros (artist & title & queries & _ & _ & _ & Hlen & Hrun)
    %download_song_async_inv k.
  pose proof (try_queries_sleep env song (output_path_of output_dir artist title)
                (length queries) queries 0 "No search queries succeeded"
                eq_refl) as Hsleep.
  destruct (try_queries_ladder env song (output_path_of output_dir artist title)
              (length queries) queries 0 "No search queries succeeded")
    as (k' & Hk & Hle & Hpos & _).
  cbv zeta in Hsleep. rewrite <- Hrun in Hsleep, Hk. cbn [fst] in Hsleep, Hk.
  fold k in Hsleep.
  assert (Hkk : k = k').
  { subst k. rewrite Hk, length_take. lia. }
  rewrite decide_False in Hsleep by (intros ->; simpl in Hlen; lia).
  pose proof (List.filter_length_le forbidden_failure
                (map (dl_attempts env) (seq 0 k))) as Hf.
  rewrite length_map, length_seq in Hf.
  repeat split; lia.
Qed.

Lemma ladder_pauses_witness :
  download_song_async download_nothing get_lucky "downloaded_music"
  = Ok (try_queries download_nothing get_lucky
          "downloaded_music/Daft Punk - Get Lucky.mp3" 5 0
          [ "Daft Punk Get Lucky official"; "Daft Punk Get Lucky";
            "Get Lucky Daft Punk"; "Daft Punk Get Lucky audio";
            "Daft Punk Get Lucky official audio lyrics" ]
          "No search queries succeeded") ∧
  total_sleep
    (try_queries download_nothing get_lucky
       "downloaded_music/Daft Punk - Get Lucky.mp3" 5 0
       [ "Daft Punk Get Lucky official"; "Daft Punk Get Lucky";
         "Get Lucky Daft Punk"; "Daft Punk Get Lucky audio";
         "Daft Punk Get Lucky official audio lyrics" ]
       "No search queries succeeded").1 ≤ 33.
Proof.
  assert (H : download_song_async download_nothing get_lucky "downloaded_music"
    = Ok (try_queries download_nothing get_lucky
          "downloaded_music/Daft Punk - Get Lucky.mp3" 5 0
          [ "Daft Punk Get Lucky official"; "Daft Punk Get Lucky";
            "Get Lucky Daft Punk"; "Daft Punk Get Lucky audio";
            "Daft Punk Get Lucky official audio lyrics" ]
          "No search queries succeeded")) by reflexivity.
  split; [exact H|].
  destruct (try_queries download_nothing get_lucky
       "downloaded_music/Daft Punk - Get Lucky.mp3" 5 0
       [ "Daft Punk Get Lucky official"; "Daft Punk Get Lucky";
         "Get Lucky Daft Punk"; "Daft Punk Get Lucky audio";
         "Daft Punk Get Lucky official audio lyrics" ]
       "No search queries succeeded") as [log res] eqn:Hrun.
  exact (proj2 (proj2 (ladder_pauses download_nothing get_lucky
                         "downloaded_music" log res H))).
Defined.

Lemma try_queries_failure_error env song path n i q rest last_error :
  attempt_succeeds (dl_attempts env i) = false →
  ∃ l,
    invoked l = [] ∧
    try_queries env song path n i (q :: rest) last_error
    = log_then (Invoke q :: l)
        (try_queries env song path n (S i) rest
           (default last_error (attempt_error (dl_attempts env i)))).
Proof.
  intros H. cbn [try_queries].
  destruct (dl_attempts env i) as [rc out err file| |]; simpl in H.
  - destruct (Z.eqb_spec rc 0) as [->|Hrc]; [destruct file as [size|]|].
    + simpl in H. rewrite H. eexists. split; [|reflexivity].
      simpl. apply invoked_pause.
    + eexists. split; [|reflexivity].
      rewrite !invoked_app, invoked_pause. by destruct (forbidden err).
    + apply Z.eqb_neq in Hrc. simpl. rewrite Hrc. simpl.
      eexists. split; [|reflexivity].
      rewrite !invoked_app, invoked_pause.
      by destruct (forbidden err), (is_Some_dec file).
  - eexists. split; [|reflexivity]. apply invoked_pause.
  - eexists. split; [|reflexivity]. apply invoked_pause.
Qed.

Lemma try_queries_true env song path n queries : ∀ i last_error,
  let r := try_queries env song path n i queries last_error in
  r.2.1 = true →
  r.2 = metadata_result env song path ∧
  attempt_succeeds (dl_attempts env (i + length (invoked r.1) - 1)) = true.
Proof.
  induction queries as [|q rest IH]; intros i last_error; [done|].
  cbv zeta. destruct (attempt_succeeds (dl_attempts env i)) eqn:Hs.
  - rewrite try_queries_success by done. intros _. split; [done|].
    simpl. by replace (i + 1 - 1) with i by lia.
  - destruct (try_queries_failure_error env song path n i q rest last_error Hs)
      as (l & Hl & ->).
    unfold log_then. cbn [fst snd]. intros Htrue.
    destruct (IH (S i) _ Htrue) as [Hres Hlast]. split; [done|].
    change (Invoke q :: l) with ([Invoke q] ++ l).
    rewrite !invoked_app, Hl. simpl.
    destruct (try_queries_ladder env song path n rest (S i)
                (default last_error (attempt_error (dl_attempts env i))))
      as (k & Hk & Hle & Hpos & _).
    assert (rest ≠ []) as Hne by (intros ->; done).
    assert (0 < length (invoked (try_queries env song path n (S i) rest
              (default last_error (attempt_error (dl_attempts env i)))).1)).
    { rewrite Hk, length_take. destruct rest; [done|]. simpl in *. lia. }
    by replace (i + S (length (invoked (try_queries env song path n (S i) rest
              (default last_error (attempt_error (dl_attempts env i)))).1))
              - 1)
      with (S i + length (invoked (try_queries env song path n (S i) rest
              (default last_error (attempt_error (dl_attempts env i)))).1)
            - 1) by lia.
Qed.

(** X8. When the call for a song returns a success, the path it returns is
    [output_dir] joined with "{artist} - {title}.mp3", the last run of yt-dlp
    left a non-empty file, every run before it failed, and tag finalization
    did not report a failure. *)
Theorem successful_download_path (env : download_env) (song : pydict)
    (output_dir : string) (log : list effect) (path : string)
    (artist title : value) :
  download_song_async env song output_dir = Ok (log, (true, path)) →
  song !! "artist" = Some artist →
  song !! "title" = Some title →
  path = path_join output_dir
           (format artist +:+ " - " +:+ format title +:+ ".mp3") ∧
  attempt_succeeds (dl_attempts env (length (invoked log) - 1)) = true ∧
  (∀ j, S j < length (invoked log) →
        attempt_succeeds (dl_attempts env j) = false) ∧
  fix_metadata (dl_tagging env) (enrich_metadata (dl_enrich env) song) = true.
Proof.
  intros (artist' & title' & queries & Ha & Ht & _ & _ & Hrun)
    %download_song_async_inv Ha' Ht'.
  rewrite Ha in Ha'. rewrite Ht in Ht'. injection Ha' as ->.
  injection Ht' as ->.
  pose proof (try_queries_true env song (output_path_of output_dir artist title)
                (length queries) queries 0 "No search queries succeeded")
    as Htrue.
  destruct (try_queries_ladder env song (output_path_of output_dir artist title)
              (length queries) queries 0 "No search queries succeeded")
    as (k & Hk & Hle & _ & Hfail & _).
  cbv zeta in Htrue. rewrite <- Hrun in Htrue, Hk. cbn [fst snd] in Htrue, Hk.
  destruct (Htrue eq_refl) as [Hres Hlast]. unfold metadata_result in Hres.
  injection Hres as Hfix Hpath. rewrite <- Hfix in Hpath.
  split; [done|]. split; [done|]. split; [|done].
  intros j Hj. apply (Hfail j). rewrite Hk, length_take in Hj. lia.
Qed.

Lemma successful_download_path_witness :
  download_song_async (download_fine tagging_fine) (song_dict bad_guy)
    "downloaded_music"
  = Ok ([Invoke "Billie Eilish bad guy official audio lyrics"],
        (true, "downloaded_music/Billie Eilish - bad guy.mp3")) ∧
  song_dict bad_guy !! "artist" = Some (VStr "Billie Eilish") ∧
  song_dict bad_guy !! "title" = Some (VStr "bad guy") ∧
  fix_metadata tagging_fine (enrich_metadata no_enrichment (song_dict bad_guy))
  = true.
Proof.
  assert (H1 : download_song_async (download_fine tagging_fine)
                 (song_dict bad_guy) "downloaded_music"
               = Ok ([Invoke "Billie Eilish bad guy official audio lyrics"],
                     (true, "downloaded_music/Billie Eilish - bad guy.mp3")))
    by (vm_compute; reflexivity).
  assert (H2 : song_dict bad_guy !! "artist" = Some (VStr "Billie Eilish"))
    by reflexivity.
  assert (H3 : song_dict bad_guy !! "title" = Some (VStr "bad guy"))
    by reflexivity.
  split; [exact H1|]. split; [exact H2|]. split; [exact H3|].
  exact (proj2 (proj2 (proj2
           (successful_download_path (download_fine tagging_fine)
              (song_dict bad_guy) "downloaded_music" _ _ _ _ H1 H2 H3)))).
Defined.

Lemma last_omap_cons {A B} (f : A → option B) (x : A) (l : list A) (d : B) :
  default d (last (omap f (x :: l)))
  = default (default d (f x)) (last (omap f l)).
Proof.
  cbn [omap list_omap]. destruct (f x) as [y|]; simpl; [|done].
  destruct (omap f l) as [|z l'] eqn:Hl; [done|].
  rewrite last_cons. by destruct (last (z :: l')).
Qed.

Lemma try_queries_false env song path n queries : ∀ i last_error,
  let r := try_queries env song path n i queries last_error in
  r.2.1 = false →
  r.2.2 = "Metadata fix failed" ∨
  ((∀ j, j < length queries →
         attempt_succeeds (dl_attempts env (i + j)) = false) ∧
   length (invoked r.1) = length queries ∧
   r.2.2
   = "No suitable video found after trying " +:+ str_of_nat n
     +:+ " different search queries. Last error: "
     +:+ default last_error
           (last (omap attempt_error
                    (map (dl_attempts env) (seq i (length queries)))))).
Proof.
  induction queries as [|q rest IH]; intros i last_error.
  - intros r _. right. split; [intros j Hj; simpl in Hj; lia|done].
  - cbv zeta. destruct (attempt_succeeds (dl_attempts env i)) eqn:Hs.
    + rewrite try_queries_success by done. unfold metadata_result.
      cbn [fst snd]. intros ->. by left.
    + destruct (try_queries_failure_error env song path n i q rest last_error
                  Hs) as (l & Hl & ->).
      unfold log_then. cbn [fst snd]. intros Hfalse.
      destruct (IH (S i) _ Hfalse) as [Hm|(Hall & Hlen & Hmsg)]; [by left|].
      right. split; [|split].
      * intros [|j] Hj; [by rewrite Nat.add_0_r|].
        replace (i + S j) with (S i + j) by lia. apply Hall. simpl in Hj. lia.
      * change (Invoke q :: l) with ([Invoke q] ++ l).
        rewrite !invoked_app, Hl. simpl. by rewrite Hlen.
      * rewrite Hmsg. do 3 f_equal. cbn [length seq map].
        by rewrite last_omap_cons.
Qed.

(** X9. When the call for a song returns a failure, either tag finalization
    reported it, with the message "Metadata fix failed", or every query was
    tried and none left a non-empty file; the message then names the number
    of queries, one or five, and the error of the last run that left one (a
    run that leaves an empty file leaves none). *)
Theorem failed_download_message (env : download_env) (song : pydict)
    (output_dir : string) (log : list effect) (message : string) :
  download_song_async env song output_dir = Ok (log, (false, message)) →
  message = "Metadata fix failed" ∨
  ∃ n, (n = 1 ∨ n = 5) ∧
       length (invoked log) = n ∧
       (∀ j, j < n → attempt_succeeds (dl_attempts env j) = false) ∧
       message
       = "No suitable video found after trying " +:+ str_of_nat n
         +:+ " different search queries. Last error: "
         +:+ default "No search queries succeeded"
               (last (omap attempt_error
                        (map (dl_attempts env) (seq 0 n)))).
Proof.
  intros (artist & title & queries & _ & _ & _ & Hlen & Hrun)
    %download_song_async_inv.
  pose proof (try_queries_false env song (output_path_of output_dir artist title)
                (length queries) queries 0 "No search queries succeeded")
    as Hfalse.
  cbv zeta in Hfalse. rewrite <- Hrun in Hfalse. cbn [fst snd] in Hfalse.
  destruct (Hfalse eq_refl) as [Hm|(Hall & Hk & Hmsg)]; [by left|].
  right. exists (length queries). by repeat split.
Qed.

Lemma failed_download_message_witness :
  download_song_async download_nothing (song_dict bad_guy) "downloaded_music"
  = Ok ([Invoke "Billie Eilish bad guy official audio lyrics"],
        (false, nothing_found_message)) ∧
  (nothing_found_message = "Metadata fix failed" ∨
   ∃ n, (n = 1 ∨ n = 5) ∧
        length (invoked [Invoke "Billie Eilish bad guy official audio lyrics"])
        = n ∧
        (∀ j, j < n →
              attempt_succeeds (dl_attempts download_nothing j) = false) ∧
        nothing_found_message
        = "No suitable video found after trying " +:+ str_of_nat n
          +:+ " different search queries. Last error: "
          +:+ default "No search queries succeeded"
                (last (omap attempt_error
                         (map (dl_attempts download_nothing) (seq 0 n))))).
Proof.
  assert (H : download_song_async download_nothing (song_dict bad_guy)
                "downloaded_music"
              = Ok ([Invoke "Billie Eilish bad guy official audio lyrics"],
                    (false, nothing_found_message)))
    by (vm_compute; reflexivity).
  split; [exact H|].
  exact (failed_download_message download_nothing (song_dict bad_guy)
           "downloaded_music" _ _ H).
Defined.

(** ** The queries of the songs of a job *)

Lemma track_info_query title artist album query number :
  query ≠ EmptyString →
  track_info title artist album query number !! "query" = Some (VStr query) ∧
  search_queries (track_info title artist album query number) = Ok [query].
Proof.
  intros Hne.
  assert (track_info title artist album query number !! "query"
          = Some (VStr query)) as H by (by destruct number).
  split; [done|]. by apply search_queries_override.
Qed.

Lemma suffix_loop_Forall (P : pydict → Prop) mk suffixes : ∀ tracks,
  (∀ suffix, P (mk suffix)) → Forall P tracks →
  Forall P (suffix_loop mk suffixes tracks).
Proof.
  induction suffixes as [|suffix rest IH]; intros tracks Hmk Htracks;
    cbn [suffix_loop]; [done|].
  assert (Forall P (tracks ++ [mk suffix]))
    by (apply Forall_app; split; [done|]; constructor; [apply Hmk|constructor]).
  case_match; [done|by apply IH].
Qed.

Lemma index_loop_Forall (P : pydict → Prop) mk indexes : ∀ tracks,
  (∀ i prefix suffix, P (mk i prefix suffix)) → Forall P tracks →
  Forall P (index_loop mk indexes tracks).
Proof.
  induction indexes as [|i rest IH]; intros tracks Hmk Htracks;
    cbn [index_loop]; [done|].
  assert (Forall P (prefix_loop (mk i) tracks)).
  { unfold prefix_loop, album_prefixes. cbn [foldl].
    apply suffix_loop_Forall; [intros; apply Hmk|].
    apply suffix_loop_Forall; [intros; apply Hmk|done]. }
  case_match; [done|by apply IH].
Qed.

Lemma directory_tracks_Forall (P : pydict → Prop) artist_clean album_clean
    tracks :
  (∀ title query number, query ≠ EmptyString →
     P (track_info title artist_clean album_clean query number)) →
  ∀ found, directory_tracks artist_clean album_clean tracks = Ok found →
           Forall P found.
Proof.
  intros HP. induction tracks as [|track tracks IH]; intros found;
    cbn [directory_tracks].
  - by intros [= <-].
  - destruct (dt_recording track) as [[title|]|]; [|done|by apply IH].
    destruct (directory_tracks artist_clean album_clean tracks) as [others|];
      cbn [mbind result_bind]; [|done].
    intros [= <-]. constructor; [|by apply IH].
    apply (HP title
             (artist_clean +:+ " " +:+ dquote +:+ title +:+ dquote
              +:+ " song official audio")
             (Some (from_option VStr VNone (dt_number track)))).
    apply append_nonempty. discriminate.
Qed.

(** X10. Every track that the resolver returns, whether it comes from the
    directory, from the synthetic fallback or from the emergency fallback,
    carries a non-empty query override; so the ladder hands a single query
    to yt-dlp for each song of an album too. *)
Theorem resolver_tracks_single_query (renv : resolver_env)
    (artist album : string) :
  Forall (fun track : pydict =>
            ∃ q, track !! "query" = Some (VStr q) ∧ q ≠ EmptyString ∧
                 search_queries track = Ok [q])
    (get_album_tracks renv artist album).
Proof.
  set (P := fun track : pydict =>
              ∃ q, track !! "query" = Some (VStr q) ∧ q ≠ EmptyString ∧
                   search_queries track = Ok [q]).
  assert (HP : ∀ t a al q num, q ≠ EmptyString → P (track_info t a al q num)).
  { intros t a al q num Hq. exists q.
    destruct (track_info_query t a al q num Hq). by repeat split. }
  unfold get_album_tracks.
  destruct (album_tracks_body renv artist album) as [tracks|e] eqn:Hbody.
  2: { constructor; [|constructor]. apply HP.
       do 3 apply append_nonempty. discriminate. }
  unfold album_tracks_body in Hbody.
  destruct (match search_reply renv with HttpRaised e => _ | _ => _ end)
    as [found|e] eqn:Hfound; cbn [mbind result_bind] in Hbody; [|done].
  destruct found as [|track found]; injection Hbody as <-.
  { unfold synthetic_tracks. apply Forall_take, index_loop_Forall; [|done].
    intros i prefix suffix. apply HP. do 7 apply append_nonempty.
    discriminate. }
  destruct (search_reply renv) as [e|code releases]; [done|].
  destruct (code =? 200)%Z; [|done].
  destruct releases as [|[release_id|] ?]; try done.
  destruct (detail_reply renv) as [e|detail_code media]; [done|].
  destruct (detail_code =? 200)%Z; [|done].
  eapply directory_tracks_Forall; [|done]. intros. by apply HP.
Qed.

(** ** Tags, lyrics and progress *)

Lemma occurs_app c s t : occurs c (s +:+ t) = occurs c s || occurs c t.
Proof.
  induction s as [|a s IH]; simpl; [done|]. rewrite IH. by destruct (Ascii.eqb a c).
Qed.

Lemma prefix_empty s : String.prefix EmptyString s = true.
Proof. by destruct s. Qed.

Lemma replace_char_removes c s :
  occurs c (replace (String c EmptyString) EmptyString s) = false.
Proof.
  unfold replace. induction s as [|a s IH]; simpl; [done|].
  destruct (ascii_dec c a) as [->|Hne]; simpl.
  - by rewrite prefix_empty.
  - rewrite IH. destruct (Ascii.eqb_spec a c); [congruence|done].
Qed.

Lemma replace_char_keeps_absent c d s :
  occurs c s = false →
  occurs c (replace (String d EmptyString) EmptyString s) = false.
Proof.
  unfold replace. induction s as [|a s IH]; simpl; [done|].
  intros [Ha Hs]%orb_false_elim.
  destruct (ascii_dec d a); simpl; [rewrite prefix_empty; by apply IH|].
  rewrite Ha. by apply IH.
Qed.

Lemma lstrip_keeps_absent c s : occurs c s = false → occurs c (lstrip s) = false.
Proof.
  induction s as [|a s IH]; simpl; [done|].
  intros H. destruct (isspace a); [|done].
  apply orb_false_elim in H as [_ Hs]. by apply IH.
Qed.

Lemma rstrip_keeps_absent c s : occurs c s = false → occurs c (rstrip s) = false.
Proof.
  induction s as [|a s IH]; simpl; [done|].
  intros [Ha Hs]%orb_false_elim. specialize (IH Hs).
  destruct (rstrip s) as [|b r].
  - destruct (isspace a); simpl; [done|]. by rewrite Ha.
  - simpl in *. by rewrite Ha.
Qed.

Lemma clean_tag_no_quote s :
  occurs dquote_char (clean_tag s) = false ∧
  occurs squote_char (clean_tag s) = false.
Proof.
  unfold clean_tag, strip. split.
  - apply rstrip_keeps_absent, lstrip_keeps_absent.
    apply (replace_char_keeps_absent dquote_char squote_char).
    apply replace_char_removes.
  - apply rstrip_keeps_absent, lstrip_keeps_absent.
    apply (replace_char_removes squote_char).
Qed.

(** X11. The artist, title and album that tag finalization hands to ffmpeg
    hold no single and no double quote; the album is "Downloaded Music" when
    the song has none; and the tags cannot be built (an exception, which
    [fix_metadata] swallows) exactly when the artist or the title is missing
    or one of the three is not a string. *)
Theorem metadata_tags_sanitized (song : pydict) :
  (∀ artist title album,
     metadata_tags song = Ok (artist, title, album) →
     Forall (fun tag => occurs dquote_char tag = false
                        ∧ occurs squote_char tag = false)
       [artist; title; album] ∧
     (song !! "album" = None → album = "Downloaded Music")) ∧
  ((∃ e, metadata_tags song = Raise e) ↔
   ¬ ((∃ a, song !! "artist" = Some (VStr a)) ∧
      (∃ t, song !! "title" = Some (VStr t)) ∧
      (song !! "album" = None ∨ ∃ al, song !! "album" = Some (VStr al)))).
Proof.
  unfold metadata_tags, getitem. split.
  - intros artist title album.
    destruct (song !! "artist") as [[a| |]|]; try done.
    destruct (song !! "title") as [[t| |]|]; try done.
    destruct (song !! "album") as [[al| |]|]; try done;
      cbn [mbind result_bind option_bind default as_str];
      intros [= <- <- <-]; (split; [|done]);
      repeat constructor; apply clean_tag_no_quote.
  - destruct (song !! "artist") as [[a| |]|];
      cbn [mbind result_bind as_str];
      try (split; [intros _ ([? [=]] & _)|intros _; eauto]; fail).
    destruct (song !! "title") as [[t| |]|];
      cbn [mbind result_bind as_str];
      try (split; [intros _ (_ & [? [=]] & _)|intros _; eauto]; fail).
    destruct (song !! "album") as [[al| |]|];
      cbn [mbind result_bind as_str default].
    + split; [by intros [e [=]]|]. intros H. destruct H. eauto 10.
    + split; [intros _ (_ & _ & [[=]|[? [=]]])|eauto].
    + split; [intros _ (_ & _ & [[=]|[? [=]]])|eauto].
    + split; [by intros [e [=]]|]. intros H. destruct H. eauto 10.
Qed.

Lemma metadata_tags_sanitized_witness :
  metadata_tags
    (<["title" := VStr "Don't Stop"]> (<["artist" := VStr "AC/DC"]> ∅))
  = Ok ("AC/DC", "Dont Stop", "Downloaded Music") ∧
  occurs squote_char "Dont Stop" = false.
Proof.
  assert (H : metadata_tags
    (<["title" := VStr "Don't Stop"]> (<["artist" := VStr "AC/DC"]> ∅))
    = Ok ("AC/DC", "Dont Stop", "Downloaded Music")) by reflexivity.
  split; [exact H|].
  destruct (proj1 (metadata_tags_sanitized _) _ _ _ H) as [Hq _].
  apply Forall_cons in Hq as [_ Hq]. apply Forall_cons in Hq as [Hq _].
  exact (proj2 Hq).
Defined.

Lemma lrclib_pick_source artist_clean title_clean results lyrics :
  lrclib_pick artist_clean title_clean results = Some lyrics →
  ∃ entry, entry ∈ results ∧
           lrc_plainLyrics entry = Some lyrics ∧
           lrclib_match artist_clean title_clean entry = true ∧
           20 < String.length lyrics.
Proof.
  induction results as [|r rest IH]; simpl; [done|].
  intros H.
  assert (lrclib_pick artist_clean title_clean rest = Some lyrics →
          ∃ entry, entry ∈ r :: rest ∧ lrc_plainLyrics entry = Some lyrics ∧
                   lrclib_match artist_clean title_clean entry = true ∧
                   20 < String.length lyrics) as Hrest.
  { intros (entry & Hin & Hrest)%IH. exists entry. split; [|done].
    apply elem_of_cons. by right. }
  destruct (lrclib_match artist_clean title_clean r) eqn:Hm; [|by apply Hrest].
  destruct (lrc_plainLyrics r) as [l|] eqn:Hl; [|by apply Hrest].
  destruct (Nat.ltb_spec 20 (String.length l)); [|by apply Hrest].
  injection H as <-. exists r. split; [apply elem_of_cons; by left|done].
Qed.

(** X12. Lyrics, when the lookup returns some, are never empty.  They are
    the trimmed text of the first provider when its reply is a 200 with a
    text of more than ten characters that is not blank; otherwise they are
    the text, longer than twenty characters, of an entry of the second
    provider that passed the containment check on artist and title. *)
Theorem lyrics_never_empty (env : lyrics_env) (artist title lyrics : string) :
  get_song_lyrics env artist title = Some lyrics →
  lyrics ≠ EmptyString ∧
  ((∃ text, ovh_reply env = HttpReply 200 (Some text) ∧
            10 < String.length text ∧ lyrics = strip text) ∨
   (∃ results entry,
      lrclib_reply env = HttpReply 200 results ∧ entry ∈ results ∧
      lrc_plainLyrics entry = Some lyrics ∧ 20 < String.length lyrics)).
Proof.
  unfold get_song_lyrics.
  destruct (lyrics_ovh (ovh_reply env)) as [l|] eqn:Hovh.
  - intros [= ->]. unfold lyrics_ovh in Hovh.
    destruct (ovh_reply env) as [e|code [text|]]; try done.
    destruct (Z.eqb_spec code 200) as [->|]; [|done].
    destruct (Nat.ltb_spec 10 (String.length text)); [|done].
    simpl in Hovh. destruct (String.eqb_spec (strip text) EmptyString); [done|].
    injection Hovh as <-. split; [done|]. left. by exists text.
  - unfold lyrics_lrclib.
    destruct (lrclib_reply env) as [e|code results]; [done|].
    destruct (Z.eqb_spec code 200) as [->|]; [|done].
    intros (entry & Hin & Hl & _ & Hlen)%lrclib_pick_source.
    split; [intros ->; simpl in Hlen; lia|]. right. by exists results, entry.
Qed.

Lemma lyrics_never_empty_witness :
  get_song_lyrics
    {| ovh_reply := HttpReply 200 (Some "  Like the legend of the phoenix  ");
       lrclib_reply := HttpRaised "timed out" |}
    "Daft Punk" "Get Lucky"
  = Some "Like the legend of the phoenix" ∧
  "Like the legend of the phoenix" ≠ EmptyString.
Proof.
  assert (H : get_song_lyrics
    {| ovh_reply := HttpReply 200 (Some "  Like the legend of the phoenix  ");
       lrclib_reply := HttpRaised "timed out" |}
    "Daft Punk" "Get Lucky" = Some "Like the legend of the phoenix")
    by reflexivity.
  split; [exact H|]. exact (proj1 (lyrics_never_empty _ _ _ _ H)).
Defined.

Lemma progress_steps_20 : progress_steps_upto 20 = true.
Proof. vm_compute. reflexivity. Qed.

(** X13. For a job of one to twenty songs, the progress stored after a song
    lies above 0 and at most at 100, it is 100 after the last song and only
    then, and it is higher after each song than after the song before. *)
Theorem progress_reaches_100_at_end (n i : nat) :
  1 ≤ n ≤ 20 → i < n →
  (0 < py_progress i n ≤ 100)%Z ∧
  (py_progress i n = 100%Z ↔ S i = n) ∧
  (S i < n → (py_progress i n < py_progress (S i) n)%Z).
Proof.
  intros Hn Hi. pose proof progress_steps_20 as H.
  unfold progress_steps_upto in H. rewrite forallb_forall in H.
  specialize (H n). rewrite in_seq in H.
  assert (Hn' : 1 ≤ n < 1 + 20) by lia. specialize (H Hn').
  rewrite forallb_forall in H. specialize (H i). rewrite in_seq in H.
  assert (Hi' : 0 ≤ i < 0 + n) by lia. specialize (H Hi').
  apply andb_prop in H as [H Hstep]. apply andb_prop in H as [H Hiff].
  apply andb_prop in H as [Hpos Hle].
  apply Z.ltb_lt in Hpos. apply Z.leb_le in Hle.
  apply bool_decide_eq_true in Hiff.
  split; [done|]. split; [done|].
  intros Hlt. destruct (Nat.ltb_spec (S i) n); [|lia]. by apply Z.ltb_lt.
Qed.

Lemma progress_reaches_100_at_end_witness :
  1 ≤ 12 ≤ 20 ∧ 11 < 12 ∧ py_progress 11 12 = 100%Z.
Proof.
  assert (Hn : 1 ≤ 12 ≤ 20) by lia. assert (Hi : 11 < 12) by lia.
  split; [exact Hn|]. split; [exact Hi|].
  exact (proj2 (proj1 (proj2 (progress_reaches_100_at_end 12 11 Hn Hi)))
           eq_refl).
Defined.

(** ** The playlist of an album *)

Lemma exception_recorded_outcomes env output_dir download_id songs w :
  Forall has_title_artist songs →
  let r := process_song_download env output_dir download_id songs w in
  let outcomes := downloaded_songs (run_locals r) in
  run_aborted r = None ∧
  length outcomes = length songs ∧
  (∀ k song, songs !! k = Some song →
     ∃ o, outcomes !! k = Some o ∧
          records song
            (download_song_async (download (song_envs env k)) song output_dir)
            o) ∧
  count_completed outcomes = n_completed (run_locals r) ∧
  count_not_completed outcomes = n_failed (run_locals r).
Proof.
  intros Hsongs r outcomes. subst outcomes r. unfold process_song_download.
  set (w0 := store download_id _ w).
  destruct (run_songs_outcomes download_id output_dir (length songs)
              (song_envs env) songs 0
              {| n_completed := 0; n_failed := 0; downloaded_songs := [] |}
              w0 Hsongs eq_refl eq_refl)
    as (Hab & Hc & Hf & new & Hnew & Hlen & Hk).
  rewrite Hab. cbn [run_aborted run_locals].
  simpl in Hnew. rewrite Hnew in *.
  split; [done|]. split; [done|]. split; [done|]. by split.
Qed.

Lemma process_song_download_unfold env output_dir download_id songs w :
  Forall has_title_artist songs →
  let rs :=
    run_songs download_id output_dir (length songs) (song_envs env) 0 songs
      {| n_completed := 0; n_failed := 0; downloaded_songs := [] |}
      (store download_id (in_progress (length songs) 0 0 0 [] downloading) w)
  in
  process_song_download env output_dir download_id songs w
  = {| run_locals := run_locals rs;
       run_world :=
         attach_playlist env download_id output_dir (length songs)
           (run_locals rs) (run_world rs);
       run_aborted := None |}.
Proof.
  intros Hsongs rs. unfold process_song_download. fold rs.
  destruct (run_songs_outcomes download_id output_dir (length songs)
              (song_envs env) songs 0
              {| n_completed := 0; n_failed := 0; downloaded_songs := [] |}
              (store download_id
                 (in_progress (length songs) 0 0 0 [] downloading) w)
              Hsongs eq_refl eq_refl) as (Hab & _).
  fold rs in Hab. by rewrite Hab.
Qed.

Lemma download_true_path env song dir log path artist title :
  download_song_async env song dir = Ok (log, (true, path)) →
  song !! "artist" = Some artist → song !! "title" = Some title →
  path = output_path_of dir artist title.
Proof.
  intros (artist' & title' & queries & Ha & Ht & _ & _ & Hrun)
    %download_song_async_inv Ha' Ht'.
  rewrite Ha in Ha'. rewrite Ht in Ht'. injection Ha' as ->.
  injection Ht' as ->.
  pose proof (try_queries_true env song (output_path_of dir artist title)
                (length queries) queries 0 "No search queries succeeded")
    as Htrue.
  cbv zeta in Htrue. rewrite <- Hrun in Htrue. cbn [fst snd] in Htrue.
  destruct (Htrue eq_refl) as [Hres _]. unfold metadata_result in Hres.
  injection Hres as Hfix Hpath. by rewrite <- Hfix in Hpath.
Qed.

Lemma records_completed_path song env dir o :
  records song (download_song_async env song dir) o →
  out_status o = song_completed →
  out_filepath o = Some (path_join dir (m3u_filename o)).
Proof.
  intros (Ht & Ha & _ & Hcall) Hs.
  destruct (download_song_async env song dir) as [[log [[|] msg]]|e] eqn:Hdl.
  - destruct Hcall as (_ & -> & _). f_equal.
    by apply (download_true_path env song dir log msg).
  - destruct Hcall as (Hs' & _). congruence.
  - destruct Hcall as (Hs' & _). congruence.
Qed.

(** X14. When the runner writes a playlist for a job of songs with a title
    and an artist, the path it stores in the record is [output_dir] joined
    with "{download_id}.m3u", the playlist lists the songs whose download
    succeeded, in order and as many as the completed count, and the file
    name of each entry, joined with [output_dir], is the path of the file
    that the ladder wrote for that song. *)
Theorem playlist_entries_are_downloads (env : runner_env)
    (output_dir download_id : string) (songs : list pydict) (w : world) :
  Forall has_title_artist songs →
  let r := process_song_download env output_dir download_id songs w in
  let successful :=
    List.filter is_song_completed (downloaded_songs (run_locals r)) in
  ∀ path text,
    playlist_written env download_id output_dir (length songs) (run_locals r)
    = Some (path, text) →
    (path, text)
    = create_m3u_playlist successful output_dir (download_id +:+ ".m3u") ∧
    playlist_path <$> db (run_world r) !! download_id = Some (Some path) ∧
    0 < length successful ∧
    length successful = n_completed (run_locals r) ∧
    Forall (fun o => out_filepath o
                     = Some (path_join output_dir (m3u_filename o)))
      successful.
Proof.
  intros Hsongs r successful path text.
  destruct (exception_recorded_outcomes env output_dir download_id songs w
              Hsongs) as (Hab & Hlen & Hk & Hc & _).
  fold r in Hab, Hlen, Hk, Hc. unfold count_completed in Hc.
  assert (Hdb : ∀ o rest,
    (1 <? length songs) && (0 <? n_completed (run_locals r)) = true →
    List.filter is_song_completed (downloaded_songs (run_locals r))
    = o :: rest →
    playlist_error env = None →
    playlist_path <$> db (run_world r) !! download_id
    = Some (Some (path_join output_dir (download_id +:+ ".m3u")))).
  { subst r.
    rewrite (process_song_download_unfold env output_dir download_id songs w
               Hsongs).
    cbn [run_world run_locals]. intros o rest Hcond Hsucc Herr.
    unfold attach_playlist. rewrite Hcond, Hsucc, Herr.
    cbn [store db]. unfold update_download_status.
    by rewrite lookup_insert_eq. }
  subst successful. unfold playlist_written.
  destruct ((1 <? length songs) && (0 <? n_completed (run_locals r)))
    eqn:Hcond; [|done].
  destruct (List.filter is_song_completed (downloaded_songs (run_locals r)))
    as [|o rest] eqn:Hsucc; [done|].
  destruct (playlist_error env) eqn:Herr; [done|].
  intros [= <- <-]. split; [done|].
  split; [by apply (Hdb o rest)|]. split; [simpl; lia|]. split; [done|].
  rewrite <- Hsucc. apply Forall_forall.
  intros o' [Hin Hs]%list_elem_of_In%List.filter_In.
  apply list_elem_of_In, list_elem_of_lookup in Hin as [k Hko].
  assert (is_Some (songs !! k)) as [song Hsong].
  { apply lookup_lt_is_Some. rewrite <- Hlen. by eapply lookup_lt_Some. }
  destruct (Hk k song Hsong) as (o'' & Ho'' & Hrec).
  rewrite Hko in Ho''. injection Ho'' as <-.
  eapply records_completed_path; [done|].
  unfold is_song_completed in Hs. by apply bool_decide_eq_true in Hs.
Qed.

Lemma playlist_entries_are_downloads_witness :
  Forall has_title_artist [one_more_time; aerodynamic] ∧
  ∃ path text,
    playlist_written second_fails "job-1" "downloaded_music" 2
      (run_locals
         (process_song_download second_fails "downloaded_music" "job-1"
            [one_more_time; aerodynamic] empty_world))
    = Some (path, text) ∧
    playlist_path
    <$> db (run_world
              (process_song_download second_fails "downloaded_music" "job-1"
                 [one_more_time; aerodynamic] empty_world)) !! "job-1"
    = Some (Some path).
Proof.
  assert (Hsongs : Forall has_title_artist [one_more_time; aerodynamic]).
  { repeat constructor; by eexists. }
  split; [exact Hsongs|].
  assert (H : ∃ path text,
    playlist_written second_fails "job-1" "downloaded_music" 2
      (run_locals
         (process_song_download second_fails "downloaded_music" "job-1"
            [one_more_time; aerodynamic] empty_world))
    = Some (path, text)) by (eexists _, _; vm_compute; reflexivity).
  destruct H as (path & text & H). exists path, text. split; [exact H|].
  exact (proj1 (proj2 (playlist_entries_are_downloads second_fails
                         "downloaded_music" "job-1"
                         [one_more_time; aerodynamic] empty_world Hsongs
                         path text H))).
Defined.

Example playlist_of_partial_album :
  m3u_lines
    (List.filter is_song_completed
       (downloaded_songs
          (run_locals
             (process_song_download second_fails "downloaded_music" "job-1"
                [one_more_time; aerodynamic] empty_world))))
  = [ "#EXTM3U"; "#PLAYLIST:Tunes4R Download Service";
      "#EXTINF:240,Daft Punk - One More Time";
      "Daft Punk - One More Time.mp3" ].
Proof. by vm_compute. Qed.

(** ** Video identifiers *)

Lemma append_cons c (s t : string) : String c s +:+ t = String c (s +:+ t).
Proof. reflexivity. Qed.

Lemma all_chars_app P s t :
  all_chars P (s +:+ t) = all_chars P s && all_chars P t.
Proof.
  induction s as [|c s IH]; simpl; [done|]. by rewrite IH, andb_assoc.
Qed.

Lemma append_assoc (s t u : string) : (s +:+ t) +:+ u = s +:+ (t +:+ u).
Proof.
  induction s as [|c s IH]; [done|]. by rewrite !append_cons, IH.
Qed.

Lemma append_empty_r (s : string) : s +:+ EmptyString = s.
Proof. induction s as [|c s IH]; [done|]. by rewrite append_cons, IH. Qed.

Lemma take_id_spec n : ∀ s v,
  take_id n s = Some v →
  String.length v = n ∧ all_chars is_id_char v = true ∧ ∃ r, s = v +:+ r.
Proof.
  induction n as [|n IH]; intros s v; simpl.
  - intros [= <-]. split; [done|]. split; [done|]. by exists s.
  - destruct s as [|c s]; [done|].
    destruct (is_id_char c) eqn:Hc; [|done].
    destruct (take_id n s) as [v'|] eqn:Hv; [|done]. intros [= <-].
    destruct (IH s v' Hv) as (Hlen & Hall & r & ->).
    simpl. rewrite Hc, Hall, Hlen. split; [done|]. split; [done|]. by exists r.
Qed.

Lemma take_id_app n : ∀ v r,
  String.length v = n → all_chars is_id_char v = true →
  take_id n (v +:+ r) = Some v.
Proof.
  induction n as [|n IH]; intros [|c v] r Hlen Hall; simpl in *; try done.
  apply andb_prop in Hall as [-> Hall]. rewrite IH by (done || lia). done.
Qed.

Lemma strip_prefix_spec p : ∀ s r, strip_prefix p s = Some r → s = p +:+ r.
Proof.
  induction p as [|a p IH]; intros s r; simpl; [by intros [= <-]|].
  destruct s as [|b s]; [done|].
  destruct (Ascii.eqb_spec a b) as [->|]; [|done].
  intros H%IH. by rewrite H.
Qed.

Lemma first_some_spec {A B} (f : A → option B) (l : list A) (b : B) :
  first_some f l = Some b → ∃ a, a ∈ l ∧ f a = Some b.
Proof.
  induction l as [|a l IH]; simpl; [done|].
  destruct (f a) as [b'|] eqn:Hfa.
  - intros [= <-]. exists a. split; [apply elem_of_cons; by left|done].
  - intros (a' & Hin & Ha')%IH. exists a'.
    split; [apply elem_of_cons; by right|done].
Qed.

Lemma match_here_nil lit s :
  match_here [] lit s = strip_prefix lit s ≫= take_id 11.
Proof. reflexivity. Qed.

Lemma match_here_cons alternatives more lit s :
  match_here (alternatives :: more) lit s =
  match first_some (fun alt => strip_prefix alt s ≫= match_here more lit)
          alternatives with
  | Some video_id => Some video_id
  | None => match_here more lit s
  end.
Proof. reflexivity. Qed.

Lemma match_here_spec groups lit : ∀ s v,
  match_here groups lit s = Some v →
  String.length v = 11 ∧ all_chars is_id_char v = true ∧
  ∃ a r, s = a +:+ lit +:+ v +:+ r.
Proof.
  induction groups as [|alternatives more IH]; intros s v.
  - rewrite match_here_nil.
    destruct (strip_prefix lit s) as [rest|] eqn:Hlit; [|done].
    change (take_id 11 rest = Some v → String.length v = 11 ∧
            all_chars is_id_char v = true ∧ ∃ a r, s = a +:+ lit +:+ v +:+ r).
    intros (Hlen & Hall & r & ->)%take_id_spec.
    apply strip_prefix_spec in Hlit as ->.
    split; [done|]. split; [done|]. by exists EmptyString, r.
  - rewrite match_here_cons.
    destruct (first_some _ alternatives) as [v'|] eqn:Halt.
    + intros [= ->].
      apply first_some_spec in Halt as (alt & _ & Halt).
      destruct (strip_prefix alt s) as [rest|] eqn:Hrest; [|done].
      change (match_here more lit rest = Some v) in Halt.
      apply IH in Halt as (Hlen & Hall & a & r & ->).
      apply strip_prefix_spec in Hrest as ->.
      split; [done|]. split; [done|]. exists (alt +:+ a), r.
      by rewrite append_assoc.
    + apply IH.
Qed.

Lemma re_search_spec (m : string → option string) : ∀ s v,
  re_search m s = Some v → ∃ a b, s = a +:+ b ∧ m b = Some v.
Proof.
  induction s as [|c s IH]; intros v; simpl.
  - destruct (m EmptyString) eqn:Hm; [|done]. intros [= <-].
    by exists EmptyString, EmptyString.
  - destruct (m (String c s)) eqn:Hm.
    + intros [= <-]. by exists EmptyString, (String c s).
    + intros (a & b & -> & Hb)%IH. by exists (String c a), b.
Qed.

Lemma lstrip_suffix s : ∃ a, s = a +:+ lstrip s.
Proof.
  induction s as [|c s [a IH]]; simpl; [by exists EmptyString|].
  destruct (isspace c); [|by exists EmptyString].
  exists (String c a). by rewrite append_cons, <- IH.
Qed.

Lemma rstrip_prefix s : ∃ b, s = rstrip s +:+ b.
Proof.
  induction s as [|c s [b IH]]; simpl; [by exists EmptyString|].
  destruct (rstrip s) as [|d r] eqn:Hr.
  - destruct (isspace c); [by exists (String c s)|].
    exists s. done.
  - exists b. by rewrite append_cons, <- IH.
Qed.

(** X15. A video identifier, when one is extracted, has eleven characters,
    all of them letters, digits, [_] or [-], and it stands in the text right
    after the literal of one of the four patterns ("youtube.com/watch?v=",
    "youtu.be/", "youtube.com/embed/", "youtube.com/v/"): a text without
    such a literal is never taken for a link. *)
Theorem video_id_shape (url video_id : string) :
  extract_youtube_video_id url = Some video_id →
  String.length video_id = 11 ∧
  all_chars is_id_char video_id = true ∧
  ∃ pattern before after,
    pattern ∈ patterns ∧
    url = before +:+ literal pattern +:+ video_id +:+ after.
Proof.
  unfold extract_youtube_video_id.
  intros (pattern & Hin & Hsearch)%first_some_spec.
  apply re_search_spec in Hsearch as (a & b & Hurl & Hmatch).
  apply match_here_spec in Hmatch as (Hlen & Hall & a' & r & ->).
  split; [done|]. split; [done|].
  destruct (lstrip_suffix url) as [pre Hpre].
  destruct (rstrip_prefix (lstrip url)) as [post Hpost].
  fold (strip url) in Hpost. rewrite Hurl in Hpost.
  exists pattern, (pre +:+ a +:+ a'), (r +:+ post). split; [done|].
  rewrite Hpre, Hpost. by rewrite !append_assoc.
Qed.

Lemma video_id_shape_witness :
  extract_youtube_video_id "see http://youtube.com/embed/dQw4w9WgXcQ?rel=0"
  = Some "dQw4w9WgXcQ" ∧
  String.length "dQw4w9WgXcQ" = 11.
Proof.
  assert (H : extract_youtube_video_id
                "see http://youtube.com/embed/dQw4w9WgXcQ?rel=0"
              = Some "dQw4w9WgXcQ") by reflexivity.
  split; [exact H|]. exact (proj1 (video_id_shape _ _ H)).
Defined.

Lemma id_char_not_space c : is_id_char c = true → isspace c = false.
Proof. destruct c as [[] [] [] [] [] [] [] []]; done. Qed.

Lemma id_chars_no_space s :
  all_chars is_id_char s = true → all_chars (fun c => negb (isspace c)) s = true.
Proof.
  induction s as [|c s IH]; simpl; [done|].
  intros [Hc Hs]%andb_prop. by rewrite (id_char_not_space c Hc), IH.
Qed.

Lemma rstrip_keeps_head a : ∀ b,
  a ≠ EmptyString → all_chars (fun c => negb (isspace c)) a = true →
  ∃ b', rstrip (a +:+ b) = a +:+ b'.
Proof.
  induction a as [|c a IH]; intros b Hne Hall; [done|].
  simpl in Hall. apply andb_prop in Hall as [Hc Ha].
  apply negb_true_iff in Hc.
  rewrite append_cons. cbn [rstrip].
  destruct a as [|d a].
  - change (EmptyString +:+ b) with b.
    destruct (rstrip b) as [|e r]; rewrite ?Hc.
    + by exists EmptyString.
    + by exists (String e r).
  - destruct (IH b) as [b' ->]; [done|done|].
    rewrite append_cons. exists b'. by rewrite !append_cons.
Qed.

Lemma append_nil_l (s : string) : EmptyString +:+ s = s.
Proof. reflexivity. Qed.

Lemma re_search_here (m : string → option string) s v :
  m s = Some v → re_search m s = Some v.
Proof. intros H. destruct s; simpl; by rewrite H. Qed.

Lemma watch_link_matches s w video_id rest :
  s ∈ [EmptyString; "http://"; "https://"] → w ∈ [EmptyString; "www."] →
  String.length video_id = 11 → all_chars is_id_char video_id = true →
  match_here [scheme; ["www."]] "youtube.com/watch?v="
    (s +:+ w +:+ "youtube.com/watch?v=" +:+ video_id +:+ rest) = Some video_id.
Proof.
  intros Hs Hw Hlen Hall.
  pose proof (take_id_app 11 video_id rest Hlen Hall) as Htake.
  repeat (apply elem_of_cons in Hs as [->|Hs]);
    [| | |by apply elem_of_nil in Hs];
    (repeat (apply elem_of_cons in Hw as [->|Hw]);
     [| |by apply elem_of_nil in Hw]);
    rewrite ?append_cons, ?append_nil_l, ?append_cons;
    rewrite !match_here_cons; cbn -[take_id match_here];
    rewrite ?match_here_nil; cbn -[take_id]; by rewrite Htake.
Qed.

(** X16. A watch link is recognised whatever follows the identifier: with
    or without the scheme ([http://], [https://]) and with or without
    [www.], the text scheme + www + "youtube.com/watch?v=" + id + rest
    yields exactly [id], for every eleven-character identifier and every
    text [rest] (further parameters, a trailing blank, ...). *)
Theorem watch_link_recognized (s w video_id rest : string) :
  s ∈ [EmptyString; "http://"; "https://"] → w ∈ [EmptyString; "www."] →
  String.length video_id = 11 → all_chars is_id_char video_id = true →
  extract_youtube_video_id
    (s +:+ w +:+ "youtube.com/watch?v=" +:+ video_id +:+ rest)
  = Some video_id.
Proof.
  intros Hs Hw Hlen Hall.
  set (head := s +:+ w +:+ "youtube.com/watch?v=" +:+ video_id).
  assert (Hurl : s +:+ w +:+ "youtube.com/watch?v=" +:+ video_id +:+ rest
                 = head +:+ rest).
  { unfold head. by rewrite !append_assoc. }
  assert (Hne : head ≠ EmptyString).
  { unfold head. apply append_nonempty, append_nonempty. discriminate. }
  assert (Hclean : all_chars (fun c => negb (isspace c)) head = true).
  { unfold head. rewrite !all_chars_app, (id_chars_no_space _ Hall).
    repeat (apply elem_of_cons in Hs as [->|Hs]);
      [| | |by apply elem_of_nil in Hs];
      (repeat (apply elem_of_cons in Hw as [->|Hw]);
       [| |by apply elem_of_nil in Hw]); done. }
  assert (Hlstrip : lstrip (head +:+ rest) = head +:+ rest).
  { destruct head as [|c head']; [done|]. rewrite append_cons. simpl.
    simpl in Hclean. apply andb_prop in Hclean as [Hc _].
    apply negb_true_iff in Hc. by rewrite Hc. }
  destruct (rstrip_keeps_head head rest Hne Hclean) as [rest' Hrstrip].
  unfold extract_youtube_video_id, strip.
  rewrite Hurl, Hlstrip, Hrstrip. unfold head. rewrite !append_assoc.
  unfold patterns. cbn [first_some foldr optional_groups literal].
  rewrite (re_search_here _ _ video_id); [done|].
  by apply watch_link_matches.
Qed.

Lemma watch_link_recognized_witness :
  String.length "dQw4w9WgXcQ" = 11 ∧
  extract_youtube_video_id
    ("https://" +:+ "www." +:+ "youtube.com/watch?v=" +:+ "dQw4w9WgXcQ"
     +:+ "&list=PL1 ")
  = Some "dQw4w9WgXcQ".
Proof.
  assert (Hs : "https://" ∈ [EmptyString; "http://"; "https://"]).
  { apply elem_of_cons; right. apply elem_of_cons; right.
    apply elem_of_cons; by left. }
  assert (Hw : "www." ∈ [EmptyString; "www."]).
  { apply elem_of_cons; right. apply elem_of_cons; by left. }
  assert (Hlen : String.length "dQw4w9WgXcQ" = 11) by reflexivity.
  assert (Hall : all_chars is_id_char "dQw4w9WgXcQ" = true) by reflexivity.
  split; [exact Hlen|].
  exact (watch_link_recognized _ _ _ _ Hs Hw Hlen Hall).
Defined.

Lemma prefix_app q b : String.prefix q (q +:+ b) = true.
Proof.
  induction q as [|c q IH]; [apply prefix_empty|].
  rewrite append_cons. simpl. by destruct (ascii_dec c c).
Qed.

Lemma contains_prefix q h : String.prefix q h = true → contains q h = true.
Proof. intros H. destruct h; cbn [contains]; by rewrite H. Qed.

Lemma contains_mid a q b : contains q (a +:+ q +:+ b) = true.
Proof.
  induction a as [|c a IH].
  - rewrite append_nil_l. apply contains_prefix, prefix_app.
  - rewrite append_cons. cbn [contains]. rewrite IH. apply orb_true_r.
Qed.

Lemma no_literal_no_match groups lit url :
  contains lit url = false →
  re_search (match_here groups lit) (strip url) = None.
Proof.
  intros Hno. destruct (re_search _ (strip url)) as [v|] eqn:Hsearch; [|done].
  apply re_search_spec in Hsearch as (a & b & Hurl & Hmatch).
  apply match_here_spec in Hmatch as (_ & _ & a' & r & ->).
  destruct (lstrip_suffix url) as [pre Hpre].
  destruct (rstrip_prefix (lstrip url)) as [post Hpost].
  fold (strip url) in Hpost. rewrite Hurl in Hpost.
  rewrite Hpre, Hpost in Hno.
  assert (Heq : pre +:+ (a +:+ a' +:+ lit +:+ v +:+ r) +:+ post
                = (pre +:+ a +:+ a') +:+ lit +:+ (v +:+ r +:+ post)).
  { by rewrite !append_assoc. }
  rewrite Heq, contains_mid in Hno. done.
Qed.

Lemma link_matches p s w video_id rest :
  p ∈ patterns →
  s ∈ [EmptyString; "http://"; "https://"] → w ∈ [EmptyString; "www."] →
  String.length video_id = 11 → all_chars is_id_char video_id = true →
  re_search (match_here (optional_groups p) (literal p))
    (s +:+ w +:+ literal p +:+ video_id +:+ rest) = Some video_id.
Proof.
  intros Hp Hs Hw Hlen Hall.
  pose proof (take_id_app 11 video_id rest Hlen Hall) as Htake.
  unfold patterns in Hp.
  repeat (apply elem_of_cons in Hp as [->|Hp]);
    [| | | |by apply elem_of_nil in Hp];
    (repeat (apply elem_of_cons in Hs as [->|Hs]);
     [| | |by apply elem_of_nil in Hs]);
    (repeat (apply elem_of_cons in Hw as [->|Hw]);
     [| |by apply elem_of_nil in Hw]);
    cbn [literal optional_groups];
    rewrite ?append_cons, ?append_nil_l, ?append_cons;
    cbn -[take_id]; by rewrite Htake.
Qed.

Lemma link_head_clean p s w video_id :
  p ∈ patterns →
  s ∈ [EmptyString; "http://"; "https://"] → w ∈ [EmptyString; "www."] →
  all_chars is_id_char video_id = true →
  all_chars (fun c => negb (isspace c)) (s +:+ w +:+ literal p +:+ video_id)
  = true.
Proof.
  intros Hp Hs Hw Hall.
  rewrite !all_chars_app, (id_chars_no_space _ Hall).
  unfold patterns in Hp.
  repeat (apply elem_of_cons in Hp as [->|Hp]);
    [| | | |by apply elem_of_nil in Hp];
    (repeat (apply elem_of_cons in Hs as [->|Hs]);
     [| | |by apply elem_of_nil in Hs]);
    (repeat (apply elem_of_cons in Hw as [->|Hw]);
     [| |by apply elem_of_nil in Hw]); done.
Qed.

(** X17. Each of the four link forms is recognised when the text is not
    ambiguous: if the literal of no other pattern occurs in the text, then
    scheme + www + literal + id + rest yields [id], for the watch, short
    ([youtu.be/]), embed and [/v/] forms alike. *)
Theorem link_recognized (p : url_pattern) (s w video_id rest : string) :
  p ∈ patterns →
  s ∈ [EmptyString; "http://"; "https://"] → w ∈ [EmptyString; "www."] →
  String.length video_id = 11 → all_chars is_id_char video_id = true →
  (∀ q, q ∈ patterns → q ≠ p →
     contains (literal q) (s +:+ w +:+ literal p +:+ video_id +:+ rest)
     = false) →
  extract_youtube_video_id (s +:+ w +:+ literal p +:+ video_id +:+ rest)
  = Some video_id.
Proof.
  intros Hp Hs Hw Hlen Hall Hothers.
  set (url := s +:+ w +:+ literal p +:+ video_id +:+ rest) in *.
  set (head := s +:+ w +:+ literal p +:+ video_id).
  assert (Hurl : url = head +:+ rest).
  { unfold url, head. by rewrite !append_assoc. }
  assert (Hne : head ≠ EmptyString).
  { unfold head. apply append_nonempty, append_nonempty, append_nonempty.
    intros ->. done. }
  pose proof (link_head_clean p s w video_id Hp Hs Hw Hall) as Hclean.
  fold head in Hclean.
  assert (Hlstrip : lstrip (head +:+ rest) = head +:+ rest).
  { destruct head as [|c head']; [done|]. rewrite append_cons. simpl.
    simpl in Hclean. apply andb_prop in Hclean as [Hc _].
    apply negb_true_iff in Hc. by rewrite Hc. }
  destruct (rstrip_keeps_head head rest Hne Hclean) as [rest' Hrstrip].
  assert (Hmine : re_search (match_here (optional_groups p) (literal p))
                    (strip url) = Some video_id).
  { unfold strip. rewrite Hurl, Hlstrip, Hrstrip. unfold head.
    rewrite !append_assoc. by apply link_matches. }
  assert (Hother : ∀ q, q ∈ patterns → q ≠ p →
            re_search (match_here (optional_groups q) (literal q))
              (strip url) = None).
  { intros q Hq Hqp. apply no_literal_no_match. by apply Hothers. }
  unfold extract_youtube_video_id.
  clearbody url. clear Hothers Hurl Hlstrip Hrstrip Hclean Hne.
  revert Hmine Hother. generalize (strip url). intros t Hmine Hother.
  assert (Hsearch : ∀ l, p ∈ l → (∀ q, q ∈ l → q ∈ patterns) →
            first_some (fun pattern =>
              re_search (match_here (optional_groups pattern)
                           (literal pattern)) t) l = Some video_id).
  { induction l as [|q l IH]; intros Hin Hsub; [by apply elem_of_nil in Hin|].
    simpl. destruct (decide (q = p)) as [->|Hqp]; [by rewrite Hmine|].
    rewrite Hother; [|apply Hsub, elem_of_cons; by left|done].
    apply IH.
    - apply elem_of_cons in Hin as [->|Hin]; done.
    - intros q' Hq'. apply Hsub, elem_of_cons. by right. }
  by apply Hsearch.
Qed.

Lemma link_recognized_witness :
  String.length "dQw4w9WgXcQ" = 11 ∧
  extract_youtube_video_id
    ("https://" +:+ EmptyString +:+ "youtu.be/" +:+ "dQw4w9WgXcQ" +:+ "?t=42")
  = Some "dQw4w9WgXcQ".
Proof.
  set (p := {| optional_groups := [scheme]; literal := "youtu.be/" |}).
  assert (Hp : p ∈ patterns).
  { apply elem_of_cons; right. apply elem_of_cons; by left. }
  assert (Hs : "https://" ∈ [EmptyString; "http://"; "https://"]).
  { apply elem_of_cons; right. apply elem_of_cons; right.
    apply elem_of_cons; by left. }
  assert (Hw : EmptyString ∈ [EmptyString; "www."]).
  { apply elem_of_cons; by left. }
  assert (Hlen : String.length "dQw4w9WgXcQ" = 11) by reflexivity.
  assert (Hall : all_chars is_id_char "dQw4w9WgXcQ" = true) by reflexivity.
  assert (Hothers : ∀ q, q ∈ patterns → q ≠ p →
            contains (literal q)
              ("https://" +:+ EmptyString +:+ literal p +:+ "dQw4w9WgXcQ"
               +:+ "?t=42") = false).
  { intros q Hq Hqp. unfold patterns in Hq.
    repeat (apply elem_of_cons in Hq as [->|Hq]);
      [| | | |by apply elem_of_nil in Hq]; try reflexivity.
    by destruct Hqp. }
  split; [exact Hlen|].
  exact (link_recognized p _ _ _ _ Hp Hs Hw Hlen Hall Hothers).
Defined.

(** ** Song search *)

Lemma slice_to_length {A} (k : Z) (l : list A) :
  (0 ≤ k)%Z → (Z.of_nat (length (slice_to k l)) ≤ k)%Z.
Proof.
  intros Hk. unfold slice_to.
  destruct (Z.leb_spec 0 k) as [_|]; [|lia].
  rewrite length_take. lia.
Qed.

Lemma result_info_fields data info :
  result_info data = Ok info → dom info = result_fields.
Proof.
  unfold result_info, result_fields.
  set (info0 := <["title" := _]> _).
  assert (Hdom0 : dom info0 = result_fields).
  { unfold info0, result_fields. rewrite !dom_insert_L, dom_empty_L.
    set_solver. }
  fold result_fields.
  assert (Hstep : ∀ (k : string) v (m : pydict),
            k ∈ result_fields → dom m = result_fields →
            dom (<[k := v]> m) = result_fields).
  { intros k v m Hk Hm. rewrite dom_insert_L, Hm.
    apply subseteq_union_1_L. by apply singleton_subseteq_l. }
  destruct (get_default data "title" (VStr "Unknown")) as [title| |];
    [|done|done].
  cbn [mbind result_bind].
  set (info1 := match parse_title title with
                | Some (artist, song_title) => _ | None => _ end).
  assert (Hinfo1 : ∃ i, info1 = Ok i ∧ dom i = result_fields).
  { unfold info1. destruct (parse_title title) as [[artist song_title]|].
    - eexists. split; [done|].
      apply Hstep; [set_solver|]. apply Hstep; [set_solver|done].
    - by exists info0. }
  destruct Hinfo1 as (i & -> & Hi). cbn [mbind result_bind].
  destruct (truthy _); [|by intros [= <-]].
  destruct (get_default data "duration" (VInt 0)); try done.
  intros [= <-]. apply Hstep; [set_solver|done].
Qed.

Lemma parse_lines_fields env lines : ∀ results,
  parse_lines env lines = Ok results →
  Forall (fun info => dom info = result_fields) results.
Proof.
  induction lines as [|line rest IH]; intros results; cbn [parse_lines].
  - by intros [= <-].
  - destruct (_ && _); [|apply IH].
    destruct (json_loads env (strip line)) as [data|]; [|apply IH].
    destruct (result_info data) as [info|] eqn:Hinfo; [|done].
    cbn [mbind result_bind].
    destruct (parse_lines env rest) as [rs|]; [|done].
    cbn [mbind result_bind]. intros [= <-].
    constructor; [by eapply result_info_fields|by apply IH].
Qed.

Lemma Forall_slice_to {A} (P : A → Prop) k l :
  Forall P l → Forall P (slice_to k l).
Proof. intros H. unfold slice_to. destruct (0 <=? k)%Z; by apply Forall_take. Qed.

Lemma search_youtube_songs_inv env query max_results results :
  search_youtube_songs env query max_results = Ok results →
  results = [] ∨
  ∃ parsed, Forall (fun info => dom info = result_fields) parsed ∧
    results = slice_to (match extract_youtube_video_id query with
                        | Some _ => 1%Z
                        | None => max_results
                        end) parsed.
Proof.
  unfold search_youtube_songs.
  destruct (run_search env _) as [rc out err| | |e]; try done;
    try (intros [= <-]; by left).
  destruct (rc =? 0)%Z; [|intros [= <-]; by left].
  destruct (parse_lines env _) as [parsed|] eqn:Hparsed; [|done].
  cbn [mbind result_bind]. intros Hres. right. exists parsed.
  split; [by eapply parse_lines_fields|].
  destruct (extract_youtube_video_id query); by injection Hres as <-.
Qed.

(** X18. The song search never answers a blank query with results.  For a
    limit that is not negative, an answer holds at most 20 entries: at most
    [limit] entries for a text query and at most one entry when the query
    is a video link; and it repeats the query stripped of its surrounding
    blanks. *)
Theorem song_search_bounded (env : search_env) (q : string) (limit : Z)
    (resp : SearchResponse) :
  (0 ≤ limit)%Z →
  search_songs_endpoint env q limit = Ok (Returned resp) →
  strip q ≠ EmptyString ∧
  search_query resp = strip q ∧
  length (search_results resp) ≤ 20 ∧
  (Z.of_nat (length (search_results resp)) ≤ Z.max limit 1)%Z ∧
  (extract_youtube_video_id (strip q) = None →
   (Z.of_nat (length (search_results resp)) ≤ limit)%Z) ∧
  (extract_youtube_video_id (strip q) ≠ None →
   length (search_results resp) ≤ 1).
Proof.
  intros Hlimit. unfold search_songs_endpoint.
  destruct (String.eqb q EmptyString || _) eqn:Hblank; [done|].
  apply orb_false_elim in Hblank as [_ Hlen].
  destruct (search_youtube_songs env (strip q) (Z.min limit 20))
    as [results|] eqn:Hsearch; [|done].
  cbn [mbind result_bind]. intros [= <-]. cbn [search_query search_results].
  split. { intros Heq. by rewrite Heq in Hlen. }
  split; [done|].
  apply search_youtube_songs_inv in Hsearch as [->|(parsed & _ & ->)].
  { simpl. repeat split; try lia. }
  destruct (extract_youtube_video_id (strip q)) as [video_id|].
  - pose proof (slice_to_length 1 parsed ltac:(lia)) as Hone.
    repeat split; try lia; done.
  - pose proof (slice_to_length (Z.min limit 20) parsed ltac:(lia)) as Hmin.
    repeat split; try lia; done.
Qed.

Lemma song_search_bounded_witness :
  (0 ≤ 1)%Z ∧
  ∃ resp, search_songs_endpoint three_lines " get lucky " 1
          = Ok (Returned resp) ∧
          length (search_results resp) ≤ 20.
Proof.
  assert (Hlimit : (0 ≤ 1)%Z) by lia.
  split; [exact Hlimit|].
  eexists. split; [vm_compute; reflexivity|].
  refine (proj1 (proj2 (proj2
    (song_search_bounded three_lines " get lucky " 1 _ Hlimit _)))).
  vm_compute; reflexivity.
Defined.

(** X19. Every entry that the song search returns carries the same nine
    fields (title, artist, duration, video_id, thumbnail_url, uploader,
    view_count, upload_date, duration_seconds), whatever the decoded line
    held: missing fields are filled with defaults. *)
Theorem search_entries_complete (env : search_env) (query : string)
    (max_results : Z) (results : list pydict) :
  search_youtube_songs env query max_results = Ok results →
  Forall (fun info => dom info = result_fields) results.
Proof.
  intros [->|(parsed & Hparsed & ->)]%search_youtube_songs_inv; [done|].
  by apply Forall_slice_to.
Qed.

Lemma search_entries_complete_witness :
  ∃ results,
    search_youtube_songs three_lines "get lucky" 10 = Ok results ∧
    length results = 2 ∧
    Forall (fun info => dom info = result_fields) results.
Proof.
  eexists. split; [vm_compute; reflexivity|]. split; [reflexivity|].
  refine (search_entries_complete three_lines "get lucky" 10 _ _).
  vm_compute; reflexivity.
Defined.

(** ** Album search *)

Lemma release_tracks_credits data tracks : ∀ entries,
  release_tracks data tracks = Ok entries →
  Forall (fun t => te_artist t = release_artist data ∧
                   te_album t = default "Unknown Album" (rd_title data))
    entries.
Proof.
  induction tracks as [|track rest IH]; intros entries; cbn [release_tracks].
  - by intros [= <-].
  - destruct (rt_recording track) as [[title|]|]; [|done|apply IH].
    destruct (release_tracks data rest) as [more|]; [|done].
    cbn [mbind result_bind]. intros [= <-].
    constructor; [split; reflexivity|by apply IH].
Qed.

Lemma get_album_tracks_same_credits env release_id :
  same_credits (get_album_tracks_from_release env release_id).
Proof.
  unfold get_album_tracks_from_release, same_credits.
  destruct (mb_detail env release_id) as [e|code data];
    [intros t u Ht; by apply elem_of_nil in Ht|].
  destruct (code =? 200)%Z; [|intros t u Ht; by apply elem_of_nil in Ht].
  destruct (release_tracks data _) as [entries|] eqn:Hentries;
    [|intros t u Ht; by apply elem_of_nil in Ht].
  apply release_tracks_credits in Hentries as Hall.
  rewrite Forall_forall in Hall. intros t u Ht Hu.
  destruct (Hall t Ht) as [-> ->]. destruct (Hall u Hu) as [-> ->]. done.
Qed.

Lemma album_info_of_tracks env release tracks :
  ai_tracks (album_info_of env release) = Some tracks →
  has_id release = true ∧
  ai_track_count (album_info_of env release) = Z.of_nat (length tracks) ∧
  same_credits tracks.
Proof.
  unfold album_info_of, has_id.
  destruct (String.eqb (default EmptyString (fr_id release)) EmptyString);
    cbn [ai_tracks ai_track_count]; [done|].
  intros [= <-]. split; [done|]. split; [done|].
  apply get_album_tracks_same_credits.
Qed.

Lemma album_info_of_no_id env release :
  has_id release = false → ai_tracks (album_info_of env release) = None.
Proof.
  unfold album_info_of, has_id. intros H%negb_false_iff. by rewrite H.
Qed.

Lemma album_info_of_id env release :
  has_id release = true →
  ∃ tracks, ai_tracks (album_info_of env release) = Some tracks.
Proof.
  unfold album_info_of, has_id. intros H%negb_true_iff. rewrite H.
  by eexists.
Qed.

Lemma ai_album_of env release :
  ai_album (album_info_of env release)
  = default "Unknown Album" (fr_title release).
Proof. unfold album_info_of. by destruct (String.eqb _ _). Qed.

Lemma album_responses_inv query env releases : ∀ entries,
  album_responses query (map (album_info_of env) releases) = Ok entries →
  Forall (fun entry =>
            asr_query entry = query ∧
            asr_track_count entry = Z.of_nat (length (asr_tracks entry)) ∧
            same_credits (asr_tracks entry)) entries.
Proof.
  induction releases as [|release rest IH]; intros entries;
    cbn [map album_responses].
  - by intros [= <-].
  - destruct (ai_tracks (album_info_of env release)) as [tracks|] eqn:Htracks;
      [|done].
    destruct (album_responses query _) as [more|]; [|done].
    cbn [mbind result_bind]. intros [= <-].
    apply album_info_of_tracks in Htracks as (_ & Hcount & Hsame).
    constructor; [done|by apply IH].
Qed.

Lemma album_responses_ids query env releases :
  forallb has_id releases = true →
  ∃ entries,
    album_responses query (map (album_info_of env) releases) = Ok entries ∧
    map asr_album entries
    = map (fun release => default "Unknown Album" (fr_title release)) releases.
Proof.
  induction releases as [|release rest IH]; cbn [forallb map album_responses].
  - by exists [].
  - intros [Hid Hrest]%andb_prop.
    destruct (album_info_of_id env release Hid) as [tracks ->].
    destruct (IH Hrest) as (more & -> & Hmore).
    cbn [mbind result_bind]. eexists. split; [done|].
    cbn [map asr_album]. by rewrite Hmore, ai_album_of.
Qed.

Lemma album_responses_no_id query env releases :
  forallb has_id releases = false →
  album_responses query (map (album_info_of env) releases) = Raise "'tracks'".
Proof.
  induction releases as [|release rest IH]; cbn [forallb map album_responses];
    [done|].
  destruct (has_id release) eqn:Hid.
  - intros Hrest. destruct (album_info_of_id env release Hid) as [tracks ->].
    by rewrite (IH Hrest).
  - intros _. by rewrite album_info_of_no_id.
Qed.

Lemma not_blank q :
  strip q ≠ EmptyString →
  String.eqb q EmptyString || (String.length (strip q) =? 0) = false.
Proof.
  intros Hq. destruct q as [|c q]; [done|].
  destruct (strip (String c q)); done.
Qed.

(** X20. In every entry that the album search returns, the track count is
    the number of tracks listed (not the count that the directory
    announced), all the tracks carry one artist and one album, and the
    entry repeats the query stripped of its surrounding blanks. *)
Theorem album_entries_count_tracks (env : album_env) (q : string) (limit : Z)
    (entries : list AlbumSearchResponse) :
  search_albums_endpoint env q limit = Ok (Returned entries) →
  Forall (fun entry =>
            asr_query entry = strip q ∧
            asr_track_count entry = Z.of_nat (length (asr_tracks entry)) ∧
            same_credits (asr_tracks entry)) entries.
Proof.
  unfold search_albums_endpoint.
  destruct (String.eqb q EmptyString || _); [done|].
  unfold search_musicbrainz_albums.
  destruct (mb_search env (strip q) (Z.min limit 10)) as [e|code releases].
  { intros [= <-]. done. }
  destruct (code =? 200)%Z; [|by intros [= <-]].
  destruct (album_responses _ _) as [found|] eqn:Hfound; [|done].
  cbn [mbind result_bind]. intros [= <-].
  by eapply album_responses_inv.
Qed.

Lemma album_entries_count_tracks_witness :
  ∃ entries,
    search_albums_endpoint one_album " discovery" 5 = Ok (Returned entries) ∧
    map asr_track_count entries = [2%Z] ∧
    Forall (fun entry =>
              asr_query entry = strip " discovery" ∧
              asr_track_count entry = Z.of_nat (length (asr_tracks entry)) ∧
              same_credits (asr_tracks entry)) entries.
Proof.
  eexists. split; [vm_compute; reflexivity|]. split; [reflexivity|].
  refine (album_entries_count_tracks one_album " discovery" 5 _ _).
  vm_compute; reflexivity.
Defined.

(** X21. The album search needs an identifier on every release of the
    reply: when each release has one, the answer lists the releases in the
    order of the reply, one entry each; when a release comes without an
    identifier (absent or empty), the request ends in a [KeyError] on
    [tracks] instead of an answer. *)
Theorem album_search_needs_ids (env : album_env) (q : string) (limit : Z)
    (releases : list found_release) :
  strip q ≠ EmptyString →
  mb_search env (strip q) (Z.min limit 10) = HttpReply 200 releases →
  (forallb has_id releases = true →
   ∃ entries,
     search_albums_endpoint env q limit = Ok (Returned entries) ∧
     map asr_album entries
     = map (fun release => default "Unknown Album" (fr_title release))
         releases) ∧
  (forallb has_id releases = false →
   search_albums_endpoint env q limit = Raise "'tracks'").
Proof.
  intros Hq Hreply. unfold search_albums_endpoint, search_musicbrainz_albums.
  rewrite (not_blank q Hq), Hreply. cbn [Z.eqb Pos.eqb].
  split.
  - intros Hids.
    destruct (album_responses_ids (strip q) env releases Hids)
      as (entries & -> & Hentries).
    by exists entries.
  - intros Hids. by rewrite album_responses_no_id.
Qed.

Lemma album_search_needs_ids_witness :
  strip "discovery" ≠ EmptyString ∧
  search_albums_endpoint nameless "discovery" 5 = Raise "'tracks'".
Proof.
  assert (Hq : strip "discovery" ≠ EmptyString) by (vm_compute; discriminate).
  split; [exact Hq|].
  refine (proj2 (album_search_needs_ids nameless "discovery" 5 _ Hq _) _);
    reflexivity.
Defined.

(** ** The test script *)

Lemma script_download_song_spec s dir w :
  (Script.download_song s dir w).1
  = bool_decide (Script.download w = Script.Exit 0) ∧
  Forall (fun a => Script.is_write a = false) (Script.download_song s dir w).2.
Proof.
  unfold Script.download_song, Script.fix_metadata.
  destruct (Script.download w) as [rc| |]; cbn [fst snd].
  - destruct (Z.eqb_spec rc 0) as [->|Hrc]; cbn [fst snd].
    + split; [done|].
      destruct (Script.file_exists w); [|by repeat constructor].
      destruct (Script.tagging w) as [rc'| |]; try by repeat constructor.
      destruct (rc' =? 0)%Z; by repeat constructor.
    + split; [|by repeat constructor].
      rewrite bool_decide_eq_false_2; [done|]. by intros [= ->].
  - split; [done|by repeat constructor].
  - split; [done|by repeat constructor].
Qed.

Lemma script_download_loop_spec env songs : ∀ i,
  (0 < (Script.download_loop env i songs).1 ↔
   ∃ k s, songs !! k = Some s ∧
          Script.download (env (i + k)) = Script.Exit 0) ∧
  Forall (fun a => Script.is_write a = false)
    (Script.download_loop env i songs).2.
Proof.
  induction songs as [|s rest IH]; intros i; cbn [Script.download_loop].
  - cbn [fst snd]. split; [|done]. split; [lia|]. by intros (k & s & Hk & _).
  - destruct (script_download_song_spec s "test_music" (env i)) as [Hok Hacts].
    destruct (Script.download_song s "test_music" (env i)) as [ok actions].
    destruct (IH (S i)) as [Hcount Hmore].
    destruct (Script.download_loop env (S i) rest) as [count more].
    cbn [fst snd] in *. split.
    + split.
      * intros Hpos. destruct ok.
        -- exists 0, s. split; [done|].
           symmetry in Hok. apply bool_decide_eq_true in Hok.
           by rewrite Nat.add_0_r.
        -- destruct Hcount as [Hcount _].
           destruct Hcount as (k & s' & Hk & Hdl); [simpl in Hpos; lia|].
           exists (S k), s'. split; [done|].
           by replace (i + S k) with (S i + k) by lia.
      * intros (k & s' & Hk & Hdl). destruct k as [|k].
        -- rewrite Nat.add_0_r in Hdl.
           rewrite Hok, bool_decide_eq_true_2 by done. lia.
        -- destruct Hcount as [_ Hcount].
           assert (0 < count); [|lia].
           apply Hcount. exists k, s'. split; [done|].
           by replace (S i + k) with (i + S k) by lia.
    + apply Forall_app. split; [done|]. by constructor.
Qed.

Lemma script_lines_name_every_song songs s :
  s ∈ songs → Script.filename s ∈ Script.m3u_lines songs.
Proof.
  intros Hs. unfold Script.m3u_lines. apply elem_of_cons. right.
  apply list_elem_of_In, in_flat_map. exists s.
  split; [by apply list_elem_of_In|]. right. by left.
Qed.

(** X22. The test script writes its playlist exactly when at least one
    download ended with return code 0, and the playlist it then writes
    names the file of every song of the list, also of the songs whose
    download failed. *)
Theorem script_playlist_names_every_song (env : nat → Script.answers)
    (songs : list Script.song) :
  (existsb Script.is_write (Script.main env songs) = true ↔
   ∃ k s, songs !! k = Some s ∧
          Script.download (env k) = Script.Exit 0) ∧
  (∀ path text,
     Script.WriteFile path text ∈ Script.main env songs →
     (path, text)
     = Script.create_m3u_playlist songs "test_music" "downloaded_music.m3u" ∧
     ∀ s, s ∈ songs → Script.filename s ∈ Script.m3u_lines songs).
Proof.
  unfold Script.main.
  destruct (script_download_loop_spec env songs 0) as [Hcount Hacts].
  destruct (Script.download_loop env 0 songs) as [count actions].
  cbn [fst snd] in *.
  assert (Hquiet : existsb Script.is_write actions = false).
  { clear Hcount. induction Hacts as [|a l Ha _ IH]; simpl; [done|].
    by rewrite Ha, IH. }
  split.
  - cbn [existsb Script.is_write]. rewrite existsb_app, Hquiet.
    cbn [orb]. destruct (Nat.ltb_spec 0 count) as [Hpos|Hzero].
    + cbn [Script.create_m3u_playlist]. simpl existsb.
      split; [intros _; by apply Hcount|done].
    + simpl. split; [done|]. intros H%Hcount. lia.
  - intros path text Hin.
    split; [|apply script_lines_name_every_song].
    apply elem_of_cons in Hin as [Hin|Hin]; [done|].
    apply elem_of_app in Hin as [Hin|Hin].
    + rewrite Forall_forall in Hacts. by specialize (Hacts _ Hin).
    + destruct (0 <? count); [|by apply elem_of_nil in Hin].
      cbn [Script.create_m3u_playlist] in *.
      apply list_elem_of_singleton in Hin. by injection Hin as -> ->.
Qed.

Example script_playlist_of_one_download :
  ∃ text,
    last (Script.main Script.second_only (take 2 Script.songs))
    = Some (Script.WriteFile "test_music/downloaded_music.m3u" text) ∧
    contains "Billie Eilish - bad guy.mp3" text = true.
Proof. eexists. split; [vm_compute; reflexivity|reflexivity]. Qed.
